(** * Player roster manager: record store and CSV codec

    A shallow embedding of [assignment.py]: the [PlayerRecord] class, the
    [PlayerManager] singleton with its list of player objects, the
    statistics it computes and its CSV persistence through Python's [csv]
    module (excel dialect, [DictWriter] / [DictReader]).

    Modelling conventions.
    - Python objects live in a heap: a [PlayerRecord] object is an address
      into [heap], and [self.players] is a list of addresses, so that two
      positions of the list may hold one and the same object.
    - A method is a function from the state before the call to an
      [outcome] (normal return or raised exception) and the state after.
    - [print] appends a line to [stdout].
    - Text is a [string] of code points below 256; a Python [int] is a [Z].
    - The file system is a finite map from files to their text.  Which
      file a name denotes, and whether [open] raises instead, is the
      operating system's answer ([OS]); the definitions and theorems hold
      for every such answer.
    - The [csv] module is that of CPython 3.11 and later, where a NUL is a
      character like any other; its field size limit is the default one.
    - A Python [float] is a binary64 number, kept as the rational that is
      its value (the sign of a zero is not kept); the division of two
      integers rounds to the nearest one or raises [OverflowError].
    - Files are read and written in an encoding that has every
      character of the texts.  Memory, the failure of a read or a write
      on an open file, and the limit on the number of digits of an
      integer conversion (a setting of the interpreter) are not
      modelled. *)

From Stdlib Require Import ZArith QArith Qabs Qpower Ascii String List Lia.
From Stdlib Require Import Sorting.Sorted Sorting.Permutation.
From Stdlib Require Import DecimalString DecimalPos.
From stdpp Require Import base list strings gmap sorting.

Open Scope Z_scope.

(* ===================================================================== *)
(** ** Outcomes and exceptions *)

Inductive exn : Type :=
  | KeyError (key : string)
  | ValueError
  | TypeError
  | OverflowError
  | FileNotFoundError
  | IsADirectoryError
  | PermissionError
  | OSError (errno : Z)
  | CsvError.

Inductive outcome (A : Type) : Type :=
  | Return (a : A)
  | Raise (e : exn).

Arguments Return {A} a.
Arguments Raise {A} e.

Definition raises {A : Type} (o : outcome A) : Prop := ∃ e, o = Raise e.

(* ===================================================================== *)
(** ** class PlayerRecord *)

(** The attributes of a [PlayerRecord] object.  [name] and [team] are
    [Optional[str]]: [load_from_csv] can store [None] there (a short row
    under a header that lists Name or Team late). *)
Record PlayerRecord : Type := mkPlayerRecord {
  name : option string;
  team : option string;
  goals : Z;
  assists : Z
}.

#[global] Instance PlayerRecord_inhabited : Inhabited PlayerRecord :=
  populate (mkPlayerRecord None None 0 0).

(** [PlayerRecord(name, team, goals, assists)] called with two [str] and
    two [int] arguments. *)
Definition new_record (n t : string) (g a : Z) : PlayerRecord :=
  mkPlayerRecord (Some n) (Some t) g a.

(** Truth value of an [Optional[str]]: [None] and the empty string are
    false. *)
Definition truthy (o : option string) : bool :=
  match o with
  | Some (String _ _) => true
  | _ => false
  end.

Definition set_name (v : option string) (r : PlayerRecord) : PlayerRecord :=
  mkPlayerRecord v (team r) (goals r) (assists r).
Definition set_team (v : option string) (r : PlayerRecord) : PlayerRecord :=
  mkPlayerRecord (name r) v (goals r) (assists r).
Definition set_goals (v : Z) (r : PlayerRecord) : PlayerRecord :=
  mkPlayerRecord (name r) (team r) v (assists r).
Definition set_assists (v : Z) (r : PlayerRecord) : PlayerRecord :=
  mkPlayerRecord (name r) (team r) (goals r) v.

(** [PlayerRecord.edit]: four guarded assignments, in source order. *)
Definition edit (self : PlayerRecord) (name' team' : option string)
    (goals' assists' : option Z) : PlayerRecord :=
  let self := if truthy name' then set_name name' self else self in
  let self := if truthy team' then set_team team' self else self in
  let self := match goals' with Some g => set_goals g self | None => self end in
  let self := match assists' with Some a => set_assists a self | None => self end in
  self.

(* ===================================================================== *)
(** ** class PlayerManager: state *)

(** Address of a [PlayerRecord] object. *)
Definition ref : Type := nat.

Record State : Type := mkState {
  heap : list PlayerRecord;      (* the PlayerRecord objects, by address *)
  players : list ref;            (* self.players *)
  stdout : list string;          (* lines printed so far *)
  files : gmap string string     (* the file system: the text of each file *)
}.

Definition set_heap (h : list PlayerRecord) (st : State) : State :=
  mkState h (players st) (stdout st) (files st).
Definition set_players (ps : list ref) (st : State) : State :=
  mkState (heap st) ps (stdout st) (files st).
Definition set_files (fs : gmap string string) (st : State) : State :=
  mkState (heap st) (players st) (stdout st) fs.
Definition print (line : string) (st : State) : State :=
  mkState (heap st) (players st) (stdout st ++ [line]) (files st).

(** The object behind an address, and the records of the store in order. *)
Definition deref (h : list PlayerRecord) (a : ref) : PlayerRecord := h !!! a.
Definition contents (st : State) : list PlayerRecord :=
  deref (heap st) <$> players st.

(** Every address held by the store is allocated. *)
Definition wf (st : State) : Prop :=
  Forall (λ a : ref, (a < length (heap st))%nat) (players st).

(** [0 <= index < len(self.players)] *)
Definition valid_index (index : Z) (st : State) : bool :=
  (0 <=? index) && (index <? Z.of_nat (length (players st))).

(* ===================================================================== *)
(** ** PlayerManager: add, edit, delete *)

Definition add_player (player : ref) (st : State) : outcome unit * State :=
  (Return tt,
   print "Player added successfully." (set_players (players st ++ [player]) st)).

(** [updated_player] is an object too; its four attributes are read
    before [edit] runs, so it may be the edited object itself. *)
Definition edit_player (index : Z) (updated_player : ref) (st : State)
    : outcome unit * State :=
  if valid_index index st then
    let target := players st !!! Z.to_nat index in
    let u := deref (heap st) updated_player in
    let h := alter (λ r, edit r (name u) (team u) (Some (goals u)) (Some (assists u)))
                   target (heap st) in
    (Return tt, print "Player updated successfully." (set_heap h st))
  else
    (Return tt, print "Invalid index." st).

Definition delete_player (index : Z) (st : State) : outcome unit * State :=
  if valid_index index st then
    (Return tt,
     print "Player deleted successfully."
           (set_players (delete (Z.to_nat index) (players st)) st))
  else
    (Return tt, print "Invalid index." st).

(* ===================================================================== *)
(** ** Builtins: list.sort / sorted, statistics.mean, statistics.median *)

(** Python's sort is stable; a stable insertion sort stands for it. *)
Fixpoint insert_by {A : Type} (key : A → Z) (x : A) (l : list A) : list A :=
  match l with
  | [] => [x]
  | y :: l' => if key x <=? key y then x :: l else y :: insert_by key x l'
  end.

Fixpoint stable_sort {A : Type} (key : A → Z) (l : list A) : list A :=
  match l with
  | [] => []
  | x :: l' => insert_by key x (stable_sort key l')
  end.

(** [l.sort(key=key, reverse=reverse)]: a reverse sort reverses the list,
    sorts it forward and reverses the result, which keeps it stable. *)
Definition list_sort {A : Type} (key : A → Z) (reversed : bool) (l : list A)
    : list A :=
  if reversed then reverse (stable_sort key (reverse l)) else stable_sort key l.

Definition sorted (data : list Z) : list Z := list_sort id false data.

(** Numbers returned by the statistics functions.  [PyFloat q] is the
    float whose value is the rational [q]. *)
Inductive pynum : Type :=
  | PyInt (z : Z)
  | PyFloat (q : Q).

Definition num_value (x : pynum) : Q :=
  match x with
  | PyInt z => inject_Z z
  | PyFloat q => q
  end.

Definition sum_Z (data : list Z) : Z := foldr Z.add 0 data.

(** The integer nearest to [n / d] for [d > 0]; of two nearest integers,
    the even one. *)
Definition round_half_even (n d : Z) : Z :=
  let q := n / d in
  match 2 * (n mod d) ?= d with
  | Lt => q
  | Gt => q + 1
  | Eq => if Z.even q then q else q + 1
  end.

(** The integer part of the binary logarithm of [n / d] when
    [0 < d <= n]; not above 0 when [n < d]. *)
Definition log2_ratio (n d : Z) : Z :=
  let l := Z.log2 n - Z.log2 d in
  if n <? d * 2 ^ l then l - 1 else l.

(** [a / b] for two [int]s with [b > 0]: the float nearest to the
    quotient, the one with the even significand of two nearest, and
    [OverflowError] when that is beyond the largest float.  A float is a
    multiple [m * 2^s] of the unit [2^-1074] with [m < 2^53]: the
    quotient is measured in that unit, [s] is the exponent its size asks
    for, and the float reaches [2^1024] when [m * 2^s] reaches
    [2^2098]. *)
Definition int_truediv (a : Z) (b : positive) : outcome Q :=
  let n := Z.abs a * 2 ^ 1074 in
  let d := Z.pos b in
  let s := Z.max 0 (log2_ratio n d - 52) in
  let m := round_half_even n (d * 2 ^ s) in
  if 2 ^ 2098 <=? m * 2 ^ s then Raise OverflowError
  else Return (Qred (Z.sgn a * (m * 2 ^ s) # 2 ^ 1074)).

Definition as_float (o : outcome Q) : outcome pynum :=
  match o with
  | Return q => Return (PyFloat q)
  | Raise e => Raise e
  end.

(** [statistics.mean] on integers: the exact fraction [total / n] is
    returned as an [int] when its denominator is 1 and converted to a
    [float], by the division of its numerator by its denominator,
    otherwise.  No data raises [StatisticsError], a [ValueError]. *)
Definition mean (data : list Z) : outcome pynum :=
  match data with
  | [] => Raise ValueError
  | _ :: _ =>
      let total := sum_Z data in
      let n := Z.of_nat (length data) in
      if total mod n =? 0 then Return (PyInt (total / n))
      else as_float (int_truediv total (Z.to_pos n))
  end.

(** [statistics.median]: the middle element of the sorted data, or the
    true division by 2 of the sum of the two middle elements. *)
Definition median (data : list Z) : outcome pynum :=
  let data := sorted data in
  let n := length data in
  if (n =? 0)%nat then Raise ValueError
  else if (n mod 2 =? 1)%nat then Return (PyInt (data !!! (n / 2)%nat))
  else
    let i := (n / 2)%nat in
    as_float (int_truediv (data !!! (i - 1)%nat + data !!! i) 2).

Definition calculate_average_goals (st : State) : outcome pynum * State :=
  match players st with
  | _ :: _ => (mean (goals <$> contents st), st)
  | [] => (Return (PyFloat 0), st)
  end.

Definition calculate_median_assists (st : State) : outcome pynum * State :=
  match players st with
  | _ :: _ => (median (assists <$> contents st), st)
  | [] => (Return (PyFloat 0), st)
  end.

(** The median as the spec words it, over any sorted arrangement [s] of
    the values: the middle value for an odd count, the average of the two
    central values for an even count. *)
Definition median_of_sorted (s : list Z) : Q :=
  let n := length s in
  if Nat.even n then
    (inject_Z (s !!! (n / 2 - 1)%nat) + inject_Z (s !!! (n / 2)%nat)) / 2
  else inject_Z (s !!! (n / 2)%nat).

(* ===================================================================== *)
(** ** PlayerManager: filter_by_goal_range *)

Definition in_goal_range (h : list PlayerRecord) (min_goals max_goals : Z)
    (a : ref) : Prop :=
  min_goals <= goals (deref h a) <= max_goals.

#[global] Instance in_goal_range_dec h lo hi a : Decision (in_goal_range h lo hi a).
Proof. unfold in_goal_range. apply _. Defined.

Definition filter_by_goal_range (min_goals max_goals : Z) (ascending : bool)
    (st : State) : outcome (list ref) * State :=
  let filtered_players :=
    filter (in_goal_range (heap st) min_goals max_goals) (players st) in
  (Return (list_sort (λ a, goals (deref (heap st) a)) (negb ascending)
                     filtered_players),
   st).

(* ===================================================================== *)
(** ** Builtins: str(int) and int(str) *)

(** [str(z)]: decimal digits, with a leading minus sign for a negative
    integer. *)
Definition str_int (z : Z) : string := NilZero.string_of_int (Z.to_int z).

Definition digit_value (c : ascii) : option Z :=
  let n := Z.of_N (N_of_ascii c) in
  if (48 <=? n) && (n <=? 57) then Some (n - 48) else None.

(** White space for [int()]: tab to carriage return, space, next line
    (U+0085) and no-break space (U+00A0). *)
Definition py_isspace (c : ascii) : bool :=
  let n := Z.of_N (N_of_ascii c) in
  ((9 <=? n) && (n <=? 13)) || (n =? 32) || (n =? 133) || (n =? 160).

Fixpoint all_space (s : string) : bool :=
  match s with
  | EmptyString => true
  | String c r => py_isspace c && all_space r
  end.

Fixpoint lstrip (s : string) : string :=
  match s with
  | EmptyString => EmptyString
  | String c r => if py_isspace c then lstrip r else s
  end.

(** The digits of an integer literal: single underscores are allowed
    between digits; only white space may follow the last digit.
    [after_digit] tells whether the previous character was a digit. *)
Fixpoint int_digits (acc : Z) (after_digit : bool) (s : string) : option Z :=
  match s with
  | EmptyString => if after_digit then Some acc else None
  | String c r =>
      match digit_value c with
      | Some d => int_digits (10 * acc + d) true r
      | None =>
          if negb after_digit then None
          else if Ascii.eqb c "_" then int_digits acc false r
          else if all_space s then Some acc
          else None
      end
  end.

(** [int(s)] for a [str]: [None] stands for [ValueError]. *)
Definition int_of_str (s : string) : option Z :=
  match lstrip s with
  | String c r =>
      if Ascii.eqb c "-" then Z.opp <$> int_digits 0 false r
      else if Ascii.eqb c "+" then int_digits 0 false r
      else int_digits 0 false (String c r)
  | EmptyString => None
  end.

(* ===================================================================== *)
(** ** The csv module, excel dialect: writer *)

Definition delimiter : ascii := ",".
Definition quotechar : ascii := "034".
Definition CR : ascii := "013".
Definition LF : ascii := "010".
Definition lineterminator : string := String CR (String LF EmptyString).

(** A value handed to [writerow]. *)
Inductive pyfield : Type :=
  | FStr (s : string)
  | FNone
  | FInt (z : Z).

Definition field_text (f : pyfield) : string :=
  match f with
  | FStr s => s
  | FNone => EmptyString
  | FInt z => str_int z
  end.

(** QUOTE_MINIMAL: a field is quoted when it holds the delimiter, the
    quote character or a character of the line terminator. *)
Definition special_char (c : ascii) : bool :=
  Ascii.eqb c delimiter || Ascii.eqb c quotechar
  || Ascii.eqb c CR || Ascii.eqb c LF.

Fixpoint must_quote (s : string) : bool :=
  match s with
  | EmptyString => false
  | String c r => special_char c || must_quote r
  end.

(** doublequote: a quote character inside a field is written twice. *)
Fixpoint double_quotes (s : string) : string :=
  match s with
  | EmptyString => EmptyString
  | String c r =>
      if Ascii.eqb c quotechar then String c (String c (double_quotes r))
      else String c (double_quotes r)
  end.

Definition join_append (s : string) : string :=
  if must_quote s then
    String quotechar (double_quotes s ++ String quotechar EmptyString)
  else s.

Fixpoint join_fields (fs : list string) : string :=
  match fs with
  | [] => EmptyString
  | [f] => f
  | f :: rest => f ++ String delimiter (join_fields rest)
  end.

(** [writer.writerow]: the joined fields and the line terminator; a row
    of one empty field is written as a pair of quotes. *)
Definition writerow (fields : list pyfield) : string :=
  let rec := join_fields (join_append ∘ field_text <$> fields) in
  match fields, rec with
  | _ :: _, EmptyString =>
      String quotechar (String quotechar lineterminator)
  | _, _ => rec ++ lineterminator
  end.

(** [DictWriter._dict_to_list]: the values of the row dictionary in the
    order of [fieldnames], the empty string for an absent key. *)
Definition dict_to_list (fieldnames : list string)
    (rowdict : gmap string pyfield) : list pyfield :=
  (λ key, default (FStr EmptyString) (rowdict !! key)) <$> fieldnames.

Definition DictWriter_writeheader (fieldnames : list string) : string :=
  writerow (dict_to_list fieldnames
              (list_to_map (zip fieldnames (FStr <$> fieldnames)))).

Definition DictWriter_writerow (fieldnames : list string)
    (rowdict : gmap string pyfield) : string :=
  writerow (dict_to_list fieldnames rowdict).

(* ===================================================================== *)
(** ** PlayerManager: save_to_csv *)

Definition fieldnames : list string := ["Name"; "Team"; "Goals"; "Assists"].

Definition text_field (o : option string) : pyfield :=
  match o with
  | Some s => FStr s
  | None => FNone
  end.

Definition row_dict (player : PlayerRecord) : gmap string pyfield :=
  <["Assists" := FInt (assists player)]>
    (<["Goals" := FInt (goals player)]>
      (<["Team" := text_field (team player)]>
        (<["Name" := text_field (name player)]> ∅))).

Fixpoint concat_text (l : list string) : string :=
  match l with
  | [] => EmptyString
  | s :: rest => s ++ concat_text rest
  end.

(** The text [save_to_csv] writes for a sequence of records. *)
Definition csv_text (records : list PlayerRecord) : string :=
  DictWriter_writeheader fieldnames
  ++ concat_text (DictWriter_writerow fieldnames ∘ row_dict <$> records).

(** What [open] answers for a file name: the file the name denotes, or
    the exception raised instead ([FileNotFoundError] for the empty name
    or a directory that does not exist, [IsADirectoryError],
    [PermissionError], [ValueError] for a name with a NUL, another
    [OSError]).  Several names can denote one file.  A file opened for
    reading has to exist; a file opened for writing is created when it
    does not. *)
Class OS : Type := mkOS {
  open_read : string → exn + string;
  open_write : string → exn + string
}.

(** The file is opened for writing, which truncates it. *)
Definition save_to_csv {os : OS} (filename : string) (st : State)
    : outcome unit * State :=
  match open_write filename with
  | inl e => (Raise e, st)
  | inr file =>
      (Return tt, set_files (<[file := csv_text (contents st)]> (files st)) st)
  end.

(* ===================================================================== *)
(** ** Text files opened with newline='' *)

(** Iterating over the file yields its lines, each with its terminator:
    a line ends after a line feed, after a carriage return and line feed,
    or after a carriage return alone. *)
Fixpoint readlines (s : string) : list string :=
  match s with
  | EmptyString => []
  | String c rest =>
      if Ascii.eqb c LF then String c EmptyString :: readlines rest
      else if Ascii.eqb c CR then
        match rest with
        | String c' rest' =>
            if Ascii.eqb c' LF
            then String c (String c' EmptyString) :: readlines rest'
            else String c EmptyString :: readlines rest
        | EmptyString => [String c EmptyString]
        end
      else
        match readlines rest with
        | [] => [String c EmptyString]
        | l :: ls => String c l :: ls
        end
  end.

(* ===================================================================== *)
(** ** The csv module, excel dialect: reader *)

(** Parser states.  The dialect sets no escape character, so the three
    states that follow one are left out. *)
Inductive ParserState : Type :=
  | START_RECORD
  | START_FIELD
  | IN_FIELD
  | IN_QUOTED_FIELD
  | QUOTE_IN_QUOTED_FIELD
  | EAT_CRNL.

#[global] Instance ParserState_eq_dec : EqDecision ParserState.
Proof. solve_decision. Defined.

(** What the parser is fed: a character of the line, or the end of the
    line. *)
Inductive symbol : Type :=
  | Chr (c : ascii)
  | EOL.

Record Reader : Type := mkReader {
  fields : list string;     (* the fields of the record so far *)
  field : string;           (* the field being read *)
  state : ParserState
}.

Definition parse_reset : Reader := mkReader [] EmptyString START_RECORD.

Definition parse_save_field (r : Reader) : Reader :=
  mkReader (fields r ++ [field r]) EmptyString (state r).

(** [csv.field_size_limit()] *)
Definition field_size_limit : Z := 131072.

(** [parse_add_char]; [None] stands for [csv.Error]: the field is at the
    limit already. *)
Definition parse_add_char (c : ascii) (r : Reader) : option Reader :=
  if field_size_limit <=? Z.of_nat (String.length (field r)) then None
  else Some (mkReader (fields r) (field r ++ String c EmptyString) (state r)).

Definition set_state (s : ParserState) (r : Reader) : Reader :=
  mkReader (fields r) (field r) s.

Definition is_newline (x : symbol) : bool :=
  match x with
  | Chr c => Ascii.eqb c LF || Ascii.eqb c CR
  | EOL => false
  end.

Definition is_char (x : symbol) (d : ascii) : bool :=
  match x with
  | Chr c => Ascii.eqb c d
  | EOL => false
  end.

Definition after_line_end (x : symbol) : ParserState :=
  match x with
  | EOL => START_RECORD
  | Chr _ => EAT_CRNL
  end.

Definition start_field (x : symbol) (r : Reader) : option Reader :=
  match x with
  | EOL => Some (set_state START_RECORD (parse_save_field r))
  | Chr c =>
      if is_newline x then Some (set_state EAT_CRNL (parse_save_field r))
      else if Ascii.eqb c quotechar then Some (set_state IN_QUOTED_FIELD r)
      else if Ascii.eqb c delimiter then Some (parse_save_field r)
      else set_state IN_FIELD <$> parse_add_char c r
  end.

(** [parse_process_char]; [None] stands for [csv.Error]. *)
Definition parse_process_char (x : symbol) (r : Reader) : option Reader :=
  match state r with
  | START_RECORD =>
      match x with
      | EOL => Some r
      | Chr c =>
          if is_newline x then Some (set_state EAT_CRNL r)
          else start_field x (set_state START_FIELD r)
      end
  | START_FIELD => start_field x r
  | IN_FIELD =>
      match x with
      | EOL => Some (set_state START_RECORD (parse_save_field r))
      | Chr c =>
          if is_newline x then Some (set_state EAT_CRNL (parse_save_field r))
          else if Ascii.eqb c delimiter
               then Some (set_state START_FIELD (parse_save_field r))
          else parse_add_char c r
      end
  | IN_QUOTED_FIELD =>
      match x with
      | EOL => Some r
      | Chr c =>
          if Ascii.eqb c quotechar then Some (set_state QUOTE_IN_QUOTED_FIELD r)
          else parse_add_char c r
      end
  | QUOTE_IN_QUOTED_FIELD =>
      match x with
      | EOL => Some (set_state START_RECORD (parse_save_field r))
      | Chr c =>
          if Ascii.eqb c quotechar
          then set_state IN_QUOTED_FIELD <$> parse_add_char c r
          else if Ascii.eqb c delimiter
               then Some (set_state START_FIELD (parse_save_field r))
          else if is_newline x
               then Some (set_state EAT_CRNL (parse_save_field r))
          else set_state IN_FIELD <$> parse_add_char c r
      end
  | EAT_CRNL =>
      match x with
      | EOL => Some (set_state START_RECORD r)
      | Chr c => if is_newline x then Some r else None
      end
  end.

(** One line of input: its characters, then the end of the line. *)
Fixpoint process_line (line : string) (r : Reader) : option Reader :=
  match line with
  | EmptyString => parse_process_char EOL r
  | String c rest =>
      match parse_process_char (Chr c) r with
      | Some r' => process_line rest r'
      | None => None
      end
  end.

(** How an iteration ends: the input is exhausted, or an error is raised. *)
Inductive ending : Type :=
  | Exhausted
  | Failed (e : exn).

(** The result of [next(reader)]. *)
Inductive next_result : Type :=
  | Row (row : list string) (rest : list string)
  | StopIteration
  | NextError.

(** [Reader_iternext] from parser [r]: lines are consumed until the parser
    is back at the start of a record; at the end of the input a pending
    field or an open quoted field closes the record. *)
Fixpoint reader_loop (r : Reader) (lines : list string) : next_result :=
  match lines with
  | [] =>
      if bool_decide (field r ≠ EmptyString)
         || bool_decide (state r = IN_QUOTED_FIELD)
      then Row (fields (parse_save_field r)) []
      else StopIteration
  | line :: rest =>
      match process_line line r with
      | None => NextError
      | Some r' =>
          if bool_decide (state r' = START_RECORD) then Row (fields r') rest
          else reader_loop r' rest
      end
  end.

Definition reader_next (lines : list string) : next_result :=
  reader_loop parse_reset lines.

(** All the rows a reader yields from the remaining lines, and how the
    iteration ends: [reader_next] iterated (see [reader_rows_next]). *)
Fixpoint reader_rows_from (r : Reader) (lines : list string)
    : list (list string) * ending :=
  match lines with
  | [] =>
      if bool_decide (field r ≠ EmptyString)
         || bool_decide (state r = IN_QUOTED_FIELD)
      then ([fields (parse_save_field r)], Exhausted)
      else ([], Exhausted)
  | line :: rest =>
      match process_line line r with
      | None => ([], Failed CsvError)
      | Some r' =>
          if bool_decide (state r' = START_RECORD) then
            let '(rows, e) := reader_rows_from parse_reset rest in
            (fields r' :: rows, e)
          else reader_rows_from r' rest
      end
  end.

Definition reader_rows (lines : list string) : list (list string) * ending :=
  reader_rows_from parse_reset lines.

(* ===================================================================== *)
(** ** csv.DictReader *)

(** A row dictionary maps a field name to the field read for it, or to
    [None] when the row is too short to have it.  Surplus fields of a long
    row go under the key [None], which is no field name and is never
    looked up; that entry is left out. *)
Definition dict_of_pairs (kvs : list (string * string))
    : gmap string (option string) :=
  foldl (λ d kv, <[kv.1 := Some kv.2]> d) ∅ kvs.

(** [DictReader.__next__] after the row is read: [dict(zip(fieldnames,
    row))], then [None] for the names the row has no field for. *)
Definition row_to_dict (names row : list string) : gmap string (option string) :=
  let d := dict_of_pairs (zip names row) in
  let lf := length names in
  let lr := length row in
  if (lr <? lf)%nat then foldl (λ d key, <[key := None]> d) d (drop lr names)
  else d.

Definition nonempty_row (row : list string) : bool :=
  match row with
  | [] => false
  | _ :: _ => true
  end.

(** The dictionaries a [DictReader] yields: the first row gives the field
    names, empty rows after it are skipped. *)
Definition DictReader (lines : list string)
    : list (gmap string (option string)) * ending :=
  match reader_rows lines with
  | ([], e) => ([], e)
  | (names :: rows, e) =>
      (row_to_dict names <$> List.filter nonempty_row rows, e)
  end.

(* ===================================================================== *)
(** ** PlayerManager: load_from_csv *)

(** [row[key]] *)
Definition getitem (row : gmap string (option string)) (key : string)
    : exn + option string :=
  match row !! key with
  | Some v => inr v
  | None => inl (KeyError key)
  end.

(** [int(v)]: [TypeError] for [None], [ValueError] for a string that is
    no integer literal. *)
Definition py_int (v : option string) : exn + Z :=
  match v with
  | Some s =>
      match int_of_str s with
      | Some z => inr z
      | None => inl ValueError
      end
  | None => inl TypeError
  end.

(** The constructor call of the loop body; its arguments are evaluated
    from left to right. *)
Definition record_of_row (row : gmap string (option string))
    : exn + PlayerRecord :=
  match getitem row "Name" with
  | inl e => inl e
  | inr n =>
  match getitem row "Team" with
  | inl e => inl e
  | inr t =>
  match getitem row "Goals" with
  | inl e => inl e
  | inr vg =>
  match py_int vg with
  | inl e => inl e
  | inr g =>
  match getitem row "Assists" with
  | inl e => inl e
  | inr va =>
  match py_int va with
  | inl e => inl e
  | inr a => inr (mkPlayerRecord n t g a)
  end end end end end end.

(** The [for] loop: each row allocates a record and appends it; the first
    exception leaves the loop with the records appended so far. *)
Fixpoint load_loop (rows : list (gmap string (option string))) (e : ending)
    (st : State) : outcome unit * State :=
  match rows with
  | [] =>
      match e with
      | Exhausted => (Return tt, st)
      | Failed x => (Raise x, st)
      end
  | row :: rest =>
      match record_of_row row with
      | inl x => (Raise x, st)
      | inr player =>
          load_loop rest e
            (mkState (heap st ++ [player])
                     (players st ++ [length (heap st)])
                     (stdout st) (files st))
      end
  end.

(** The list is emptied first, then the file is opened. *)
Definition load_from_csv {os : OS} (filename : string) (st : State)
    : outcome unit * State :=
  let st := set_players [] st in
  match open_read filename with
  | inl e => (Raise e, st)
  | inr file =>
      match files st !! file with
      | None => (Raise FileNotFoundError, st)
      | Some text =>
          let '(rows, e) := DictReader (readlines text) in
          load_loop rows e st
      end
  end.

(* ===================================================================== *)
(** ** SingletonMeta and the process *)

(** The interpreter process: the registry [SingletonMeta._instances], the
    [PlayerManager] objects (each is its [players] attribute) and what all
    objects share. *)
Record Process : Type := mkProcess {
  _instances : gmap string nat;   (* class name to the address of its instance *)
  managers : list (list ref);
  records : list PlayerRecord;
  console : list string;
  disk : gmap string string
}.

(** [PlayerManager.__init__] *)
Definition PlayerManager_init : list ref := [].

(** [SingletonMeta.__call__]: a class that is not registered yet is
    instantiated and registered; the registered instance is returned. *)
Definition SingletonMeta_call (cls : string) (P : Process) : nat * Process :=
  match _instances P !! cls with
  | Some m => (m, P)
  | None =>
      let m := length (managers P) in
      (m, mkProcess (<[cls := m]> (_instances P))
                    (managers P ++ [PlayerManager_init])
                    (records P) (console P) (disk P))
  end.

(** The expression [PlayerManager()]. *)
Definition PlayerManager_new : Process → nat * Process :=
  SingletonMeta_call "PlayerManager".

(** The state a method of the manager at address [m] runs in. *)
Definition view (m : nat) (P : Process) : State :=
  mkState (records P) (managers P !!! m) (console P) (disk P).

(** A method call on the manager at address [m]. *)
Definition invoke {A : Type} (m : nat) (method : State → outcome A * State)
    (P : Process) : outcome A * Process :=
  let '(o, st) := method (view m P) in
  (o, mkProcess (_instances P) (<[m := players st]> (managers P))
                (heap st) (stdout st) (files st)).

(** Every registered instance is an allocated object. *)
Definition registry_ok (P : Process) : Prop :=
  ∀ cls m, _instances P !! cls = Some m → (m < length (managers P))%nat.

(** A fresh interpreter. *)
Definition fresh_process : Process := mkProcess ∅ [] [] [] ∅.

(* ===================================================================== *)
(** ** Auxiliary definitions for the statements *)

(** The values of the floats: [m * 2^e] with a significand [m] of at most
    53 bits and an exponent [e] from -1074 to 971. *)
Definition binary64_number (x : Q) : Prop :=
  ∃ m e : Z, Z.abs m < 2 ^ 53 ∧ -1074 <= e <= 971 ∧ (x == inject_Z m * 2 ^ e)%Q.

(** [x] is a float, and no float is nearer to [q]. *)
Definition nearest_float (q x : Q) : Prop :=
  binary64_number x
  ∧ ∀ y, binary64_number y → (Qabs (x - q) <= Qabs (y - q))%Q.

(** The quotients of this size or more have no nearest float: true
    division raises [OverflowError] for them. *)
Definition float_overflow : Z := 2 ^ 1024 - 2 ^ 970.

(** The integer a decimal numeral denotes, read from the left with the
    accumulator [acc]. *)
Fixpoint uint_value (acc : Z) (d : Decimal.uint) : Z :=
  match d with
  | Decimal.Nil => acc
  | Decimal.D0 d => uint_value (10 * acc + 0) d
  | Decimal.D1 d => uint_value (10 * acc + 1) d
  | Decimal.D2 d => uint_value (10 * acc + 2) d
  | Decimal.D3 d => uint_value (10 * acc + 3) d
  | Decimal.D4 d => uint_value (10 * acc + 4) d
  | Decimal.D5 d => uint_value (10 * acc + 5) d
  | Decimal.D6 d => uint_value (10 * acc + 6) d
  | Decimal.D7 d => uint_value (10 * acc + 7) d
  | Decimal.D8 d => uint_value (10 * acc + 8) d
  | Decimal.D9 d => uint_value (10 * acc + 9) d
  end.

(** A text the writer copies as it is: no character of it asks for
    quotes. *)
Definition plain (s : string) : Prop := must_quote s = false.

(** The parser after the text [s] is added to the field being read. *)
Definition add_text (s : string) (r : Reader) : Reader :=
  mkReader (fields r) (field r +:+ s) (state r).

(** A text that fits into a field of the reader. *)
Definition within_limit (s : string) : Prop :=
  Z.of_nat (String.length s) <= field_size_limit.

(** A record is yielded and the rows of the remaining input follow. *)
Definition yield (row : list string) (rest : list (list string) * ending)
    : list (list string) * ending :=
  (row :: rest.1, rest.2).

(** The text a [DictWriter] over the field names [names] writes for a
    sequence of records; [save_to_csv] writes [csv_rows fieldnames]. *)
Definition csv_rows (names : list string) (records : list PlayerRecord) : string :=
  DictWriter_writeheader names
  +:+ concat_text (DictWriter_writerow names ∘ row_dict <$> records).

(** The text written in the column [key] of the row of a record. *)
Definition cell (player : PlayerRecord) (key : string) : string :=
  field_text (default (FStr EmptyString) (row_dict player !! key)).

(** A record whose name and team are [str], as the annotations of the
    constructor ask. *)
Definition typed_record (r : PlayerRecord) : Prop :=
  is_Some (name r) ∧ is_Some (team r).

(** A text that holds no line feed and no carriage return. *)
Fixpoint no_newline (s : string) : bool :=
  match s with
  | EmptyString => true
  | String c r => negb (Ascii.eqb c LF || Ascii.eqb c CR) && no_newline r
  end.

(** A line of a file opened with newline='': a text without line ends,
    followed by nothing (the last line), a line feed, a carriage return,
    or a carriage return and a line feed. *)
Definition line_shape (line : string) : Prop :=
  ∃ body term,
    line = body +:+ term ∧ no_newline body = true
    ∧ (term = EmptyString ∨ term = String LF EmptyString
       ∨ term = String CR EmptyString ∨ term = lineterminator).

(** The number of characters of a sequence of lines. *)
Definition total_length (lines : list string) : nat :=
  foldr (λ line n, (String.length line + n)%nat) 0%nat lines.

(** A record whose four written texts fit into a field of the reader. *)
Definition fits_fields (player : PlayerRecord) : Prop :=
  within_limit (default EmptyString (name player))
  ∧ within_limit (default EmptyString (team player))
  ∧ within_limit (str_int (goals player))
  ∧ within_limit (str_int (assists player)).

(** The record read back from the row written for [player]: a [None] is
    written as the empty text and read as the empty string. *)
Definition as_read (player : PlayerRecord) : PlayerRecord :=
  mkPlayerRecord (Some (cell player "Name")) (Some (cell player "Team"))
                 (goals player) (assists player).

(** Whether the character [c] occurs in [s]. *)
Fixpoint contains (c : ascii) (s : string) : bool :=
  match s with
  | EmptyString => false
  | String x r => Ascii.eqb x c || contains c r
  end.

(** A name without its leading [./] steps. *)
Fixpoint skip_dot_slash (name : string) : string :=
  match name with
  | String "." (String "/" rest) => skip_dot_slash rest
  | _ => name
  end.

(** An operating system for the examples.  The working directory has no
    subdirectories and its files can be read and written: a name without
    a slash denotes the file of that name, also when written after [./];
    the empty name and a name in another directory are answered with
    [FileNotFoundError], the directory itself with [IsADirectoryError], a
    name that holds a NUL with [ValueError]. *)
Definition working_directory_file (name : string) : exn + string :=
  if contains "000" name then inl ValueError
  else
    match name with
    | EmptyString => inl FileNotFoundError
    | String _ _ =>
        let base := skip_dot_slash name in
        if bool_decide (base ∈ [EmptyString; "."; ".."]) then inl IsADirectoryError
        else if contains "/" base then inl FileNotFoundError
        else inr base
    end.

Definition working_directory : OS :=
  mkOS working_directory_file working_directory_file.

(* ===================================================================== *)
(** ** PlayerRecord.display and PlayerManager.filter_by_team *)

(** [str(v)] for an [Optional[str]] inside an f-string. *)
Definition str_text (o : option string) : string :=
  match o with
  | Some s => s
  | None => "None"
  end.

(** The line [display] prints. *)
Definition display_text (r : PlayerRecord) : string :=
  "Name: " +:+ str_text (name r) +:+ ", Team: " +:+ str_text (team r)
  +:+ ", Goals: " +:+ str_int (goals r) +:+ ", Assists: " +:+ str_int (assists r).

Definition display (self : ref) (st : State) : outcome unit * State :=
  (Return tt, print (display_text (deref (heap st) self)) st).

(** [player.team == team] for a [str] argument: [None] equals no string. *)
Definition filter_by_team (team' : string) (st : State)
    : outcome (list ref) * State :=
  (Return (filter (λ a, team (deref (heap st) a) = Some team') (players st)), st).

(* ===================================================================== *)
(** ** class ConsoleApp: the terminal *)

(** What the interpreter supplies and the program only prints: the
    message of the [ValueError] that [int(text)] raises, and the text of
    a float. *)
Record Builtins : Type := mkBuiltins {
  str_ValueError : string → string;
  str_float : Q → string
}.

(** An exception that leaves a method of the console: the end of the
    input, the [ValueError] of [int(text)], or an exception of the
    manager. *)
Inductive console_exn : Type :=
  | EOFError
  | IntError (text : string)
  | Uncaught (e : exn).

Inductive result (A : Type) : Type :=
  | Normal (a : A)
  | Escapes (e : console_exn).

Arguments Normal {A} a.
Arguments Escapes {A} e.

(** The console application: the state its manager's methods run in, the
    lines still to be read from the input, and the prompts written so
    far, each with the number of lines printed before it. *)
Record Console : Type := mkConsole {
  manager : State;
  stdin : list string;
  prompts : list (nat * string)
}.

(** A method of the console. *)
Definition M (A : Type) : Type := Console → result A * Console.

Definition ret {A : Type} (a : A) : M A := λ c, (Normal a, c).

Definition raise {A : Type} (e : console_exn) : M A := λ c, (Escapes e, c).

Definition bind {A B : Type} (m : M A) (k : A → M B) : M B :=
  λ c, match m c with
       | (Normal a, c') => k a c'
       | (Escapes e, c') => (Escapes e, c')
       end.

Notation "x <- m ;; k" := (bind m (λ x, k))
  (at level 100, m at next level, right associativity).

(** Reading the manager's state. *)
Definition get {A : Type} (f : State → A) : M A := λ c, (Normal (f (manager c)), c).

(** A call of a method of the manager; its exception is not caught. *)
Definition on_manager {A : Type} (method : State → outcome A * State) : M A :=
  λ c, let '(o, st) := method (manager c) in
       (match o with
        | Return a => Normal a
        | Raise e => Escapes (Uncaught e)
        end,
        mkConsole st (stdin c) (prompts c)).

(** [print(line)] *)
Definition console_print (line : string) : M unit :=
  λ c, (Normal tt, mkConsole (print line (manager c)) (stdin c) (prompts c)).

(** [input(prompt)]: the prompt is written, then a line is read;
    [EOFError] at the end of the input. *)
Definition input (prompt : string) : M string :=
  λ c, let ps := prompts c ++ [(length (stdout (manager c)), prompt)] in
       match stdin c with
       | [] => (Escapes EOFError, mkConsole (manager c) [] ps)
       | line :: rest => (Normal line, mkConsole (manager c) rest ps)
       end.

(** [int(text)] *)
Definition int (text : string) : M Z :=
  match int_of_str text with
  | Some z => ret z
  | None => raise (IntError text)
  end.

(** [PlayerRecord(name, team, goals, assists)]: a new object. *)
Definition PlayerRecord_new (r : PlayerRecord) : M ref :=
  λ c, (Normal (length (heap (manager c))),
        mkConsole (set_heap (heap (manager c) ++ [r]) (manager c))
                  (stdin c) (prompts c)).

(** [text or other] *)
Definition or_else (text : string) (other : option string) : option string :=
  match text with
  | EmptyString => other
  | String _ _ => Some text
  end.

Definition dashes : string := string_of_list_ascii (replicate 90 "-"%char).

(** [format(text, '<width')]: the text, padded with spaces on the right. *)
Definition ljust (width : nat) (text : string) : string :=
  text +:+ string_of_list_ascii (replicate (width - String.length text) " "%char).

(** The format string of [display_all_players] applied to five texts. *)
Definition format_row (a b c d e : string) : string :=
  ljust 5 a +:+ " " +:+ ljust 20 b +:+ " " +:+ ljust 15 c +:+ " "
  +:+ ljust 10 d +:+ " " +:+ ljust 10 e.

Definition str_num (rt : Builtins) (x : pynum) : string :=
  match x with
  | PyInt z => str_int z
  | PyFloat q => str_float rt q
  end.

(* ===================================================================== *)
(** ** class ConsoleApp: the methods *)

Definition menu : list string :=
  [dashes; String LF "Menu:"; "1. Add Player"; "2. Edit Player";
   "3. Delete Player"; "4. Display All Players";
   "5. Calculate Average Goals and Median Assists"; "6. Filter by Team";
   "7. Filter by Goal Range"; "8. Save Players to CSV";
   "9. Load Players from CSV"; "10. Exit"].

Fixpoint print_lines (lines : list string) : M unit :=
  match lines with
  | [] => ret tt
  | line :: rest => _ <- console_print line ;; print_lines rest
  end.

Definition display_menu : M unit := print_lines menu.

(** [ConsoleApp.add_player]: the only [ValueError] its body can raise is
    that of [int], which the handler reports. *)
Definition ConsoleApp_add_player (rt : Builtins) : M unit :=
  λ c,
    match
      (name <- input "Enter player's name: " ;;
       team <- input "Enter player's team: " ;;
       goals_text <- input "Enter number of goals: " ;;
       goals <- int goals_text ;;
       assists_text <- input "Enter number of assists: " ;;
       assists <- int assists_text ;;
       player <- PlayerRecord_new (new_record name team goals assists) ;;
       on_manager (add_player player)) c
    with
    | (Escapes (IntError text), c') =>
        console_print ("Error: " +:+ str_ValueError rt text
                       +:+ ". Please enter valid input.") c'
    | other => other
    end.

(** [ConsoleApp.edit_player]; nothing changes the record between the
    reads of its attributes, so it is read once. *)
Definition ConsoleApp_edit_player : M unit :=
  index_text <- input "Enter the index of the player to edit: " ;;
  index <- int index_text ;;
  valid <- get (valid_index index) ;;
  if valid : bool then
    player <- get (λ st, players st !!! Z.to_nat index) ;;
    _ <- console_print (String LF "Current Player Details:") ;;
    _ <- on_manager (display player) ;;
    _ <- console_print (String LF
           "Enter the updated details (leave blank to keep the existing value):") ;;
    r <- get (λ st, deref (heap st) player) ;;
    name_text <- input ("Updated name (" +:+ str_text (name r) +:+ "): ") ;;
    team_text <- input ("Updated team (" +:+ str_text (team r) +:+ "): ") ;;
    goals_text <- input ("Updated goals (" +:+ str_int (goals r) +:+ "): ") ;;
    assists_text <- input ("Updated assists (" +:+ str_int (assists r) +:+ "): ") ;;
    updated_goals <- match goals_text with
                     | EmptyString => ret (goals r)
                     | String _ _ => int goals_text
                     end ;;
    updated_assists <- match assists_text with
                       | EmptyString => ret (assists r)
                       | String _ _ => int assists_text
                       end ;;
    updated_player <- PlayerRecord_new
                        (mkPlayerRecord (or_else name_text (name r))
                                        (or_else team_text (team r))
                                        updated_goals updated_assists) ;;
    _ <- on_manager (edit_player index updated_player) ;;
    console_print "Player updated successfully."
  else console_print "Invalid index.".

Definition ConsoleApp_delete_player : M unit :=
  index_text <- input "Enter the index of the player to delete: " ;;
  index <- int index_text ;;
  valid <- get (valid_index index) ;;
  if valid : bool then
    _ <- on_manager (delete_player index) ;;
    console_print "Player deleted successfully."
  else console_print "Invalid index.".

(** The loop of [display_all_players]: formatting [None] with a width
    raises [TypeError]. *)
Fixpoint display_rows (index : nat) (ps : list ref) : M unit :=
  match ps with
  | [] => ret tt
  | player :: rest =>
      r <- get (λ st, deref (heap st) player) ;;
      match name r, team r with
      | Some n, Some t =>
          _ <- console_print (format_row (str_int (Z.of_nat index)) n t
                                         (str_int (goals r)) (str_int (assists r))) ;;
          display_rows (S index) rest
      | _, _ => raise (Uncaught TypeError)
      end
  end.

Definition display_all_players : M unit :=
  ps <- get players ;;
  match ps with
  | [] => console_print "No players to display."
  | _ :: _ =>
      _ <- console_print (String LF "All Players:") ;;
      _ <- console_print (format_row "Index" "Name" "Team" "Goals" "Assists") ;;
      _ <- console_print dashes ;;
      display_rows 0 ps
  end.

Definition calculate_average_goals_and_median_assists (rt : Builtins) : M unit :=
  average_goals <- on_manager calculate_average_goals ;;
  median_assists <- on_manager calculate_median_assists ;;
  _ <- console_print ("Average Goals: " +:+ str_num rt average_goals) ;;
  console_print ("Median Assists: " +:+ str_num rt median_assists).

Fixpoint display_each (ps : list ref) : M unit :=
  match ps with
  | [] => ret tt
  | player :: rest => _ <- on_manager (display player) ;; display_each rest
  end.

Definition ConsoleApp_filter_by_team : M unit :=
  team_text <- input "Enter team to filter by: " ;;
  filtered_players <- on_manager (filter_by_team team_text) ;;
  match filtered_players with
  | [] => console_print ("No players found for team: " +:+ team_text)
  | _ :: _ =>
      _ <- console_print (String LF "Filtered Players:") ;;
      display_each filtered_players
  end.

(** The manager's filter is called with its default, ascending order. *)
Definition ConsoleApp_filter_by_goal_range : M unit :=
  min_text <- input "Enter minimum goals: " ;;
  min_goals <- int min_text ;;
  max_text <- input "Enter maximum goals: " ;;
  max_goals <- int max_text ;;
  filtered_players <- on_manager (filter_by_goal_range min_goals max_goals true) ;;
  match filtered_players with
  | [] => console_print "No players found in the specified goal range."
  | _ :: _ =>
      _ <- console_print (String LF "Filtered Players:") ;;
      display_each filtered_players
  end.

Definition ConsoleApp_save_to_csv {os : OS} : M unit :=
  filename <- input "Enter the filename to save players (e.g., players.csv): " ;;
  _ <- on_manager (save_to_csv filename) ;;
  console_print ("Players saved to " +:+ filename +:+ ".").

Definition ConsoleApp_load_from_csv {os : OS} : M unit :=
  filename <- input "Enter the filename to load players from (e.g., players.csv): " ;;
  _ <- on_manager (load_from_csv filename) ;;
  console_print ("Players loaded from " +:+ filename +:+ ".").

(** The branches of the loop of [run] for the choices other than 10. *)
Definition dispatch {os : OS} (rt : Builtins) (choice : string) : M unit :=
  if decide (choice = "1") then ConsoleApp_add_player rt
  else if decide (choice = "2") then ConsoleApp_edit_player
  else if decide (choice = "3") then ConsoleApp_delete_player
  else if decide (choice = "4") then display_all_players
  else if decide (choice = "5") then calculate_average_goals_and_median_assists rt
  else if decide (choice = "6") then ConsoleApp_filter_by_team
  else if decide (choice = "7") then ConsoleApp_filter_by_goal_range
  else if decide (choice = "8") then ConsoleApp_save_to_csv
  else if decide (choice = "9") then ConsoleApp_load_from_csv
  else console_print "Invalid choice. Please try again.".

(** [ConsoleApp.run]: [fuel] bounds the number of turns of the loop;
    [None] when it is used up. *)
Fixpoint run {os : OS} (rt : Builtins) (fuel : nat) (c : Console)
    : option (result unit * Console) :=
  match fuel with
  | O => None
  | S fuel =>
      match (_ <- display_menu ;; input "Enter your choice: ") c with
      | (Escapes e, c') => Some (Escapes e, c')
      | (Normal choice, c') =>
          if decide (choice = "10") then Some (console_print "Exiting..." c')
          else
            match dispatch rt choice c' with
            | (Escapes e, c'') => Some (Escapes e, c'')
            | (Normal _, c'') => run rt fuel c''
            end
      end
  end.

(* ===================================================================== *)
(** ** Auxiliary definitions for the console *)

(** A method keeps a property of the console, on return and on
    exception. *)
Definition keeps {A : Type} (I : Console → Prop) (m : M A) : Prop :=
  ∀ c, I c → I (m c).2.

(** A store whose positions hold allocated and distinct objects. *)
Definition sound (st : State) : Prop := wf st ∧ NoDup (players st).

(** What an edit prompt gives for a number: the old value for a blank
    line, else the integer read. *)
Definition parse_or_keep (text : string) (old : Z) : option Z :=
  match text with
  | EmptyString => Some old
  | String _ _ => int_of_str text
  end.

(** The lines an operator types to add the given players one by one. *)
Definition add_script (data : list (string * string * Z * Z)) : list string :=
  flat_map (λ d, ["1"; d.1.1.1; d.1.1.2; str_int d.1.2; str_int d.2]) data.

Definition record_of_tuple (d : string * string * Z * Z) : PlayerRecord :=
  new_record d.1.1.1 d.1.1.2 d.1.2 d.2.

(* ===================================================================== *)
(** * Properties *)

(** ** add, edit and delete *)

Lemma valid_index_spec index st :
  valid_index index st = true ↔ 0 <= index < Z.of_nat (length (players st)).
Proof. unfold valid_index. rewrite andb_true_iff, Z.leb_le, Z.ltb_lt. tauto. Qed.

Lemma valid_index_false index st :
  ¬ (0 <= index < Z.of_nat (length (players st))) → valid_index index st = false.
Proof.
  intros H. destruct (valid_index index st) eqn:E; [|done].
  apply valid_index_spec in E. contradiction.
Qed.

(** C9. [add_player] appends the object at the end: the length grows by
    exactly one and the earlier positions keep their objects; deleting at
    the new index (the old length) then restores the sequence, and no
    object has changed. *)
Theorem add_then_delete_restores (st : State) (player : ref) :
  let st1 := (add_player player st).2 in
  let st2 := (delete_player (Z.of_nat (length (players st))) st1).2 in
  (add_player player st).1 = Return tt
  ∧ players st1 = players st ++ [player]
  ∧ length (players st1) = S (length (players st))
  ∧ (∀ i : nat, (i < length (players st))%nat → players st1 !! i = players st !! i)
  ∧ players st1 !! length (players st) = Some player
  ∧ heap st1 = heap st
  ∧ (delete_player (Z.of_nat (length (players st))) st1).1 = Return tt
  ∧ players st2 = players st
  ∧ heap st2 = heap st
  ∧ contents st2 = contents st.
Proof.
  cbn zeta. unfold delete_player.
  assert (Hv : valid_index (Z.of_nat (length (players st))) (add_player player st).2 = true).
  { apply valid_index_spec. cbn. rewrite length_app. cbn. lia. }
  rewrite Hv. cbn. rewrite Nat2Z.id.
  assert (Hd : delete (length (players st)) (players st ++ [player]) = players st).
  { rewrite delete_middle. apply app_nil_r. }
  repeat split.
  - rewrite length_app. cbn. lia.
  - intros i Hi. by rewrite lookup_app_l.
  - by rewrite list_lookup_middle.
  - exact Hd.
  - unfold contents. cbn. by rewrite Hd.
Qed.

Lemma add_then_delete_restores_witness :
  let st := mkState [new_record "Alice" "Reds" 3 1; new_record "Bob" "Blues" 5 2]
                    [0%nat] [] ∅ in
  players (add_player 1%nat st).2 !! 0%nat = Some 0%nat
  ∧ players (add_player 1%nat st).2 !! 1%nat = Some 1%nat
  ∧ players (delete_player 1 (add_player 1%nat st).2).2 = [0%nat].
Proof.
  intros st.
  destruct (add_then_delete_restores st 1%nat)
    as (_ & _ & _ & Hkeep & Hnew & _ & _ & Hback & _).
  split; [|split; [exact Hnew|exact Hback]].
  apply (Hkeep 0%nat). cbn. lia.
Defined.

(** C2, counterexample: [delete_player 5] on a store of two records
    returns normally, it raises nothing. *)
Lemma delete_invalid_index_returns :
  let st := mkState [new_record "Alice" "Reds" 3 1; new_record "Bob" "Blues" 5 2]
                    [0%nat; 1%nat] [] ∅ in
  (delete_player 5 st).1 = Return tt ∧ ¬ raises (delete_player 5 st).1.
Proof. split; [reflexivity|]. intros [e He]. discriminate He. Qed.

(** C2, as the code has it: for an index outside [0, length), both
    [edit_player] and [delete_player] print "Invalid index." and return
    normally; no exception reaches the caller, and the sequence and the
    records are unchanged. *)
Theorem invalid_index_reported_by_print (st : State) (index : Z) (updated_player : ref) :
  ¬ (0 <= index < Z.of_nat (length (players st))) →
  edit_player index updated_player st = (Return tt, print "Invalid index." st)
  ∧ delete_player index st = (Return tt, print "Invalid index." st)
  ∧ players (print "Invalid index." st) = players st
  ∧ heap (print "Invalid index." st) = heap st
  ∧ contents (print "Invalid index." st) = contents st.
Proof.
  intros H. unfold edit_player, delete_player.
  rewrite (valid_index_false _ _ H). done.
Qed.

Lemma invalid_index_reported_by_print_witness :
  let st := mkState [new_record "Alice" "Reds" 3 1; new_record "Bob" "Blues" 5 2]
                    [0%nat; 1%nat] [] ∅ in
  delete_player 5 st = (Return tt, print "Invalid index." st)
  ∧ length (players (delete_player 5 st).2) = 2%nat.
Proof.
  cbn zeta.
  pose proof (invalid_index_reported_by_print
    (mkState [new_record "Alice" "Reds" 3 1; new_record "Bob" "Blues" 5 2]
             [0%nat; 1%nat] [] ∅) 5 0%nat) as H.
  destruct H as (_ & Hd & _); [cbn; lia|].
  split; [exact Hd|]. rewrite Hd. reflexivity.
Defined.

(** The fields of a record after [edit]. *)
Lemma edit_fields (r : PlayerRecord) (n t : option string) (g a : option Z) :
  name (edit r n t g a) = (if truthy n then n else name r)
  ∧ team (edit r n t g a) = (if truthy t then t else team r)
  ∧ goals (edit r n t g a) = default (goals r) g
  ∧ assists (edit r n t g a) = default (assists r) a.
Proof.
  unfold edit. destruct (truthy n), (truthy t), g, a; done.
Qed.

(** C3, counterexample: one object added twice sits at index 0 and at
    index 1; editing index 0 changes the record seen at index 1. *)
Lemma edit_player_changes_alias :
  let st := mkState [new_record "Alice" "Reds" 3 1; new_record "Zed" "Blues" 0 7]
                    [0%nat; 0%nat] [] ∅ in
  valid_index 0 st = true
  ∧ contents st !! 1%nat = Some (new_record "Alice" "Reds" 3 1)
  ∧ contents (edit_player 0 1%nat st).2 !! 1%nat = Some (new_record "Zed" "Blues" 0 7)
  ∧ contents (edit_player 0 1%nat st).2 !! 1%nat ≠ contents st !! 1%nat.
Proof. cbn. repeat split; discriminate. Qed.

(** C3, as the code has it.  For a valid index whose object is [target]
    and a patch object [u]: [edit_player] returns normally; the list
    still holds the same objects in the same order, so the record is
    changed in place; its name and team are overwritten exactly when the
    patch value is a non-empty string, its goals and assists are always
    overwritten (a patch object always provides them, zero included);
    [edit] itself keeps a numeric field when [None] is passed for it;
    every other object is unchanged, hence so is the record at every
    index that does not hold the edited object. *)
Theorem edit_player_in_place (st : State) (index : Z) (u : ref) :
  0 <= index < Z.of_nat (length (players st)) →
  wf st →
  let target := players st !!! Z.to_nat index in
  let patch := deref (heap st) u in
  let old := deref (heap st) target in
  let st' := (edit_player index u st).2 in
  (edit_player index u st).1 = Return tt
  ∧ players st' = players st
  ∧ length (heap st') = length (heap st)
  ∧ name (deref (heap st') target) = (if truthy (name patch) then name patch else name old)
  ∧ team (deref (heap st') target) = (if truthy (team patch) then team patch else team old)
  ∧ goals (deref (heap st') target) = goals patch
  ∧ assists (deref (heap st') target) = assists patch
  ∧ (∀ r n t, goals (edit r n t None None) = goals r
              ∧ assists (edit r n t None None) = assists r
              ∧ goals (edit r n t (Some 0) (Some 0)) = 0
              ∧ assists (edit r n t (Some 0) (Some 0)) = 0)
  ∧ (∀ b : ref, b ≠ target → heap st' !! b = heap st !! b)
  ∧ (∀ j : nat, players st !! j ≠ Some target →
                contents st' !! j = contents st !! j).
Proof.
  intros Hi Hwf target patch old st'.
  apply valid_index_spec in Hi as Hv.
  assert (Hst : edit_player index u st =
    (Return tt, print "Player updated successfully."
       (set_heap (alter (λ r, edit r (name patch) (team patch)
                                 (Some (goals patch)) (Some (assists patch)))
                        target (heap st)) st))).
  { unfold edit_player. by rewrite Hv. }
  subst st'. rewrite Hst. cbn [fst snd print set_heap heap players].
  assert (Ht : (target < length (heap st))%nat).
  { unfold wf in Hwf. rewrite Forall_lookup in Hwf.
    apply (Hwf (Z.to_nat index)). subst target.
    apply list_lookup_lookup_total_lt. lia. }
  assert (Hnew : deref (alter (λ r, edit r (name patch) (team patch)
                                 (Some (goals patch)) (Some (assists patch)))
                        target (heap st)) target
                 = edit old (name patch) (team patch)
                        (Some (goals patch)) (Some (assists patch))).
  { unfold deref. apply list_lookup_total_correct.
    rewrite list_lookup_alter_eq.
    rewrite (list_lookup_lookup_total_lt (heap st) target Ht). done. }
  rewrite Hnew.
  pose proof (edit_fields old (name patch) (team patch)
                (Some (goals patch)) (Some (assists patch))) as (Hn & Htm & Hg & Ha).
  split; [done|]. split; [done|]. split; [apply length_alter|].
  split; [exact Hn|]. split; [exact Htm|]. split; [exact Hg|]. split; [exact Ha|].
  split.
  { intros r n t. pose proof (edit_fields r n t None None) as (_ & _ & ? & ?).
    pose proof (edit_fields r n t (Some 0) (Some 0)) as (_ & _ & ? & ?). done. }
  split.
  { intros b Hb. by apply list_lookup_alter_ne. }
  intros j Hj. unfold contents. cbn [heap players print set_heap].
  rewrite !list_lookup_fmap.
  destruct (players st !! j) as [b|] eqn:Eb; [|done]. cbn.
  f_equal. unfold deref. rewrite !list_lookup_total_alt.
  rewrite list_lookup_alter_ne; [done|]. congruence.
Qed.

Lemma edit_player_in_place_witness :
  let st := mkState [new_record "Alice" "Reds" 3 1; new_record "Bob" "Blues" 5 2;
                     new_record EmptyString "Greens" 0 4]
                    [0%nat; 1%nat] [] ∅ in
  players (edit_player 0 2%nat st).2 = [0%nat; 1%nat]
  ∧ name (deref (heap (edit_player 0 2%nat st).2) 0%nat) = Some "Alice"
  ∧ team (deref (heap (edit_player 0 2%nat st).2) 0%nat) = Some "Greens"
  ∧ goals (deref (heap (edit_player 0 2%nat st).2) 0%nat) = 0
  ∧ heap (edit_player 0 2%nat st).2 !! 1%nat = Some (new_record "Bob" "Blues" 5 2).
Proof.
  intros st.
  destruct (edit_player_in_place st 0 2%nat)
    as (_ & Hp & _ & Hn & Ht & Hg & _ & _ & Hother & _).
  - cbn. lia.
  - unfold wf. cbn. repeat constructor.
  - split; [exact Hp|]. split; [exact Hn|]. split; [exact Ht|].
    split; [exact Hg|]. apply (Hother 1%nat). discriminate.
Defined.

(* ===================================================================== *)
(** ** Sorting *)

Section StableSort.
Context {A : Type} (key : A → Z).

Lemma insert_by_Permutation x l : insert_by key x l ≡ₚ x :: l.
Proof.
  induction l as [|y l IH]; cbn; [done|].
  destruct (key x <=? key y); [done|].
  rewrite IH. apply Permutation_swap.
Qed.

Lemma stable_sort_Permutation l : stable_sort key l ≡ₚ l.
Proof.
  induction l as [|x l IH]; cbn; [done|].
  by rewrite insert_by_Permutation, IH.
Qed.

Lemma insert_by_sorted x l :
  StronglySorted (λ y z, key y <= key z) l →
  StronglySorted (λ y z, key y <= key z) (insert_by key x l).
Proof.
  induction 1 as [|y l Hs IH Hall]; cbn.
  - repeat constructor.
  - destruct (key x <=? key y) eqn:E.
    + apply Z.leb_le in E. constructor; [by constructor|].
      constructor; [exact E|].
      eapply Forall_impl; [exact Hall|]. cbn. intros; lia.
    + apply Z.leb_gt in E. constructor; [exact IH|].
      rewrite insert_by_Permutation. constructor; [|exact Hall].
      lia.
Qed.

Lemma stable_sort_sorted l : StronglySorted (λ y z, key y <= key z) (stable_sort key l).
Proof.
  induction l as [|x l IH]; cbn; [constructor|]. by apply insert_by_sorted.
Qed.

(** Insertion never moves an element past one with the same key. *)
Lemma insert_by_stable g x l :
  filter (λ y, key y = g) (insert_by key x l) = filter (λ y, key y = g) (x :: l).
Proof.
  induction l as [|y l IH]; cbn [insert_by]; [done|].
  destruct (key x <=? key y) eqn:E; [done|]. apply Z.leb_gt in E.
  rewrite (filter_cons _ y), IH, !(filter_cons _ x), (filter_cons _ y).
  repeat case_decide; try done; lia.
Qed.

Lemma stable_sort_stable g l :
  filter (λ y, key y = g) (stable_sort key l) = filter (λ y, key y = g) l.
Proof.
  induction l as [|x l IH]; cbn [stable_sort]; [done|].
  by rewrite insert_by_stable, !filter_cons, IH.
Qed.

Lemma StronglySorted_reverse (R : A → A → Prop) l :
  StronglySorted R l → StronglySorted (flip R) (reverse l).
Proof.
  induction 1 as [|x l Hs IH Hall]; [constructor|].
  rewrite reverse_cons. apply StronglySorted_app.
  split; [|split; [exact IH|repeat constructor]].
  intros y z Hy Hz. apply list_elem_of_singleton in Hz as ->.
  rewrite elem_of_reverse in Hy. rewrite Forall_forall in Hall.
  unfold flip. by apply Hall.
Qed.

Lemma list_sort_Permutation reversed l : list_sort key reversed l ≡ₚ l.
Proof.
  unfold list_sort. destruct reversed.
  - by rewrite reverse_Permutation, stable_sort_Permutation, reverse_Permutation.
  - apply stable_sort_Permutation.
Qed.

Lemma list_sort_sorted (reversed : bool) l :
  StronglySorted (λ x y, if reversed then key y <= key x else key x <= key y)
                 (list_sort key reversed l).
Proof.
  unfold list_sort. destruct reversed.
  - apply (StronglySorted_reverse (λ y z, key y <= key z)), stable_sort_sorted.
  - apply stable_sort_sorted.
Qed.

Lemma list_sort_stable reversed g l :
  filter (λ y, key y = g) (list_sort key reversed l) = filter (λ y, key y = g) l.
Proof.
  unfold list_sort. destruct reversed.
  - by rewrite filter_reverse, stable_sort_stable, filter_reverse, reverse_involutive.
  - apply stable_sort_stable.
Qed.
End StableSort.

(** A list of integers has one sorted arrangement. *)
Lemma sorted_unique (s t : list Z) :
  s ≡ₚ t → StronglySorted Z.le s → StronglySorted Z.le t → s = t.
Proof.
  revert t. induction s as [|x s IH]; intros t Hp Hs Ht.
  - by apply Permutation_nil in Hp.
  - destruct t as [|y t]; [by apply Permutation_sym, Permutation_nil in Hp|].
    apply StronglySorted_inv in Hs as [Hs Hx].
    apply StronglySorted_inv in Ht as [Ht Hy].
    rewrite Forall_forall in Hx, Hy.
    assert (x = y) as ->.
    { assert (Hxin : x ∈ y :: t) by (rewrite <- Hp; left).
      assert (Hyin : y ∈ x :: s) by (rewrite Hp; left).
      apply elem_of_cons in Hxin as [->|Hxin]; [done|].
      apply elem_of_cons in Hyin as [->|Hyin]; [done|].
      specialize (Hx _ Hyin). specialize (Hy _ Hxin). lia. }
    f_equal. apply IH; [|done|done]. by apply Permutation_cons_inv in Hp.
Qed.

(** ** filter_by_goal_range *)

(** C6. [filter_by_goal_range] returns normally and leaves the state as it
    was; the result holds exactly the objects of the store whose goals lie
    in [min_goals, max_goals], as often as the store holds them; it is
    sorted by goals, ascending or descending as the flag says; objects
    with equal goals keep the order they have in the filtered subset; an
    inverted range gives the empty list. *)
Theorem filter_by_goal_range_spec (st : State) (min_goals max_goals : Z)
    (ascending : bool) :
  let key := λ a : ref, goals (deref (heap st) a) in
  let subset := filter (in_goal_range (heap st) min_goals max_goals) (players st) in
  ∃ result : list ref,
    filter_by_goal_range min_goals max_goals ascending st = (Return result, st)
    ∧ result ≡ₚ subset
    ∧ (∀ a : ref, a ∈ result ↔ a ∈ players st ∧ min_goals <= key a <= max_goals)
    ∧ StronglySorted (λ a b, if ascending then key a <= key b else key b <= key a)
                     result
    ∧ (∀ g : Z, filter (λ a, key a = g) result = filter (λ a, key a = g) subset)
    ∧ (max_goals < min_goals → result = []).
Proof.
  intros key subset. eexists. split; [reflexivity|].
  fold key. fold subset.
  split; [apply list_sort_Permutation|].
  split.
  { intros a. rewrite list_sort_Permutation. subst subset.
    rewrite list_elem_of_filter. unfold in_goal_range. tauto. }
  split.
  { pose proof (list_sort_sorted key (negb ascending) subset) as H.
    by destruct ascending. }
  split; [intros g; apply list_sort_stable|].
  intros Hinv.
  assert (subset = []) as ->.
  { subst subset. induction (players st) as [|a l IH]; [done|].
    rewrite filter_cons. case_decide as Hr; [|exact IH].
    unfold in_goal_range in Hr. lia. }
  by destruct ascending.
Qed.

Lemma filter_by_goal_range_spec_witness :
  let st := mkState [new_record "Alice" "Reds" 3 1; new_record "Bob" "Blues" 5 2;
                     new_record "Cy" "Reds" 3 0; new_record "Di" "Blues" 9 9]
                    [0%nat; 1%nat; 2%nat; 3%nat] [] ∅ in
  (filter_by_goal_range 3 5 false st).1 = Return [1%nat; 0%nat; 2%nat]
  ∧ (filter_by_goal_range 5 3 true st).1 = Return [].
Proof.
  cbn zeta.
  pose proof (filter_by_goal_range_spec
    (mkState [new_record "Alice" "Reds" 3 1; new_record "Bob" "Blues" 5 2;
              new_record "Cy" "Reds" 3 0; new_record "Di" "Blues" 9 9]
             [0%nat; 1%nat; 2%nat; 3%nat] [] ∅) 5 3 true) as (res & Hr & _ & _ & _ & _ & He).
  split; [reflexivity|]. rewrite Hr. cbn. f_equal. apply He. lia.
Defined.

(* ===================================================================== *)
(** ** True division of integers *)

Lemma round_half_even_cases (n d : Z) :
  0 < d →
  ∃ q r, n = d * q + r ∧ 0 <= r < d
         ∧ round_half_even n d
           = match 2 * r ?= d with
             | Lt => q
             | Gt => q + 1
             | Eq => if Z.even q then q else q + 1
             end.
Proof.
  intros Hd. exists (n / d), (n mod d). split; [apply Z.div_mod; lia|].
  split; [by apply Z.mod_pos_bound|done].
Qed.

Lemma round_half_even_nearest (n d : Z) :
  0 < d → 2 * Z.abs (round_half_even n d * d - n) <= d.
Proof.
  intros Hd. destruct (round_half_even_cases n d Hd) as (q & r & Hn & Hr & ->).
  destruct (Z.compare_spec (2 * r) d); [destruct (Z.even q)| |]; nia.
Qed.

Lemma round_half_even_le (n d k : Z) :
  0 < d → n <= k * d → round_half_even n d <= k.
Proof.
  intros Hd Hk. destruct (round_half_even_cases n d Hd) as (q & r & Hn & Hr & ->).
  assert (q <= k) by nia.
  destruct (Z.eq_dec q k) as [Heq|Hne].
  - assert (r = 0) by nia.
    destruct (Z.compare_spec (2 * r) d); [|lia|lia]. lia.
  - destruct (Z.compare_spec (2 * r) d); [destruct (Z.even q)| |]; lia.
Qed.

Lemma round_half_even_ge (n d k : Z) :
  0 < d → k * d <= n → k <= round_half_even n d.
Proof.
  intros Hd Hk. destruct (round_half_even_cases n d Hd) as (q & r & Hn & Hr & ->).
  assert (k <= q) by nia.
  destruct (Z.compare_spec (2 * r) d); [destruct (Z.even q)| |]; lia.
Qed.

(** No integer is nearer to [n / d] than the rounded one. *)
Lemma round_half_even_best (n d k : Z) :
  0 < d → Z.abs (round_half_even n d * d - n) <= Z.abs (k * d - n).
Proof.
  intros Hd. pose proof (round_half_even_nearest n d Hd) as Hn.
  set (m := round_half_even n d) in *.
  destruct (Z.eq_dec k m) as [->|Hne]; [lia|].
  assert (d <= Z.abs (k * d - m * d)) by nia.
  lia.
Qed.

Lemma log2_ratio_spec (n d : Z) :
  0 < d <= n →
  0 <= log2_ratio n d ∧ d * 2 ^ log2_ratio n d <= n < d * 2 ^ (log2_ratio n d + 1).
Proof.
  intros [Hd Hn]. unfold log2_ratio.
  pose proof (Z.log2_spec n ltac:(lia)) as [Hn1 Hn2].
  pose proof (Z.log2_spec d ltac:(lia)) as [Hd1 Hd2].
  pose proof (Z.log2_nonneg d) as Hq.
  pose proof (Z.log2_le_mono d n ltac:(lia)) as Hpq.
  set (p := Z.log2 n) in *. set (q := Z.log2 d) in *.
  assert (Hp : 2 ^ p = 2 ^ q * 2 ^ (p - q)).
  { rewrite <- Z.pow_add_r by lia. f_equal. lia. }
  assert (Hpos : 0 < 2 ^ (p - q)) by (apply Z.pow_pos_nonneg; lia).
  assert (Hposq : 0 < 2 ^ q) by (apply Z.pow_pos_nonneg; lia).
  destruct (Z.ltb_spec n (d * 2 ^ (p - q))) as [Hlt|Hge].
  - assert (Hl : p - q ≠ 0).
    { intros H0. rewrite H0 in Hlt. cbn in Hlt. lia. }
    replace (p - q - 1 + 1) with (p - q) by lia.
    split; [lia|]. split; [|done].
    assert (H2 : 2 ^ (p - q) = 2 * 2 ^ (p - q - 1)).
    { rewrite <- Z.pow_succ_r by lia. f_equal. lia. }
    replace (Z.succ q) with (q + 1) in Hd2 by lia.
    rewrite Z.pow_add_r in Hd2 by lia. cbn in Hd2. nia.
  - split; [lia|]. split; [done|].
    replace (Z.succ p) with ((q + 1) + (p - q)) in Hn2 by lia.
    rewrite Z.pow_add_r in Hn2 by lia.
    rewrite (Z.pow_add_r 2 (p - q) 1) by lia.
    rewrite (Z.pow_add_r 2 q 1) in Hn2 by lia. cbn in *. nia.
Qed.

Lemma log2_ratio_small (n d : Z) : 0 <= n < d → log2_ratio n d <= 0.
Proof.
  intros [Hn Hd]. unfold log2_ratio.
  pose proof (Z.log2_le_mono n d ltac:(lia)).
  destruct (_ <? _); lia.
Qed.

Lemma pow2_pos (k : Z) : 0 <= k → 0 < 2 ^ k.
Proof. intros. apply Z.pow_pos_nonneg; lia. Qed.

Lemma pow2_le (j k : Z) : 0 <= j <= k → 2 ^ j <= 2 ^ k.
Proof. intros. apply Z.pow_le_mono_r; lia. Qed.

Lemma pow2_split (j k : Z) : 0 <= j <= k → 2 ^ k = 2 ^ j * 2 ^ (k - j).
Proof. intros. rewrite <- Z.pow_add_r by lia. f_equal. lia. Qed.

(** The exponent chosen for [n / d]: the quotient is below [2^(s+53)],
    and not below [2^(s+52)] unless the exponent is the least one. *)
Lemma exponent_spec (n d : Z) :
  0 <= n → 0 < d →
  let s := Z.max 0 (log2_ratio n d - 52) in
  0 <= s ∧ n < d * 2 ^ (s + 53) ∧ (0 < s → d * 2 ^ (s + 52) <= n).
Proof.
  intros Hn Hd s. split; [lia|].
  destruct (Z.lt_ge_cases n d) as [Hlt|Hge].
  - pose proof (log2_ratio_small n d ltac:(lia)) as Hl.
    assert (Hs : s = 0) by lia. rewrite Hs. split; [|lia].
    pose proof (pow2_pos 53 ltac:(lia)). nia.
  - destruct (log2_ratio_spec n d ltac:(lia)) as (HL & Hlo & Hhi).
    set (L := log2_ratio n d) in *.
    destruct (Z.le_gt_cases L 52) as [Hsmall|Hbig].
    + assert (Hs : s = 0) by lia. rewrite Hs. split; [|lia].
      pose proof (pow2_le (L + 1) 53 ltac:(lia)). cbn [Z.add] in *. nia.
    + assert (Hs : s = L - 52) by lia. rewrite Hs.
      replace (L - 52 + 53) with (L + 1) by lia.
      replace (L - 52 + 52) with L by lia. done.
Qed.

Lemma significand_spec (n d : Z) :
  0 <= n → 0 < d →
  let s := Z.max 0 (log2_ratio n d - 52) in
  let m := round_half_even n (d * 2 ^ s) in
  0 <= m <= 2 ^ 53 ∧ (0 < s → 2 ^ 52 <= m).
Proof.
  intros Hn Hd s m. destruct (exponent_spec n d Hn Hd) as (Hs & Hhi & Hlo).
  fold s in Hs, Hhi, Hlo.
  pose proof (pow2_pos s Hs) as Hps.
  assert (HD : 0 < d * 2 ^ s) by nia.
  rewrite Z.pow_add_r in Hhi by lia.
  split; [split|].
  - apply round_half_even_ge; [done|lia].
  - apply round_half_even_le; [done|]. nia.
  - intros Hpos. specialize (Hlo Hpos). rewrite Z.pow_add_r in Hlo by lia.
    apply round_half_even_ge; [done|]. nia.
Qed.

(** No multiple [m' * 2^s'] of the unit with a significand below [2^53]
    is nearer to [n / d] than the rounded one. *)
Lemma nearest_scaled (n d m' s' : Z) :
  0 <= n → 0 < d → Z.abs m' < 2 ^ 53 → 0 <= s' →
  let s := Z.max 0 (log2_ratio n d - 52) in
  let m := round_half_even n (d * 2 ^ s) in
  Z.abs (m * 2 ^ s * d - n) <= Z.abs (m' * 2 ^ s' * d - n).
Proof.
  intros Hn Hd Hm' Hs' s m.
  destruct (exponent_spec n d Hn Hd) as (Hs & Hhi & Hlo). fold s in Hs, Hhi, Hlo.
  pose proof (pow2_pos s Hs) as Hps.
  assert (HD : 0 < d * 2 ^ s) by nia.
  destruct (Z.le_gt_cases s s') as [Hle|Hgt].
  - pose proof (round_half_even_best n (d * 2 ^ s) (m' * 2 ^ (s' - s)) HD) as Hb.
    fold m in Hb. rewrite (pow2_split s s') by lia.
    replace (m * 2 ^ s * d) with (m * (d * 2 ^ s)) by ring.
    replace (m' * (2 ^ s * 2 ^ (s' - s)) * d) with (m' * 2 ^ (s' - s) * (d * 2 ^ s)) by ring.
    exact Hb.
  - specialize (Hlo ltac:(lia)).
    pose proof (round_half_even_best n (d * 2 ^ s) (2 ^ 52) HD) as Hb. fold m in Hb.
    replace (m * 2 ^ s * d) with (m * (d * 2 ^ s)) by ring.
    assert (H52 : 2 ^ (s + 52) = 2 ^ 52 * 2 ^ s).
    { rewrite Z.pow_add_r by lia. ring. }
    assert (Hs1 : 2 ^ s = 2 ^ s' * 2 ^ (s - s')) by (apply pow2_split; lia).
    assert (H2 : 2 <= 2 ^ (s - s')).
    { change 2 with (2 ^ 1) at 1. apply pow2_le. lia. }
    pose proof (pow2_pos s' Hs') as Hps'.
    assert (Hy : m' * 2 ^ s' * d < 2 ^ 52 * 2 ^ s * d).
    { assert (m' * 2 ^ s' < 2 ^ 52 * 2 ^ s); [|nia].
      assert (m' < 2 ^ 53) by lia.
      assert (2 ^ 53 = 2 * 2 ^ 52) by reflexivity.
      nia. }
    nia.
Qed.

(** The result overflows only when the quotient reaches [2^1024 - 2^970]. *)
Lemma overflow_scaled (n d : Z) :
  0 <= n → 0 < d →
  let s := Z.max 0 (log2_ratio n d - 52) in
  let m := round_half_even n (d * 2 ^ s) in
  2 ^ 2098 <= m * 2 ^ s ↔ (2 ^ 2098 - 2 ^ 2044) * d <= n.
Proof.
  intros Hn Hd. cbv zeta.
  destruct (exponent_spec n d Hn Hd) as (Hs & Hhi & Hlo).
  destruct (significand_spec n d Hn Hd) as ([Hm0 Hm1] & Hm2).
  remember (Z.max 0 (log2_ratio n d - 52)) as s eqn:Es. clear Es.
  pose proof (pow2_pos s Hs) as Hps.
  assert (HD : 0 < d * 2 ^ s) by nia.
  pose proof (round_half_even_nearest n (d * 2 ^ s) HD) as Hnear.
  destruct (round_half_even_cases n (d * 2 ^ s) HD) as (q & r & Hq & Hr & Hm).
  remember (round_half_even n (d * 2 ^ s)) as m eqn:Em. clear Em.
  assert (H98 : 2 ^ 2098 = 2 ^ 54 * 2 ^ 2044) by reflexivity.
  assert (H46 : 2 ^ 2046 = 4 * 2 ^ 2044) by reflexivity.
  assert (H45 : 2 ^ 2045 = 2 * 2 ^ 2044) by reflexivity.
  assert (HP : 0 < 2 ^ 2044) by (by apply pow2_pos).
  assert (Hs53 : 2 ^ (s + 53) = 2 ^ 53 * 2 ^ s) by (rewrite Z.pow_add_r by lia; ring).
  assert (Hs52 : 2 ^ (s + 52) = 2 ^ 52 * 2 ^ s) by (rewrite Z.pow_add_r by lia; ring).
  rewrite Hs53 in Hhi. rewrite Hs52 in Hlo. clear Hs53 Hs52.
  assert (Hmono : s <= 2045 → 2 ^ s <= 2 ^ 2045) by (intros; apply pow2_le; lia).
  assert (Hmono' : s <= 2044 → 2 ^ s <= 2 ^ 2044) by (intros; apply pow2_le; lia).
  assert (Hmono2 : 2046 <= s → 2 ^ 2046 <= 2 ^ s) by (intros; apply pow2_le; lia).
  assert (Hat : s = 2045 → 2 ^ s = 2 ^ 2045) by (by intros ->).
  rewrite H98. rewrite H45 in Hmono, Hat. rewrite H46 in Hmono2.
  clear H98 H45 H46.
  remember (2 ^ 2044) as P eqn:EP. clear EP.
  remember (2 ^ s) as S eqn:ES. clear ES.
  change (2 ^ 54) with 18014398509481984.
  change (2 ^ 53) with 9007199254740992 in *.
  change (2 ^ 52) with 4503599627370496 in *.
  split.
  - intros Hov.
    destruct (Z.le_gt_cases s 2045) as [Hsm|Hbig].
    + specialize (Hmono Hsm). nia.
    + specialize (Hlo ltac:(lia)). specialize (Hmono2 ltac:(lia)). nia.
  - intros Hbig.
    destruct (Z.le_gt_cases 2046 s) as [Hs46|Hs45].
    + specialize (Hm2 ltac:(lia)). specialize (Hmono2 Hs46). nia.
    + specialize (Hmono ltac:(lia)).
      destruct (Z.le_gt_cases s 2044) as [Hs44|Hs45'].
      { specialize (Hmono' Hs44). exfalso. nia. }
      specialize (Hat ltac:(lia)). subst S.
      assert (Hq53 : 9007199254740991 <= q) by nia.
      assert (Hm53 : 9007199254740992 <= m); [|nia].
      rewrite Hm. destruct (Z.eq_dec q 9007199254740991) as [->|Hne].
      * assert (d * (2 * P) <= 2 * r) by nia.
        destruct (Z.compare_spec (2 * r) (d * (2 * P))); [|lia|lia].
        cbn. lia.
      * destruct (Z.compare_spec (2 * r) (d * (2 * P))); [destruct (Z.even q)| |]; lia.
Qed.

(** A binary64 number in units of [2^-1074]. *)
Lemma dyadic_scaled (m s : Z) :
  0 <= s → (inject_Z m * 2 ^ (s - 1074) == m * 2 ^ s # 2 ^ 1074)%Q.
Proof.
  intros Hs. rewrite Qpower_minus by discriminate.
  rewrite (Qmake_Qdiv (m * 2 ^ s) (2 ^ 1074)).
  rewrite (inject_Z_mult m (2 ^ s)), Pos2Z.inj_pow.
  rewrite (Zpower_Qpower 2 s) by lia.
  rewrite (Zpower_Qpower 2 1074) by lia.
  change (inject_Z 2) with 2%Q.
  unfold Qdiv. ring.
Qed.

Lemma scaled_distance (X Y a : Z) (U b : positive) :
  Z.abs (X * Z.pos b - a * Z.pos U) <= Z.abs (Y * Z.pos b - a * Z.pos U) →
  (Qabs ((X # U) - (a # b)) <= Qabs ((Y # U) - (a # b)))%Q.
Proof.
  intros H. unfold Qminus, Qplus, Qopp, Qabs, Qle. cbn [Qnum Qden].
  apply Z.mul_le_mono_nonneg_r; [lia|].
  replace (X * Z.pos b + - a * Z.pos U) with (X * Z.pos b - a * Z.pos U) by ring.
  replace (Y * Z.pos b + - a * Z.pos U) with (Y * Z.pos b - a * Z.pos U) by ring.
  exact H.
Qed.

Lemma int_truediv_cases (a : Z) (b : positive) :
  let n := Z.abs a * 2 ^ 1074 in
  let s := Z.max 0 (log2_ratio n (Z.pos b) - 52) in
  let m := round_half_even n (Z.pos b * 2 ^ s) in
  (2 ^ 2098 <= m * 2 ^ s ∧ int_truediv a b = Raise OverflowError)
  ∨ (m * 2 ^ s < 2 ^ 2098
     ∧ int_truediv a b = Return (Qred (Z.sgn a * (m * 2 ^ s) # 2 ^ 1074))).
Proof.
  intros n s m. unfold int_truediv. fold n. fold s. fold m.
  destruct (Z.leb_spec (2 ^ 2098) (m * 2 ^ s)); [by left|by right].
Qed.

Lemma scaled_nonneg (a : Z) : 0 <= Z.abs a * 2 ^ 1074.
Proof. pose proof (pow2_pos 1074 ltac:(lia)). nia. Qed.

(** The division raises nothing but [OverflowError], and raises it
    exactly when the quotient is [2^1024 - 2^970] or more in size. *)
Lemma int_truediv_overflow (a : Z) (b : positive) :
  (∀ e, int_truediv a b = Raise e → e = OverflowError)
  ∧ (int_truediv a b = Raise OverflowError
     ↔ (inject_Z (2 ^ 1024 - 2 ^ 970) <= Qabs (a # b))%Q).
Proof.
  pose proof (overflow_scaled (Z.abs a * 2 ^ 1074) (Z.pos b)
                (scaled_nonneg a) ltac:(lia)) as Hov. cbv zeta in Hov.
  assert (Hq : (inject_Z (2 ^ 1024 - 2 ^ 970) <= Qabs (a # b))%Q
               ↔ (2 ^ 2098 - 2 ^ 2044) * Z.pos b <= Z.abs a * 2 ^ 1074).
  { unfold Qabs, Qle, inject_Z. cbn [Qnum Qden].
    change (2 ^ 2098 - 2 ^ 2044) with ((2 ^ 1024 - 2 ^ 970) * 2 ^ 1074).
    pose proof (pow2_pos 1074 ltac:(lia)) as HU.
    generalize dependent (2 ^ 1074). generalize (2 ^ 1024 - 2 ^ 970).
    intros K U _ HU. split; intros; nia. }
  destruct (int_truediv_cases a b) as [[H1 ->]|[H1 ->]].
  - split; [by intros e [= <-]|]. split; [intros _|done]. by apply Hq, Hov.
  - split; [done|]. split; [done|]. intros H. apply Hq, Hov in H. lia.
Qed.

(** The float returned is a binary64 number, and no binary64 number is
    nearer to the quotient. *)
Lemma int_truediv_nearest (a : Z) (b : positive) (x : Q) :
  int_truediv a b = Return x → nearest_float (a # b) x.
Proof.
  pose proof (scaled_nonneg a) as Hn.
  assert (Hd : 0 < Z.pos b) by lia.
  destruct (exponent_spec _ _ Hn Hd) as (Hs & Hhi & Hlo).
  destruct (significand_spec _ _ Hn Hd) as ([Hm0 Hm1] & Hm2).
  pose proof (λ m' s', nearest_scaled _ _ m' s' Hn Hd) as Hnear. cbv zeta in Hnear.
  destruct (int_truediv_cases a b) as [[_ ->]|[Hfin ->]]; [done|].
  remember (Z.max 0 (log2_ratio (Z.abs a * 2 ^ 1074) (Z.pos b) - 52)) as s eqn:Es.
  clear Es.
  remember (round_half_even (Z.abs a * 2 ^ 1074) (Z.pos b * 2 ^ s)) as m eqn:Em.
  intros [= <-]. split.
  - (* representable *)
    assert (Hm0' : a = 0 → m = 0).
    { intros ->. rewrite Em. change (Z.abs 0 * 2 ^ 1074) with 0.
      pose proof (pow2_pos s Hs).
      destruct (round_half_even_cases 0 (Z.pos b * 2 ^ s) ltac:(nia))
        as (q & r & Hq & Hr & ->).
      assert (q = 0) by nia. assert (r = 0) by nia. subst q r.
      destruct (Z.compare_spec (2 * 0) (Z.pos b * 2 ^ s)); [done|done|nia]. }
    clear Em Hnear.
    assert (Hs46 : 0 < s → s < 2046).
    { intros Hpos. specialize (Hm2 Hpos).
      apply (Z.pow_lt_mono_r_iff 2); [lia|lia|].
      apply (Z.mul_lt_mono_pos_l (2 ^ 52)); [done|].
      change (2 ^ 52 * 2 ^ 2046) with (2 ^ 2098). pose proof (pow2_pos s Hs).
      eapply Z.le_lt_trans; [|exact Hfin]. nia. }
    destruct (Z.eq_dec m (2 ^ 53)) as [Hm53|Hne].
    + exists (Z.sgn a * 2 ^ 52), (s + 1 - 1074).
      assert (Hs45 : s < 2045).
      { apply (Z.pow_lt_mono_r_iff 2); [lia|lia|].
        apply (Z.mul_lt_mono_pos_l (2 ^ 53)); [done|].
        change (2 ^ 53 * 2 ^ 2045) with (2 ^ 2098). by rewrite <- Hm53. }
      split; [|split; [lia|]].
      { change (2 ^ 53) with 9007199254740992. change (2 ^ 52) with 4503599627370496.
        lia. }
      rewrite Qred_correct, dyadic_scaled by lia.
      rewrite Hm53, (Z.pow_add_r 2 s 1) by lia.
      unfold Qeq. cbn [Qnum Qden]. f_equal.
      change (2 ^ 53) with (2 ^ 52 * 2 ^ 1). ring.
    + exists (Z.sgn a * m), (s - 1074).
      split; [|split; [lia|]].
      { assert (m < 2 ^ 53) by lia. lia. }
      rewrite Qred_correct, dyadic_scaled by lia.
      unfold Qeq. cbn [Qnum Qden]. f_equal. ring.
  - (* nearest *)
    intros y (m' & e' & Hm' & He' & ->).
    replace e' with ((e' + 1074) - 1074) by lia.
    rewrite Qred_correct, dyadic_scaled by lia.
    apply scaled_distance. rewrite Pos2Z.inj_pow.
    change (Z.pos 2 ^ Z.pos 1074) with (2 ^ 1074).
    destruct (Z.sgn_spec a) as [[Ha ->]|[[Ha ->]|[Ha ->]]].
    + specialize (Hnear m' (e' + 1074) Hm' ltac:(lia)).
      assert (Habs : Z.abs a = a) by lia.
      subst m. rewrite !Habs in Hnear |- *.
      rewrite Z.mul_1_l. exact Hnear.
    + subst a. specialize (Hnear m' (e' + 1074) Hm' ltac:(lia)).
      subst m. change (Z.abs 0 * 2 ^ 1074) with 0 in *.
      destruct (round_half_even_cases 0 (Z.pos b * 2 ^ s)
                  ltac:(pose proof (pow2_pos s Hs); nia)) as (q & r & Hq & Hr & Hrne).
      pose proof (pow2_pos s Hs).
      assert (q = 0) by nia. assert (r = 0) by nia. subst q r.
      assert (Hz : round_half_even 0 (Z.pos b * 2 ^ s) = 0).
      { rewrite Hrne.
        destruct (Z.compare_spec (2 * 0) (Z.pos b * 2 ^ s)); [done|done|nia]. }
      rewrite Hz in *. rewrite !Z.mul_0_l. rewrite !Z.mul_0_l in Hnear. exact Hnear.
    + specialize (Hnear (- m') (e' + 1074) ltac:(lia) ltac:(lia)).
      assert (Habs : Z.abs a = - a) by lia.
      subst m. rewrite !Habs in Hnear |- *.
      clear - Hnear.
      generalize dependent (round_half_even (- a * 2 ^ 1074) (Z.pos b * 2 ^ s)).
      generalize (2 ^ s) (2 ^ (e' + 1074)) (2 ^ 1074). intros S S' U R Hnear.
      replace (- (1) * (R * S) * Z.pos b - a * U)
        with (- (R * S * Z.pos b - - a * U)) by ring.
      replace (m' * S' * Z.pos b - a * U)
        with (- (- m' * S' * Z.pos b - - a * U)) by ring.
      rewrite !Z.abs_opp. exact Hnear.
Qed.

(** An integer of at most 53 bits, and [2^53] itself, is a float. *)
Lemma binary64_int (k : Z) : Z.abs k <= 2 ^ 53 → binary64_number (inject_Z k).
Proof.
  intros Hk. change (2 ^ 53) with 9007199254740992 in Hk.
  destruct (Z.eq_dec (Z.abs k) 9007199254740992) as [Heq|Hne].
  - exists (Z.sgn k * 2 ^ 52), 1. change (2 ^ 53) with 9007199254740992.
    change (2 ^ 52) with 4503599627370496.
    split; [lia|]. split; [lia|].
    change (2 ^ 1)%Q with (inject_Z 2). rewrite <- inject_Z_mult.
    apply inject_Z_injective. lia.
  - exists k, 0. change (2 ^ 53) with 9007199254740992.
    split; [lia|]. split; [lia|]. change (2 ^ 0)%Q with 1%Q. ring.
Qed.

(** Half an integer of at most 53 bits is a float. *)
Lemma binary64_half (k : Z) : Z.abs k < 2 ^ 53 → binary64_number (k # 2).
Proof.
  intros Hk. exists k, (-1). split; [done|]. split; [lia|].
  change (2 ^ (-1))%Q with (1 # 2). unfold Qeq. cbn. lia.
Qed.

(** A quotient that is a float is its own nearest float. *)
Lemma nearest_float_exact (q x : Q) :
  nearest_float q x → binary64_number q → (x == q)%Q.
Proof.
  intros [_ Hnear] Hq. specialize (Hnear q Hq).
  assert (Hz : (q - q == 0)%Q) by ring. rewrite Hz in Hnear.
  change (Qabs 0) with 0%Q in Hnear.
  apply Qabs_Qle_condition in Hnear as [Hl Hu].
  destruct x as [xn xd], q as [qn qd].
  unfold Qle, Qeq, Qminus, Qplus, Qopp in *. cbn [Qnum Qden] in *. nia.
Qed.

(** Rounding to the nearest float does not cross a float. *)
Lemma nearer_not_below (q x lo : Q) :
  (Qabs (x - q) <= Qabs (lo - q))%Q → (lo <= q)%Q → (lo <= x)%Q.
Proof.
  intros Hnear Hq. apply Qnot_lt_le. intros Hx.
  assert (H1 : (x - q <= 0)%Q).
  { apply (Qplus_le_l _ _ q). ring_simplify. apply Qlt_le_weak.
    by eapply Qlt_le_trans. }
  assert (H2 : (lo - q <= 0)%Q).
  { apply (Qplus_le_l _ _ q). by ring_simplify. }
  rewrite (Qabs_neg _ H1), (Qabs_neg _ H2) in Hnear.
  apply Qopp_le_compat in Hnear.
  assert (Hle : (lo <= x)%Q).
  { apply (Qplus_le_l _ _ (- q)).
    assert (E1 : (- - (x - q) == x + - q)%Q) by ring.
    assert (E2 : (- - (lo - q) == lo + - q)%Q) by ring.
    by rewrite <- E1, <- E2. }
  by apply Qle_not_lt in Hle.
Qed.

Lemma nearest_float_ge (q x lo : Q) :
  nearest_float q x → binary64_number lo → (lo <= q)%Q → (lo <= x)%Q.
Proof. intros [_ Hnear] Hlo. by apply nearer_not_below, Hnear. Qed.

Lemma nearest_float_le (q x hi : Q) :
  nearest_float q x → binary64_number hi → (q <= hi)%Q → (x <= hi)%Q.
Proof.
  intros [_ Hnear] Hhi Hq. specialize (Hnear hi Hhi).
  apply Qopp_le_compat in Hq.
  assert (H : (- hi <= - x)%Q).
  { apply (nearer_not_below (- q)); [|done].
    assert (E1 : (- x - - q == - (x - q))%Q) by ring.
    assert (E2 : (- hi - - q == - (hi - q))%Q) by ring.
    by rewrite E1, E2, !Qabs_opp. }
  apply Qopp_le_compat in H. by rewrite !Qopp_involutive in H.
Qed.

(* ===================================================================== *)
(** ** Statistics *)

(** Every float is below the size at which division overflows. *)
Lemma binary64_below_overflow (q : Q) :
  binary64_number q → (Qabs q < inject_Z float_overflow)%Q.
Proof.
  intros (m & e & Hm & He & ->).
  replace e with ((e + 1074) - 1074) by lia. rewrite dyadic_scaled by lia.
  unfold Qabs, Qlt, inject_Z, float_overflow. cbn [Qnum Qden].
  rewrite Pos2Z.inj_pow. change (Z.pos 2 ^ Z.pos 1074) with (2 ^ 1074).
  change ((2 ^ 1024 - 2 ^ 970) * 2 ^ 1074) with (2 ^ 54 * 2 ^ 2044 - 2 ^ 2044).
  assert (Hs : 2 ^ (e + 1074) <= 2 ^ 2045) by (apply pow2_le; lia).
  change (2 ^ 2045) with (2 * 2 ^ 2044) in Hs.
  pose proof (pow2_pos (e + 1074) ltac:(lia)) as Hp.
  pose proof (pow2_pos 2044 ltac:(lia)) as HP.
  rewrite Z.abs_mul, (Z.abs_eq (2 ^ (e + 1074))) by lia.
  change (2 ^ 54) with 18014398509481984. change (2 ^ 53) with 9007199254740992 in Hm.
  generalize dependent (2 ^ (e + 1074)). generalize dependent (2 ^ 2044).
  intros P HP S HS HS'. nia.
Qed.

Lemma nearest_float_proper (q q' x : Q) :
  (q == q')%Q → nearest_float q x → nearest_float q' x.
Proof.
  intros Hq [Hx Hnear]. split; [done|]. intros y Hy.
  rewrite <- Hq. by apply Hnear.
Qed.

(** What the conversion of [a / b] to a float gives, for any way [q] of
    writing the quotient. *)
Lemma as_float_truediv (a : Z) (b : positive) (q : Q) :
  (q == a # b)%Q →
  match as_float (int_truediv a b) with
  | Return (PyFloat x) => nearest_float q x
  | Return (PyInt _) => False
  | Raise e => e = OverflowError ∧ (inject_Z float_overflow <= Qabs q)%Q
  end
  ∧ ((Qabs q < inject_Z float_overflow)%Q →
     ∃ x, as_float (int_truediv a b) = Return (PyFloat x))
  ∧ ((inject_Z float_overflow <= Qabs q)%Q →
     as_float (int_truediv a b) = Raise OverflowError).
Proof.
  intros Hq. destruct (int_truediv_overflow a b) as [Honly Hiff].
  pose proof (int_truediv_nearest a b) as Hnear.
  destruct (int_truediv a b) as [x|e]; cbn [as_float].
  - split; [|split; [by eexists|]].
    + apply (nearest_float_proper (a # b)); [done|by apply Hnear].
    + intros Hbig. rewrite Hq in Hbig. by apply Hiff in Hbig.
  - rewrite (Honly e eq_refl) in *. rewrite Hq.
    split; [by split; [|apply Hiff]|]. split; [|done].
    intros Hlt. apply Qlt_not_le in Hlt. exfalso. by apply Hlt, Hiff.
Qed.

Lemma mean_spec (x : Z) (data : list Z) :
  let avg := (inject_Z (sum_Z (x :: data))
              / inject_Z (Z.of_nat (length (x :: data))))%Q in
  match mean (x :: data) with
  | Return (PyInt z) => (inject_Z z == avg)%Q
  | Return (PyFloat y) => nearest_float avg y
  | Raise e => e = OverflowError ∧ (inject_Z float_overflow <= Qabs avg)%Q
  end
  ∧ ((Qabs avg < inject_Z float_overflow)%Q → ∃ r, mean (x :: data) = Return r)
  ∧ (∀ z, (avg == inject_Z z)%Q → mean (x :: data) = Return (PyInt z))
  ∧ ((∀ z, ¬ (avg == inject_Z z)%Q) → (inject_Z float_overflow <= Qabs avg)%Q →
     mean (x :: data) = Raise OverflowError).
Proof.
  intros avg. subst avg. unfold mean.
  set (total := sum_Z (x :: data)). set (n := Z.of_nat (length (x :: data))).
  assert (Hn : 0 < n) by (subst n; cbn [length]; lia).
  assert (Hq : ¬ (inject_Z n == 0)%Q).
  { unfold Qeq. cbn. lia. }
  assert (Hint : ∀ z, (inject_Z total / inject_Z n == inject_Z z)%Q → total = n * z).
  { intros z Hz. apply inject_Z_injective. rewrite inject_Z_mult, <- Hz.
    field. exact Hq. }
  destruct (total mod n =? 0) eqn:E.
  - apply Z.eqb_eq in E.
    assert (Ht : total = n * (total / n)).
    { pose proof (Z.div_mod total n). lia. }
    assert (Hmean : (inject_Z (total / n) == inject_Z total / inject_Z n)%Q).
    { rewrite Ht at 2. rewrite inject_Z_mult. field. exact Hq. }
    split; [exact Hmean|]. split; [by eexists|]. split.
    + intros z Hz. apply Hint in Hz. do 2 f_equal. nia.
    + intros Hno. exfalso. apply (Hno (total / n)). by symmetry.
  - destruct (as_float_truediv total (Z.to_pos n) (inject_Z total / inject_Z n))
      as (Hcase & Hret & Hbig).
    { rewrite Qmake_Qdiv. by rewrite Z2Pos.id. }
    split; [|split; [|split]].
    + destruct (as_float (int_truediv total (Z.to_pos n))) as [[z|y]|e]; done.
    + intros Hlt. destruct (Hret Hlt) as [y ->]. by eexists.
    + intros z Hz. apply Hint in Hz. apply Z.eqb_neq in E. exfalso. apply E.
      rewrite Hz, Z.mul_comm. apply Z.mod_mul. lia.
    + intros _. exact Hbig.
Qed.

(** C7, counterexample: two records with [2^54 + 1] and [2^54 + 2] goals.
    The mean is [2^54 + 3/2]; the code returns the float [2^54]. *)
Lemma average_goals_is_rounded :
  let st := mkState [new_record "Alice" "Reds" (2 ^ 54 + 1) 1;
                     new_record "Bob" "Blues" (2 ^ 54 + 2) 2]
                    [0%nat; 1%nat] [] ∅ in
  (calculate_average_goals st).1 = Return (PyFloat (inject_Z (2 ^ 54)))
  ∧ ¬ (inject_Z (2 ^ 54)
       == inject_Z (sum_Z (goals <$> contents st))
          / inject_Z (Z.of_nat (length (contents st))))%Q.
Proof. cbn zeta. split; [vm_compute; reflexivity|]. vm_compute. discriminate. Qed.

(** C7, as the code has it.  [calculate_average_goals] leaves the state as
    it was.  For the empty store it returns the float 0.0.  For a store
    with records, let the mean be the sum of the goals divided by their
    number: when the mean is an integer it is returned, as an [int];
    otherwise a float nearest to the mean is returned, which is the mean
    when the mean is itself a float, unless the mean is
    [2^1024 - 2^970] or more in size: then, and only then,
    [OverflowError] is raised.  On the store of Alice (3 goals) and Bob
    (5 goals) the [int] 4 is returned. *)
Theorem calculate_average_goals_spec (st : State) :
  let avg := (inject_Z (sum_Z (goals <$> contents st))
              / inject_Z (Z.of_nat (length (contents st))))%Q in
  (calculate_average_goals st).2 = st
  ∧ (contents st = [] → (calculate_average_goals st).1 = Return (PyFloat 0))
  ∧ (contents st ≠ [] →
     match (calculate_average_goals st).1 with
     | Return (PyInt z) => (inject_Z z == avg)%Q
     | Return (PyFloat y) => nearest_float avg y
     | Raise e => e = OverflowError ∧ (inject_Z float_overflow <= Qabs avg)%Q
     end
     ∧ ((Qabs avg < inject_Z float_overflow)%Q →
        ∃ r, (calculate_average_goals st).1 = Return r)
     ∧ (binary64_number avg →
        ∃ r, (calculate_average_goals st).1 = Return r ∧ (num_value r == avg)%Q)
     ∧ (∀ z, (avg == inject_Z z)%Q →
        (calculate_average_goals st).1 = Return (PyInt z))
     ∧ ((∀ z, ¬ (avg == inject_Z z)%Q) → (inject_Z float_overflow <= Qabs avg)%Q →
        (calculate_average_goals st).1 = Raise OverflowError))
  ∧ (let ex := mkState [new_record "Alice" "Reds" 3 1; new_record "Bob" "Blues" 5 2]
                       [0%nat; 1%nat] [] ∅ in
     (calculate_average_goals ex).1 = Return (PyInt 4)).
Proof.
  cbn zeta. split; [|split; [|split]].
  - unfold calculate_average_goals. by destruct (players st).
  - unfold calculate_average_goals, contents.
    destruct (players st) as [|a l]; [done|]. by cbn.
  - unfold calculate_average_goals, contents.
    destruct (players st) as [|a l]; [done|]. intros _. cbn [fst fmap list_fmap].
    destruct (mean_spec (goals (deref (heap st) a))
                (goals <$> (deref (heap st) <$> l))) as (Hcase & Hret & Hint & Hbig).
    cbn zeta in Hcase, Hret, Hint, Hbig.
    rewrite !length_cons, !length_fmap in *.
    split; [exact Hcase|]. split; [exact Hret|].
    split; [|split; [exact Hint|exact Hbig]].
    intros Hb.
    destruct (mean _) as [[z|y]|e].
    + by eexists.
    + eexists. split; [done|]. cbn [num_value]. by apply nearest_float_exact.
    + exfalso. destruct Hcase as [_ Hover].
      apply binary64_below_overflow in Hb. by apply Qlt_not_le in Hb.
  - vm_compute. reflexivity.
Qed.

Lemma median_spec (s data : list Z) :
  data ≠ [] → s ≡ₚ data → StronglySorted Z.le s →
  if Nat.even (length s) then
    match median data with
    | Return (PyFloat x) => nearest_float (median_of_sorted s) x
    | Return (PyInt _) => False
    | Raise e =>
        e = OverflowError
        ∧ (inject_Z float_overflow <= Qabs (median_of_sorted s))%Q
    end
    ∧ ((Qabs (median_of_sorted s) < inject_Z float_overflow)%Q →
       ∃ x, median data = Return (PyFloat x))
    ∧ ((inject_Z float_overflow <= Qabs (median_of_sorted s))%Q →
       median data = Raise OverflowError)
  else
    median data = Return (PyInt (s !!! (length s / 2)%nat))
    ∧ median_of_sorted s = inject_Z (s !!! (length s / 2)%nat).
Proof.
  intros Hne Hp Hs.
  assert (Hlen : length s ≠ 0%nat).
  { intros H0. apply length_zero_iff_nil in H0. rewrite H0 in Hp.
    by apply Permutation_nil in Hp. }
  assert (Hsort : sorted data = s).
  { symmetry. apply sorted_unique; [|done|].
    - unfold sorted. by rewrite list_sort_Permutation.
    - unfold sorted. apply (list_sort_sorted id false). }
  unfold median. rewrite Hsort. unfold median_of_sorted.
  destruct (Nat.eqb_spec (length s) 0); [done|].
  destruct (Nat.even (length s)) eqn:Ev.
  - apply Nat.even_spec in Ev as [k Hk].
    destruct (Nat.eqb_spec (length s mod 2) 1) as [Hm|Hm].
    { rewrite Hk in Hm. rewrite Nat.mul_comm, Nat.Div0.mod_mul in Hm. done. }
    set (a := s !!! (length s / 2 - 1)%nat). set (b := s !!! (length s / 2)%nat).
    destruct (as_float_truediv (a + b) 2 ((inject_Z a + inject_Z b) / 2))
      as (Hcase & Hret & Hbig).
    { rewrite (Qmake_Qdiv (a + b) 2), inject_Z_plus. reflexivity. }
    split; [|split; [exact Hret|exact Hbig]].
    destruct (as_float (int_truediv (a + b) 2)) as [[z|y]|e]; done.
  - destruct (Nat.eqb_spec (length s mod 2) 1) as [Hm|Hm]; [done|].
    exfalso. apply Hm.
    assert (Ho : Nat.odd (length s) = true) by (by rewrite <- Nat.negb_even, Ev).
    apply Nat.odd_spec in Ho as [k Hk]. rewrite Hk.
    rewrite Nat.add_comm, Nat.mul_comm, Nat.Div0.mod_add. done.
Qed.

(** C8, counterexample: two records with [2^53 + 1] assists each.  The
    median is [2^53 + 1]; the code returns the float [2^53]. *)
Lemma median_assists_is_rounded :
  let st := mkState [new_record "Alice" "Reds" 3 (2 ^ 53 + 1);
                     new_record "Bob" "Blues" 5 (2 ^ 53 + 1)]
                    [0%nat; 1%nat] [] ∅ in
  (calculate_median_assists st).1 = Return (PyFloat (inject_Z (2 ^ 53)))
  ∧ ¬ (inject_Z (2 ^ 53) == median_of_sorted (assists <$> contents st))%Q.
Proof. cbn zeta. split; [vm_compute; reflexivity|]. vm_compute. discriminate. Qed.

(** C8, as the code has it.  Let [s] be the assists of the stored records
    arranged in ascending order.  [calculate_median_assists] leaves the
    state as it was.  For the empty store it returns the float 0.0.  For
    an odd number of records it returns the middle element of [s], an
    [int].  For an even number it divides the sum of the two central
    elements by 2: the value returned is a float nearest to their
    average, and is the average when that is a float, unless the average
    is [2^1024 - 2^970] or more in size: then, and only then,
    [OverflowError] is raised. *)
Theorem calculate_median_assists_spec (st : State) (s : list Z) :
  s ≡ₚ assists <$> contents st →
  StronglySorted Z.le s →
  (calculate_median_assists st).2 = st
  ∧ match contents st with
    | [] => (calculate_median_assists st).1 = Return (PyFloat 0)
    | _ :: _ =>
        if Nat.even (length s) then
          match (calculate_median_assists st).1 with
          | Return (PyFloat x) => nearest_float (median_of_sorted s) x
          | Return (PyInt _) => False
          | Raise e =>
              e = OverflowError
              ∧ (inject_Z float_overflow <= Qabs (median_of_sorted s))%Q
          end
          ∧ ((Qabs (median_of_sorted s) < inject_Z float_overflow)%Q →
             ∃ r, (calculate_median_assists st).1 = Return r)
          ∧ (binary64_number (median_of_sorted s) →
             ∃ r, (calculate_median_assists st).1 = Return r
                  ∧ (num_value r == median_of_sorted s)%Q)
          ∧ ((inject_Z float_overflow <= Qabs (median_of_sorted s))%Q →
             (calculate_median_assists st).1 = Raise OverflowError)
        else
          (calculate_median_assists st).1 = Return (PyInt (s !!! (length s / 2)%nat))
          ∧ median_of_sorted s = inject_Z (s !!! (length s / 2)%nat)
    end.
Proof.
  intros Hp Hs. split.
  { unfold calculate_median_assists. by destruct (players st). }
  unfold calculate_median_assists.
  destruct (players st) as [|a l] eqn:E.
  { unfold contents. by rewrite E. }
  pose proof (median_spec s (assists <$> contents st)) as Hm.
  assert (Hc : contents st = deref (heap st) a :: (deref (heap st) <$> l)).
  { unfold contents. by rewrite E. }
  rewrite Hc in Hm |- *. specialize (Hm ltac:(done)).
  rewrite Hc in Hp. specialize (Hm Hp Hs). cbn [fst].
  destruct (Nat.even (length s)); [|exact Hm].
  destruct Hm as (Hcase & Hret & Hbig). split; [exact Hcase|].
  split. { intros Hlt. destruct (Hret Hlt) as [x ->]. by eexists. }
  split; [|exact Hbig].
  intros Hb. destruct (Hret (binary64_below_overflow _ Hb)) as [x Hx].
  rewrite Hx in Hcase |- *. eexists. split; [done|]. cbn [num_value].
  by apply nearest_float_exact.
Qed.

(** On the store of Alice (1 assist) and Bob (2 assists) the median is
    1.5. *)
Lemma calculate_median_assists_spec_witness :
  let ex := mkState [new_record "Alice" "Reds" 3 1; new_record "Bob" "Blues" 5 2]
                    [0%nat; 1%nat] [] ∅ in
  ∃ r, (calculate_median_assists ex).1 = Return r ∧ (num_value r == 3 # 2)%Q.
Proof.
  cbn zeta.
  destruct (calculate_median_assists_spec
    (mkState [new_record "Alice" "Reds" 3 1; new_record "Bob" "Blues" 5 2]
             [0%nat; 1%nat] [] ∅) [1; 2]) as (_ & H).
  - reflexivity.
  - repeat constructor; lia.
  - cbn [contents fmap list_fmap players length Nat.even] in H.
    destruct H as (_ & _ & H & _).
    destruct H as (r & Hr & Hv).
    + apply (binary64_half 3). reflexivity.
    + exists r. split; [exact Hr|]. rewrite Hv. reflexivity.
Defined.

(* ===================================================================== *)
(** ** The singleton *)

(** Once the class is registered, [PlayerManager()] is the identity on the
    process and returns the registered instance. *)
Lemma PlayerManager_new_registered (P : Process) (m : nat) :
  _instances P !! "PlayerManager" = Some m → PlayerManager_new P = (m, P).
Proof. intros H. unfold PlayerManager_new, SingletonMeta_call. by rewrite H. Qed.

Lemma PlayerManager_new_registers (P : Process) :
  registry_ok P →
  _instances (PlayerManager_new P).2 !! "PlayerManager" = Some (PlayerManager_new P).1
  ∧ ((PlayerManager_new P).1 < length (managers (PlayerManager_new P).2))%nat.
Proof.
  intros Hok. unfold PlayerManager_new, SingletonMeta_call.
  destruct (_instances P !! "PlayerManager") as [m|] eqn:E; cbn.
  - split; [done|]. by apply (Hok "PlayerManager").
  - rewrite lookup_insert_eq, length_app. cbn. split; [done|lia].
Qed.

Lemma invoke_add_player (P : Process) (m : nat) (p : ref) :
  (m < length (managers P))%nat →
  let P' := (invoke m (add_player p) P).2 in
  _instances P' = _instances P
  ∧ length (managers P') = length (managers P)
  ∧ managers P' !!! m = managers P !!! m ++ [p].
Proof.
  intros Hm. cbn. rewrite length_insert. split; [done|]. split; [done|].
  apply list_lookup_total_correct. by rewrite list_lookup_insert_eq.
Qed.

Lemma invoke_adds (adds : list ref) (P : Process) (m : nat) :
  (m < length (managers P))%nat →
  let P' := foldl (λ Q p, (invoke m (add_player p) Q).2) P adds in
  _instances P' = _instances P
  ∧ length (managers P') = length (managers P)
  ∧ managers P' !!! m = managers P !!! m ++ adds.
Proof.
  revert P. induction adds as [|p adds IH]; intros P Hm.
  - cbn. by rewrite app_nil_r.
  - cbn [foldl].
    destruct (invoke_add_player P m p Hm) as (Hi & Hl & Hp).
    destruct (IH (invoke m (add_player p) P).2) as (Hi' & Hl' & Hp').
    { by rewrite Hl. }
    cbn zeta. rewrite Hi', Hl', Hp', Hi, Hl, Hp.
    by rewrite <- app_assoc.
Qed.

(** C10. Let [m] be the instance [PlayerManager()] returns and [P1] the
    process after it.  Constructing again returns the same [m] and leaves
    the process as it is, so [__init__] does not run again; after any
    records are added through [m], a further construction still returns
    [m], changes nothing, and the list of [m] holds what it held followed
    by every added record.  Only the construction that registers the
    class runs [__init__], which starts the list empty. *)
Theorem PlayerManager_is_singleton (P : Process) (adds : list ref) :
  registry_ok P →
  let m := (PlayerManager_new P).1 in
  let P1 := (PlayerManager_new P).2 in
  let P2 := foldl (λ Q p, (invoke m (add_player p) Q).2) P1 adds in
  PlayerManager_new P1 = (m, P1)
  ∧ PlayerManager_new P2 = (m, P2)
  ∧ managers P2 !!! m = managers P1 !!! m ++ adds
  ∧ managers (PlayerManager_new P2).2 !!! (PlayerManager_new P2).1
    = managers P1 !!! m ++ adds
  ∧ match _instances P !! "PlayerManager" with
    | None => managers P1 !!! m = []
    | Some m0 => m = m0 ∧ P1 = P
    end.
Proof.
  intros Hok m P1 P2.
  destruct (PlayerManager_new_registers P Hok) as [Hreg Hlt].
  fold m in Hreg, Hlt. fold P1 in Hreg, Hlt.
  destruct (invoke_adds adds P1 m Hlt) as (Hi & Hl & Hp). fold P2 in Hi, Hl, Hp.
  assert (H2 : PlayerManager_new P2 = (m, P2)).
  { apply PlayerManager_new_registered. by rewrite Hi. }
  split; [by apply PlayerManager_new_registered|].
  split; [exact H2|]. split; [exact Hp|]. split; [by rewrite H2|].
  subst m P1. unfold PlayerManager_new, SingletonMeta_call.
  destruct (_instances P !! "PlayerManager") as [m0|] eqn:E; cbn; [done|].
  apply list_lookup_total_correct. by rewrite list_lookup_middle.
Qed.

Lemma PlayerManager_is_singleton_witness :
  let m := (PlayerManager_new fresh_process).1 in
  let P1 := (PlayerManager_new fresh_process).2 in
  let P2 := foldl (λ Q p, (invoke m (add_player p) Q).2) P1 [7%nat; 8%nat] in
  PlayerManager_new P2 = (m, P2)
  ∧ managers (PlayerManager_new P2).2 !!! (PlayerManager_new P2).1 = [7%nat; 8%nat].
Proof.
  destruct (PlayerManager_is_singleton fresh_process [7%nat; 8%nat])
    as (_ & H2 & _ & H4 & _).
  - intros cls m Hm. unfold fresh_process in Hm. cbn in Hm.
    rewrite lookup_empty in Hm. discriminate Hm.
  - intros m P1 P2. split; [exact H2|].
    etransitivity; [exact H4|]. reflexivity.
Defined.

(* ===================================================================== *)
(** ** str(int) and int(str) *)

Lemma int_digits_string_of_uint (d : Decimal.uint) (acc : Z) (after : bool) :
  d ≠ Decimal.Nil ∨ after = true →
  int_digits acc after (NilEmpty.string_of_uint d) = Some (uint_value acc d).
Proof.
  revert acc after.
  induction d; intros acc after H; cbn [NilEmpty.string_of_uint uint_value];
    try (change (int_digits acc after (String ?c ?r))
           with (int_digits (10 * acc + (Z.of_N (N_of_ascii c) - 48)) true r);
         cbn [N_of_ascii N_of_digits Z.of_N]; apply IHd; by right).
  cbn. destruct H as [H| ->]; done.
Qed.

Lemma uint_value_of_uint_acc (d : Decimal.uint) (acc : positive) :
  uint_value (Z.pos acc) d = Z.pos (Pos.of_uint_acc d acc).
Proof.
  revert acc. induction d; intros acc; cbn [uint_value Pos.of_uint_acc];
    [done|..]; rewrite <- IHd; f_equal; lia.
Qed.

Lemma uint_value_of_uint (d : Decimal.uint) :
  uint_value 0 d = Z.of_N (Pos.of_uint d).
Proof.
  induction d; cbn [uint_value Pos.of_uint]; [done|exact IHd|..];
    cbn [Z.of_N]; rewrite <- uint_value_of_uint_acc; f_equal.
Qed.

Lemma uint_value_to_uint (p : positive) : uint_value 0 (Pos.to_uint p) = Z.pos p.
Proof. by rewrite uint_value_of_uint, DecimalPos.Unsigned.of_to. Qed.

Lemma to_uint_not_Nil (p : positive) : Pos.to_uint p ≠ Decimal.Nil.
Proof.
  intros H. pose proof (DecimalPos.Unsigned.of_to p) as Hp.
  rewrite H in Hp. discriminate Hp.
Qed.

Lemma string_of_uint_to_uint (p : positive) :
  NilZero.string_of_uint (Pos.to_uint p) = NilEmpty.string_of_uint (Pos.to_uint p).
Proof.
  pose proof (to_uint_not_Nil p). by destruct (Pos.to_uint p).
Qed.

Lemma lstrip_string_of_uint (d : Decimal.uint) :
  lstrip (NilEmpty.string_of_uint d) = NilEmpty.string_of_uint d.
Proof. by destruct d. Qed.

Lemma string_of_uint_head (d : Decimal.uint) :
  d ≠ Decimal.Nil →
  ∃ c r, NilEmpty.string_of_uint d = String c r
         ∧ Ascii.eqb c "-" = false ∧ Ascii.eqb c "+" = false.
Proof. intros H. destruct d; [done|..]; by eexists _, _. Qed.

(** Parsing the decimal text of an integer gives the integer back. *)
Lemma int_of_str_str_int (z : Z) : int_of_str (str_int z) = Some z.
Proof.
  unfold str_int. destruct z as [|p|p]; [reflexivity|..];
    cbn [Z.to_int NilZero.string_of_int]; rewrite string_of_uint_to_uint.
  - unfold int_of_str. rewrite lstrip_string_of_uint.
    destruct (string_of_uint_head _ (to_uint_not_Nil p)) as (c & r & E & Hm & Hp).
    rewrite E, Hm, Hp, <- E.
    rewrite int_digits_string_of_uint by (left; apply to_uint_not_Nil).
    by rewrite uint_value_to_uint.
  - unfold int_of_str. cbn [lstrip py_isspace].
    change (py_isspace "-") with false. cbn [Ascii.eqb Bool.eqb].
    rewrite int_digits_string_of_uint by (left; apply to_uint_not_Nil).
    by rewrite uint_value_to_uint.
Qed.



Lemma str_int_nonempty (z : Z) : str_int z ≠ EmptyString.
Proof.
  unfold str_int. destruct z as [|p|p]; [done| |done].
  cbn [Z.to_int NilZero.string_of_int]. rewrite string_of_uint_to_uint.
  destruct (string_of_uint_head _ (to_uint_not_Nil p)) as (c & r & E & _).
  by rewrite E.
Qed.

(* ===================================================================== *)
(** ** Lines of a text *)

Lemma append_cons (x : ascii) (a b : string) :
  String x a +:+ b = String x (a +:+ b).
Proof. reflexivity. Qed.

Lemma append_nil_l (b : string) : EmptyString +:+ b = b.
Proof. reflexivity. Qed.

Lemma append_assoc (a b c : string) : (a +:+ b) +:+ c = a +:+ (b +:+ c).
Proof.
  induction a as [|x a IH]; [done|]. by rewrite !append_cons, IH.
Qed.

Lemma append_nil_r (a : string) : a +:+ EmptyString = a.
Proof.
  induction a as [|x a IH]; [done|]. by rewrite append_cons, IH.
Qed.

Lemma append_cons_nonempty (a b : string) (c : ascii) :
  a +:+ String c b ≠ EmptyString.
Proof. by destruct a. Qed.

Lemma readlines_nonempty (s : string) : s ≠ EmptyString → readlines s ≠ [].
Proof.
  destruct s as [|c s]; [done|]. intros _. cbn [readlines].
  destruct (Ascii.eqb c LF); [done|].
  destruct (Ascii.eqb c CR).
  - destruct s as [|c' s]; [done|]. by destruct (Ascii.eqb c' LF).
  - by destruct (readlines s).
Qed.

(* ===================================================================== *)
(** ** The reader on written text *)

(** [next(reader)] iterated gives [reader_rows]. *)
Lemma reader_rows_loop (lines : list string) (r : Reader) :
  reader_rows_from r lines =
  match reader_loop r lines with
  | Row row rest => yield row (reader_rows rest)
  | StopIteration => ([], Exhausted)
  | NextError => ([], Failed CsvError)
  end.
Proof.
  revert r. induction lines as [|line rest IH]; intros r; cbn.
  - by destruct (_ || _).
  - destruct (process_line line r) as [r'|]; [|done].
    destruct (bool_decide (state r' = START_RECORD)); [|apply IH].
    unfold yield, reader_rows. by destruct (reader_rows_from parse_reset rest).
Qed.

Lemma reader_rows_next (lines : list string) :
  reader_rows lines =
  match reader_next lines with
  | Row row rest => yield row (reader_rows rest)
  | StopIteration => ([], Exhausted)
  | NextError => ([], Failed CsvError)
  end.
Proof. apply reader_rows_loop. Qed.

(** A character that ends no line is fed to the parser and the rest of
    the text follows. *)
Lemma reader_rows_char (c : ascii) (s : string) (r : Reader) :
  Ascii.eqb c LF = false → Ascii.eqb c CR = false → s ≠ EmptyString →
  reader_rows_from r (readlines (String c s)) =
  match parse_process_char (Chr c) r with
  | Some r' => reader_rows_from r' (readlines s)
  | None => ([], Failed CsvError)
  end.
Proof.
  intros HLF HCR Hs. cbn [readlines]. rewrite HLF, HCR.
  pose proof (readlines_nonempty s Hs) as Hne.
  destruct (readlines s) as [|l ls]; [done|].
  cbn [reader_rows_from process_line].
  by destruct (parse_process_char (Chr c) r).
Qed.

Lemma length_append (a b : string) :
  String.length (a +:+ b) = (String.length a + String.length b)%nat.
Proof. induction a as [|c a IH]; [done|]. cbn. by rewrite <- IH. Qed.

Lemma within_limit_app (a b : string) :
  within_limit (a +:+ b) → within_limit a ∧ within_limit b.
Proof. unfold within_limit. rewrite length_append. lia. Qed.

Lemma within_limit_cons (a : string) (c : ascii) (b : string) :
  within_limit (a +:+ String c b) →
  Z.of_nat (String.length a) < field_size_limit
  ∧ within_limit ((a +:+ String c EmptyString) +:+ b).
Proof.
  unfold within_limit. rewrite !length_append. cbn [String.length]. lia.
Qed.

(** Below the limit a character is added to the field. *)
Lemma parse_add_char_fits (c : ascii) (r : Reader) :
  Z.of_nat (String.length (field r)) < field_size_limit →
  parse_add_char c r = Some (add_text (String c EmptyString) r).
Proof.
  intros H. unfold parse_add_char.
  destruct (Z.leb_spec field_size_limit (Z.of_nat (String.length (field r))));
    [lia|done].
Qed.

(** Inside quotes every character but the quote is added to the field,
    line ends included. *)
Lemma reader_rows_in_quotes (c : ascii) (s : string) (r : Reader) :
  state r = IN_QUOTED_FIELD → Ascii.eqb c quotechar = false →
  Z.of_nat (String.length (field r)) < field_size_limit →
  reader_rows_from r (readlines (String c s)) =
  reader_rows_from (add_text (String c EmptyString) r) (readlines s).
Proof.
  intros Hst Hq Hfit.
  assert (Hp : parse_process_char (Chr c) r
               = Some (add_text (String c EmptyString) r)).
  { unfold parse_process_char. rewrite Hst, Hq. by apply parse_add_char_fits. }
  set (r1 := add_text (String c EmptyString) r) in *.
  assert (Hst1 : state r1 = IN_QUOTED_FIELD) by done.
  assert (Hend : ∀ lines, reader_rows_from r (String c EmptyString :: lines)
                          = reader_rows_from r1 lines).
  { intros lines. cbn [reader_rows_from process_line]. rewrite Hp.
    unfold parse_process_char. rewrite Hst1. by rewrite Hst1. }
  destruct (Ascii.eqb c LF) eqn:ELF.
  { cbn [readlines]. rewrite ELF. apply Hend. }
  destruct (Ascii.eqb c CR) eqn:ECR.
  { cbn [readlines]. rewrite ELF, ECR. destruct s as [|c' s]; [apply Hend|].
    destruct (Ascii.eqb c' LF) eqn:ELF'; [|apply Hend].
    apply Ascii.eqb_eq in ELF'. subst c'.
    cbn [readlines]. rewrite Ascii.eqb_refl.
    assert (Hp2 : parse_process_char (Chr LF) r1 = parse_add_char LF r1).
    { unfold parse_process_char. by rewrite Hst1. }
    cbn [reader_rows_from process_line]. rewrite Hp, Hp2.
    destruct (parse_add_char LF r1) as [r2|] eqn:E2; [|done].
    assert (Hst2 : state r2 = IN_QUOTED_FIELD).
    { unfold parse_add_char in E2. destruct (_ <=? _); [done|].
      by injection E2 as <-. }
    unfold parse_process_char. by rewrite Hst2. }
  destruct s as [|c' s].
  - cbn [readlines]. rewrite ELF, ECR. apply Hend.
  - rewrite reader_rows_char by done. by rewrite Hp.
Qed.

Lemma add_text_cons (c : ascii) (body : string) (r : Reader) :
  add_text body (add_text (String c EmptyString) r) = add_text (String c body) r.
Proof.
  unfold add_text. cbn [fields field state].
  by rewrite append_assoc, append_cons, append_nil_l.
Qed.

Lemma add_text_nil (r : Reader) : add_text EmptyString r = r.
Proof.
  destruct r as [fs f s]. unfold add_text. cbn [fields field state].
  by rewrite append_nil_r.
Qed.

(** The doubled-quote text of [body] is read back as [body]. *)
Lemma reader_rows_quoted_body (body s : string) (r : Reader) :
  state r = IN_QUOTED_FIELD → s ≠ EmptyString →
  within_limit (field r +:+ body) →
  reader_rows_from r (readlines (double_quotes body +:+ s)) =
  reader_rows_from (add_text body r) (readlines s).
Proof.
  revert r. induction body as [|c body IH]; intros r Hst Hs Hfit.
  - by rewrite add_text_nil.
  - apply within_limit_cons in Hfit as [Hlt Hfit].
    cbn [double_quotes]. destruct (Ascii.eqb c quotechar) eqn:Hq.
    + apply Ascii.eqb_eq in Hq. subst c. rewrite !append_cons.
      rewrite reader_rows_char; [|done|done|done].
      unfold parse_process_char at 1. rewrite Hst. rewrite Ascii.eqb_refl.
      rewrite reader_rows_char; [|done|done|].
      2:{ destruct (double_quotes body); [done|]. by rewrite append_cons. }
      unfold parse_process_char at 1. cbn [state set_state]. rewrite Ascii.eqb_refl.
      rewrite parse_add_char_fits by done. cbn [fmap option_fmap option_map].
      assert (Hr : set_state IN_QUOTED_FIELD
                     (add_text (String quotechar EmptyString)
                        (set_state QUOTE_IN_QUOTED_FIELD r))
                   = add_text (String quotechar EmptyString) r).
      { destruct r as [fs f st]. cbn in Hst. by subst st. }
      rewrite Hr, IH; [|done|done|done]. by rewrite add_text_cons.
    + rewrite append_cons, reader_rows_in_quotes by done.
      rewrite IH; [|done|done|done]. by rewrite add_text_cons.
Qed.

Lemma special_char_false (c : ascii) :
  special_char c = false →
  Ascii.eqb c delimiter = false ∧ Ascii.eqb c quotechar = false
  ∧ Ascii.eqb c CR = false ∧ Ascii.eqb c LF = false.
Proof.
  unfold special_char. rewrite !orb_false_iff. tauto.
Qed.

(** Plain text is read back as it is into an unquoted field. *)
Lemma reader_rows_plain_body (body s : string) (r : Reader) :
  state r = IN_FIELD → plain body → s ≠ EmptyString →
  within_limit (field r +:+ body) →
  reader_rows_from r (readlines (body +:+ s)) =
  reader_rows_from (add_text body r) (readlines s).
Proof.
  revert r. induction body as [|c body IH]; intros r Hst Hp Hs Hfit.
  - by rewrite add_text_nil.
  - apply within_limit_cons in Hfit as [Hlt Hfit].
    unfold plain in Hp. cbn [must_quote] in Hp.
    apply orb_false_iff in Hp as [Hc Hp].
    apply special_char_false in Hc as (Hd & Hq & HCR & HLF).
    rewrite append_cons, reader_rows_char; [|done|done|].
    2:{ destruct body; [done|]. by rewrite append_cons. }
    unfold parse_process_char. rewrite Hst. cbn [is_newline].
    rewrite HLF, HCR, Hd. cbn [orb].
    rewrite parse_add_char_fits by done.
    rewrite IH; [|done|done|done|done]. by rewrite add_text_cons.
Qed.

(** The line terminator after a field closes the record. *)
Lemma reader_rows_line_end (s : string) (r : Reader) :
  state r = START_FIELD ∨ state r = IN_FIELD ∨ state r = QUOTE_IN_QUOTED_FIELD →
  reader_rows_from r (readlines (lineterminator +:+ s)) =
  yield (fields r ++ [field r]) (reader_rows (readlines s)).
Proof.
  intros Hst. unfold lineterminator. rewrite !append_cons, append_nil_l.
  cbn [readlines]. change (Ascii.eqb CR LF) with false.
  rewrite !Ascii.eqb_refl. cbn [reader_rows_from process_line].
  unfold yield, reader_rows.
  destruct r as [fs f st]. cbn in Hst.
  destruct Hst as [-> | [-> | ->]]; cbn;
    by destruct (reader_rows_from parse_reset (readlines s)).
Qed.

(** A written field is read back: after its text the parser holds the
    field, in a state from which a delimiter or a line end saves it. *)
Lemma reader_rows_field_text (f : string) (r : Reader) :
  state r = START_FIELD → field r = EmptyString → within_limit f →
  ∃ st, (st = START_FIELD ∨ st = IN_FIELD ∨ st = QUOTE_IN_QUOTED_FIELD)
        ∧ ∀ s, s ≠ EmptyString →
            reader_rows_from r (readlines (join_append f +:+ s)) =
            reader_rows_from (mkReader (fields r) f st) (readlines s).
Proof.
  intros Hst Hf Hfit. destruct r as [fs fl st0]. cbn in Hst, Hf. subst st0 fl.
  unfold join_append. destruct (must_quote f) eqn:Hq.
  - exists QUOTE_IN_QUOTED_FIELD. split; [tauto|]. intros s Hs.
    rewrite append_cons, append_assoc, append_cons, append_nil_l.
    rewrite reader_rows_char; [|done|done|apply append_cons_nonempty].
    cbn [parse_process_char state start_field is_newline].
    change (Ascii.eqb quotechar LF || Ascii.eqb quotechar CR) with false.
    rewrite Ascii.eqb_refl. cbn [set_state fields field].
    rewrite reader_rows_quoted_body; [|done|done|by rewrite append_nil_l].
    rewrite reader_rows_char; [|done|done|done].
    unfold parse_process_char, add_text, set_state. cbn [state fields field].
    rewrite Ascii.eqb_refl. by rewrite append_nil_l.
  - destruct f as [|c f].
    + exists START_FIELD. split; [tauto|]. intros s Hs. by rewrite append_nil_l.
    + exists IN_FIELD. split; [tauto|]. intros s Hs.
      cbn [must_quote] in Hq. apply orb_false_iff in Hq as [Hc Hp].
      apply special_char_false in Hc as (Hd & Hqc & HCR & HLF).
      rewrite append_cons, reader_rows_char; [|done|done|].
      2:{ destruct f; [done|]. by rewrite append_cons. }
      cbn [parse_process_char state start_field is_newline].
      rewrite HLF, HCR, Hqc, Hd. cbn [orb].
      rewrite parse_add_char_fits.
      2:{ cbn [field String.length]. unfold within_limit in Hfit.
          cbn [String.length] in Hfit. lia. }
      cbn [fmap option_fmap option_map].
      rewrite reader_rows_plain_body; [|done|done|done|].
      2:{ cbn [set_state add_text field]. by rewrite append_nil_l, append_cons, append_nil_l. }
      unfold add_text, set_state. cbn [fields field state].
      by rewrite append_nil_l, append_cons, append_nil_l.
Qed.

Lemma reader_rows_field (f s : string) (r : Reader) :
  state r = START_FIELD → field r = EmptyString → s ≠ EmptyString →
  within_limit f →
  reader_rows_from r (readlines (join_append f +:+ String delimiter s)) =
  reader_rows_from (mkReader (fields r ++ [f]) EmptyString START_FIELD) (readlines s).
Proof.
  intros Hst Hf Hs Hfit.
  destruct (reader_rows_field_text f r Hst Hf Hfit) as (st & Hcases & Heq).
  rewrite Heq by done.
  rewrite reader_rows_char; [|done|done|done].
  by destruct Hcases as [-> | [-> | ->]].
Qed.

Lemma reader_rows_last_field (f s : string) (r : Reader) :
  state r = START_FIELD → field r = EmptyString → within_limit f →
  reader_rows_from r (readlines (join_append f +:+ (lineterminator +:+ s))) =
  yield (fields r ++ [f]) (reader_rows (readlines s)).
Proof.
  intros Hst Hf Hfit.
  destruct (reader_rows_field_text f r Hst Hf Hfit) as (st & Hcases & Heq).
  rewrite Heq by done.
  by rewrite reader_rows_line_end.
Qed.

(** The fields of a written record are read back in order. *)
Lemma reader_rows_fields (fs : list string) (s : string) (r : Reader) :
  fs ≠ [] → state r = START_FIELD → field r = EmptyString →
  Forall within_limit fs →
  reader_rows_from r
    (readlines (join_fields (join_append <$> fs) +:+ (lineterminator +:+ s))) =
  yield (fields r ++ fs) (reader_rows (readlines s)).
Proof.
  revert r. induction fs as [|f fs IH]; intros r Hne Hst Hf Hfit; [done|].
  apply Forall_cons in Hfit as [Hfit Hfits].
  destruct fs as [|g fs].
  - cbn [fmap list_fmap join_fields]. by apply reader_rows_last_field.
  - change (join_fields (join_append <$> f :: g :: fs))
      with (join_append f +:+ String delimiter (join_fields (join_append <$> g :: fs))).
    rewrite append_assoc, append_cons.
    rewrite reader_rows_field; [|done|done| |done].
    2:{ unfold lineterminator. rewrite append_cons.
        destruct (join_fields _); [done|]. by rewrite append_cons. }
    rewrite IH; [|done|done|done|done]. cbn [fields]. by rewrite <- app_assoc.
Qed.

Lemma join_append_head (f t : string) :
  t ≠ EmptyString →
  ∃ c s', join_append f +:+ String delimiter t = String c s'
          ∧ Ascii.eqb c LF = false ∧ Ascii.eqb c CR = false ∧ s' ≠ EmptyString.
Proof.
  intros Ht. unfold join_append. destruct (must_quote f) eqn:Hq.
  - eexists _, _. rewrite append_cons. split; [reflexivity|].
    split; [done|]. split; [done|].
    rewrite append_assoc. apply append_cons_nonempty.
  - destruct f as [|c f].
    + eexists _, _. rewrite append_nil_l. split; [reflexivity|]. done.
    + cbn [must_quote] in Hq. apply orb_false_iff in Hq as [Hc _].
      apply special_char_false in Hc as (_ & _ & HCR & HLF).
      eexists _, _. rewrite append_cons. split; [reflexivity|].
      split; [done|]. split; [done|]. apply append_cons_nonempty.
Qed.

Lemma join_fields_cons2 (f g : string) (fs : list string) :
  join_fields (f :: g :: fs) = f +:+ String delimiter (join_fields (g :: fs)).
Proof. reflexivity. Qed.

(** A written record of two fields or more is read back as one row. *)
Lemma reader_rows_record (f g : string) (fs : list string) (s : string) :
  Forall within_limit (f :: g :: fs) →
  reader_rows
    (readlines (join_fields (join_append <$> f :: g :: fs)
                +:+ (lineterminator +:+ s))) =
  yield (f :: g :: fs) (reader_rows (readlines s)).
Proof.
  intros Hfit.
  pose proof (reader_rows_fields (f :: g :: fs) s
                (mkReader [] EmptyString START_FIELD)) as H.
  cbn [fields app] in H. rewrite <- H by done. clear H.
  cbn [fmap list_fmap]. rewrite join_fields_cons2, append_assoc, append_cons.
  destruct (join_append_head f
              (join_fields (join_append g :: (join_append <$> fs))
               +:+ (lineterminator +:+ s))) as (c & s' & E & HLF & HCR & Hs').
  { unfold lineterminator. rewrite append_cons.
    destruct (join_fields _); [done|]. by rewrite append_cons. }
  cbn [fmap list_fmap] in E. rewrite E.
  unfold reader_rows. rewrite !reader_rows_char by done.
  unfold parse_reset, parse_process_char. cbn [state is_newline].
  by rewrite HLF, HCR.
Qed.

Lemma writerow_cons2 (x y : pyfield) (l : list pyfield) :
  writerow (x :: y :: l)
  = join_fields (join_append <$> (field_text <$> x :: y :: l)) +:+ lineterminator.
Proof.
  unfold writerow. rewrite <- list_fmap_compose.
  cbn [fmap list_fmap]. rewrite join_fields_cons2.
  destruct (_ +:+ String delimiter _) eqn:E; [|done].
  by apply append_cons_nonempty in E.
Qed.

Lemma reader_rows_writerow (l : list pyfield) (s : string) :
  (2 ≤ length l)%nat → Forall within_limit (field_text <$> l) →
  reader_rows (readlines (writerow l +:+ s)) =
  yield (field_text <$> l) (reader_rows (readlines s)).
Proof.
  intros Hlen Hfit. destruct l as [|x [|y l]]; cbn in Hlen; [lia|lia|].
  rewrite writerow_cons2, append_assoc. cbn [fmap list_fmap].
  by apply reader_rows_record.
Qed.

(* ===================================================================== *)
(** ** Written files and the rows read from them *)

Lemma header_dict_lookup (names : list string) (key : string) :
  key ∈ names →
  (list_to_map (zip names (FStr <$> names)) : gmap string pyfield) !! key
  = Some (FStr key).
Proof.
  induction names as [|k names IH]; intros Hin; [by apply elem_of_nil in Hin|].
  cbn [fmap list_fmap zip zip_with list_to_map foldr uncurry fst snd].
  destruct (decide (k = key)) as [->|Hne].
  - apply lookup_insert_eq.
  - rewrite lookup_insert_ne by done. apply IH.
    apply elem_of_cons in Hin as [->|Hin]; done.
Qed.

Lemma header_fields (names : list string) :
  dict_to_list names (list_to_map (zip names (FStr <$> names))) = FStr <$> names.
Proof.
  unfold dict_to_list. apply list_fmap_ext. intros i key Hi.
  rewrite header_dict_lookup; [done|]. by eapply list_elem_of_lookup_2.
Qed.

Lemma row_texts (names : list string) (player : PlayerRecord) :
  field_text <$> dict_to_list names (row_dict player) = cell player <$> names.
Proof. unfold dict_to_list. by rewrite <- list_fmap_compose. Qed.

Lemma cell_values (player : PlayerRecord) :
  cell player "Name" = field_text (text_field (name player))
  ∧ cell player "Team" = field_text (text_field (team player))
  ∧ cell player "Goals" = str_int (goals player)
  ∧ cell player "Assists" = str_int (assists player).
Proof.
  unfold cell, row_dict.
  repeat (rewrite ?lookup_insert_eq; rewrite ?lookup_insert_ne by done).
  done.
Qed.

(** Every cell of the row of such a record fits into a field. *)
Lemma fits_fields_cell (player : PlayerRecord) (key : string) :
  fits_fields player → within_limit (cell player key).
Proof.
  intros (Hn & Ht & Hg & Ha).
  destruct (cell_values player) as (En & Et & Eg & Ea).
  destruct (decide (key = "Assists")) as [->|H1]; [by rewrite Ea|].
  destruct (decide (key = "Goals")) as [->|H2]; [by rewrite Eg|].
  destruct (decide (key = "Team")) as [->|H3].
  { rewrite Et. by destruct (team player). }
  destruct (decide (key = "Name")) as [->|H4].
  { rewrite En. by destruct (name player). }
  unfold cell, row_dict. rewrite !lookup_insert_ne by done.
  rewrite lookup_empty. done.
Qed.

Lemma fits_fields_cells (names : list string) (player : PlayerRecord) :
  fits_fields player → Forall within_limit (cell player <$> names).
Proof.
  intros H. apply Forall_fmap, Forall_forall. intros key _.
  by apply fits_fields_cell.
Qed.

Lemma fieldnames_text (names : list string) :
  field_text <$> (FStr <$> names) = names.
Proof.
  rewrite <- list_fmap_compose. induction names as [|a l IH]; [done|].
  cbn [fmap list_fmap compose field_text]. by rewrite IH.
Qed.

(** The rows read from the written rows of a sequence of records, with
    any text after them. *)
Lemma reader_rows_written_rows (names : list string) (recs : list PlayerRecord)
    (s : string) :
  (2 ≤ length names)%nat → Forall fits_fields recs →
  reader_rows (readlines
    (concat_text (DictWriter_writerow names ∘ row_dict <$> recs) +:+ s))
  = (((λ player, cell player <$> names) <$> recs) ++ (reader_rows (readlines s)).1,
     (reader_rows (readlines s)).2).
Proof.
  intros Hlen Hfit. induction Hfit as [|player recs Hp _ IH].
  - cbn [fmap list_fmap concat_text app]. rewrite append_nil_l.
    by destruct (reader_rows (readlines s)).
  - cbn [fmap list_fmap concat_text compose]. rewrite append_assoc.
    unfold DictWriter_writerow at 1.
    rewrite reader_rows_writerow, row_texts, IH; [done| |].
    + unfold dict_to_list. by rewrite length_fmap.
    + rewrite row_texts. by apply fits_fields_cells.
Qed.

(** The rows read from a written file: the header, then one row per
    record with its cells in the order of the header. *)
Lemma reader_rows_csv_rows (names : list string) (recs : list PlayerRecord) :
  (2 ≤ length names)%nat → Forall within_limit names → Forall fits_fields recs →
  reader_rows (readlines (csv_rows names recs))
  = (names :: ((λ player, cell player <$> names) <$> recs), Exhausted).
Proof.
  intros Hlen Hnames Hfit.
  unfold csv_rows, DictWriter_writeheader. rewrite header_fields.
  rewrite reader_rows_writerow.
  2:{ by rewrite length_fmap. }
  2:{ by rewrite fieldnames_text. }
  rewrite <- (append_nil_r (concat_text _)).
  rewrite reader_rows_written_rows by done.
  unfold yield. cbn [fst snd readlines]. by rewrite app_nil_r, fieldnames_text.
Qed.

(* ===================================================================== *)
(** ** Row dictionaries *)

Lemma foldl_insert_pairs_notin (kvs : list (string * string))
    (d : gmap string (option string)) (key : string) :
  key ∉ kvs.*1 →
  foldl (λ d kv, <[kv.1 := Some kv.2]> d) d kvs !! key = d !! key.
Proof.
  revert d. induction kvs as [|[k v] kvs IH]; intros d Hnot; [done|].
  cbn [foldl]. cbn [fmap list_fmap fst] in Hnot.
  apply not_elem_of_cons in Hnot as [Hne Hnot].
  rewrite IH by done. cbn [fst snd]. by rewrite lookup_insert_ne.
Qed.

Lemma foldl_insert_None_notin (keys : list string)
    (d : gmap string (option string)) (key : string) :
  key ∉ keys →
  foldl (λ d k, <[k := None]> d) d keys !! key = d !! key.
Proof.
  revert d. induction keys as [|k keys IH]; intros d Hnot; [done|].
  cbn [foldl]. apply not_elem_of_cons in Hnot as [Hne Hnot].
  rewrite IH by done. by rewrite lookup_insert_ne.
Qed.

(** A name that the header does not list is no key of a row dictionary. *)
Lemma row_to_dict_lookup_notin (names row : list string) (key : string) :
  key ∉ names → row_to_dict names row !! key = None.
Proof.
  intros Hnot. unfold row_to_dict.
  assert (Hd : dict_of_pairs (zip names row) !! key = None).
  { unfold dict_of_pairs. rewrite foldl_insert_pairs_notin; [done|].
    intros Hin. apply Hnot. apply list_elem_of_fmap in Hin as ([k v] & -> & Hin).
    by apply elem_of_zip_l in Hin. }
  destruct (length row <? length names)%nat; [|done].
  rewrite foldl_insert_None_notin; [done|].
  intros Hin. apply Hnot. rewrite <- (take_drop (length row) names).
  apply elem_of_app. by right.
Qed.

Lemma foldl_insert_pairs_in (names : list string) (f : string → string)
    (d : gmap string (option string)) (key : string) :
  key ∈ names →
  foldl (λ d kv, <[kv.1 := Some kv.2]> d) d (zip names (f <$> names)) !! key
  = Some (Some (f key)).
Proof.
  revert d. induction names as [|k names IH]; intros d Hin;
    [by apply elem_of_nil in Hin|].
  cbn [fmap list_fmap zip zip_with foldl fst snd].
  destruct (decide (key ∈ names)) as [Hin'|Hnot]; [by apply IH|].
  apply elem_of_cons in Hin as [->|Hin]; [|done].
  rewrite foldl_insert_pairs_notin.
  - apply lookup_insert_eq.
  - intros Hk. apply Hnot. apply list_elem_of_fmap in Hk as ([k' v] & -> & Hk).
    by apply elem_of_zip_l in Hk.
Qed.

(** Under a header that lists [key], a full row gives its field for it. *)
Lemma row_to_dict_lookup_in (names : list string) (f : string → string)
    (key : string) :
  key ∈ names → row_to_dict names (f <$> names) !! key = Some (Some (f key)).
Proof.
  intros Hin. unfold row_to_dict. rewrite length_fmap, Nat.ltb_irrefl.
  by apply foldl_insert_pairs_in.
Qed.

(** The row written for a record is read back as that record, whatever
    the order of the columns and whatever other columns there are. *)
Lemma record_of_written_row (names : list string) (player : PlayerRecord) :
  (∀ key, key ∈ fieldnames → key ∈ names) →
  record_of_row (row_to_dict names (cell player <$> names)) = inr (as_read player).
Proof.
  intros Hall. unfold record_of_row, getitem.
  rewrite !row_to_dict_lookup_in by (apply Hall; unfold fieldnames; set_solver).
  destruct (cell_values player) as (_ & _ & -> & ->).
  cbn [py_int]. by rewrite !int_of_str_str_int.
Qed.

Lemma as_read_typed (player : PlayerRecord) :
  typed_record player → as_read player = player.
Proof.
  intros [[n Hn] [t Ht]]. unfold as_read.
  destruct (cell_values player) as (-> & -> & _ & _).
  destruct player as [pn pt g a]. cbn in *. by subst.
Qed.

Lemma as_read_all_typed (recs : list PlayerRecord) :
  Forall typed_record recs → as_read <$> recs = recs.
Proof.
  induction 1 as [|r l Hr _ IH]; [done|].
  cbn [fmap list_fmap]. by rewrite as_read_typed, IH.
Qed.

(* ===================================================================== *)
(** ** The loading loop *)

Lemma contents_fresh (recs h : list PlayerRecord) :
  deref (h ++ recs) <$> seq (length h) (length recs) = recs.
Proof.
  revert h. induction recs as [|r recs IH]; intros h; [done|].
  cbn [length seq fmap list_fmap]. f_equal.
  - unfold deref. apply list_lookup_total_correct. by rewrite list_lookup_middle.
  - replace (h ++ r :: recs) with ((h ++ [r]) ++ recs) by (by rewrite <- app_assoc).
    replace (S (length h)) with (length (h ++ [r])) by (rewrite length_app; cbn; lia).
    apply IH.
Qed.

(** When every row converts, the loop appends one new object per row. *)
Lemma load_loop_all (rows : list (gmap string (option string)))
    (recs : list PlayerRecord) (st : State) :
  Forall2 (λ row player, record_of_row row = inr player) rows recs →
  load_loop rows Exhausted st
  = (Return tt, mkState (heap st ++ recs)
                        (players st ++ seq (length (heap st)) (length recs))
                        (stdout st) (files st)).
Proof.
  intros H. revert st. induction H as [|row player rows recs Hr _ IH]; intros st.
  - cbn. rewrite !app_nil_r. by destruct st.
  - cbn [load_loop]. rewrite Hr, IH. cbn [heap players stdout files length seq].
    rewrite <- !app_assoc, length_app. cbn [length app].
    by rewrite Nat.add_1_r.
Qed.

(** The loop in general: the rows up to the first one that does not
    convert give the new objects, in order; the outcome tells whether
    all rows were converted. *)
Lemma load_loop_prefix (rows : list (gmap string (option string))) (e : ending)
    (st : State) :
  ∃ good : list PlayerRecord,
    (load_loop rows e st).2
    = mkState (heap st ++ good)
              (players st ++ seq (length (heap st)) (length good))
              (stdout st) (files st)
    ∧ Forall2 (λ row player, record_of_row row = inr player)
              (take (length good) rows) good
    ∧ match (load_loop rows e st).1 with
      | Return _ => length good = length rows ∧ e = Exhausted
      | Raise x =>
          (∃ row, rows !! length good = Some row ∧ record_of_row row = inl x)
          ∨ (length good = length rows ∧ e = Failed x)
      end.
Proof.
  revert st. induction rows as [|row rows IH]; intros st.
  - exists []. destruct e; cbn; rewrite !app_nil_r;
      (split; [by destruct st|]); (split; [constructor|]); [done|by right].
  - cbn [load_loop]. destruct (record_of_row row) as [x|player] eqn:Hr.
    + exists []. cbn. rewrite !app_nil_r. split; [by destruct st|].
      split; [constructor|]. left. by exists row.
    + destruct (IH (mkState (heap st ++ [player])
                            (players st ++ [length (heap st)])
                            (stdout st) (files st))) as (good & Hst & Hall & Hout).
      exists (player :: good). rewrite Hst. cbn [heap players stdout files length seq].
      split.
      { rewrite <- !app_assoc, length_app. cbn [length app].
        by rewrite Nat.add_1_r. }
      split; [by constructor|].
      destruct (load_loop rows e _).1 as [u|x].
      * destruct Hout as [Hl He]. split; [by rewrite Hl|done].
      * destruct Hout as [(row' & Hrow & Hx)|[Hl He]].
        -- left. by exists row'.
        -- right. split; [by rewrite Hl|done].
Qed.

Lemma filter_nonempty_rows {A : Type} (f : A → list string) (l : list A) :
  (∀ x, f x ≠ []) → List.filter nonempty_row (f <$> l) = f <$> l.
Proof.
  intros Hf. induction l as [|x l IH]; [done|]. cbn [fmap list_fmap List.filter].
  specialize (Hf x). destruct (f x) eqn:E; [done|]. cbn [nonempty_row]. by rewrite <- IH at 2.
Qed.

Lemma fieldnames_in_length (names : list string) :
  (∀ key, key ∈ fieldnames → key ∈ names) → (2 ≤ length names)%nat.
Proof.
  intros Hall.
  assert (Hn : "Name" ∈ names) by (apply Hall; unfold fieldnames; set_solver).
  assert (Ht : "Team" ∈ names) by (apply Hall; unfold fieldnames; set_solver).
  destruct names as [|x [|y names]]; cbn; [by apply elem_of_nil in Hn| |lia].
  apply list_elem_of_singleton in Hn, Ht. congruence.
Qed.

(** Loading a file written by a [DictWriter] whose header lists the four
    field names, in any order and among any other names. *)
Lemma load_written_file {os : OS} (names : list string) (recs : list PlayerRecord)
    (filename file : string) (st : State) :
  (∀ key, key ∈ fieldnames → key ∈ names) →
  Forall within_limit names → Forall fits_fields recs →
  open_read filename = inr file →
  files st !! file = Some (csv_rows names recs) →
  load_from_csv filename st
  = (Return tt, mkState (heap st ++ (as_read <$> recs))
                        (seq (length (heap st)) (length recs))
                        (stdout st) (files st)).
Proof.
  intros Hall Hnames Hfit Hopen Hfile. unfold load_from_csv.
  rewrite Hopen. cbn [files set_players]. rewrite Hfile.
  pose proof (fieldnames_in_length names Hall) as Hlen.
  unfold DictReader. rewrite reader_rows_csv_rows by done.
  rewrite filter_nonempty_rows.
  2:{ intros player. destruct names; [cbn in Hlen; lia|done]. }
  rewrite <- list_fmap_compose.
  rewrite (load_loop_all _ (as_read <$> recs)).
  - cbn [heap players stdout files set_players app]. by rewrite length_fmap.
  - apply Forall2_fmap. apply Forall2_same_length_lookup. split; [done|].
    intros i x y Hx Hy. rewrite Hx in Hy. injection Hy as <-.
    exact (record_of_written_row names x Hall).
Qed.

(* ===================================================================== *)
(** ** The reader on any text *)

Lemma line_shape_cons (c : ascii) (line : string) :
  Ascii.eqb c LF = false → Ascii.eqb c CR = false →
  line_shape line → line_shape (String c line).
Proof.
  intros HLF HCR (body & term & -> & Hb & Ht).
  exists (String c body), term. rewrite append_cons. split; [done|].
  split; [|done]. cbn [no_newline]. by rewrite HLF, HCR.
Qed.

Lemma line_shape_term (term : string) :
  term = EmptyString ∨ term = String LF EmptyString
  ∨ term = String CR EmptyString ∨ term = lineterminator →
  line_shape term.
Proof. intros H. by exists EmptyString, term. Qed.

Lemma total_length_cons (line : string) (lines : list string) :
  total_length (line :: lines) = (String.length line + total_length lines)%nat.
Proof. reflexivity. Qed.

(** The lines of a text have the shape of lines and hold its characters. *)
Lemma readlines_shape_bounded (n : nat) (s : string) :
  (String.length s ≤ n)%nat →
  Forall line_shape (readlines s) ∧ total_length (readlines s) = String.length s.
Proof.
  revert s. induction n as [|n IH]; intros s Hlen.
  - destruct s; [by split; [constructor|]|cbn in Hlen; lia].
  - destruct s as [|c s]; [by split; [constructor|]|]. cbn [String.length] in Hlen.
    cbn [readlines]. destruct (Ascii.eqb c LF) eqn:ELF.
    { apply Ascii.eqb_eq in ELF as ->. destruct (IH s ltac:(lia)) as [Hs Ht].
      split; [|by rewrite total_length_cons, Ht].
      constructor; [|done]. apply line_shape_term. tauto. }
    destruct (Ascii.eqb c CR) eqn:ECR.
    { apply Ascii.eqb_eq in ECR as ->. destruct s as [|c' s].
      - split; [|done]. repeat constructor. apply line_shape_term. tauto.
      - destruct (Ascii.eqb c' LF) eqn:ELF'.
        + apply Ascii.eqb_eq in ELF' as ->. cbn [String.length] in Hlen.
          destruct (IH s ltac:(lia)) as [Hs Ht].
          split; [|by rewrite total_length_cons, Ht].
          constructor; [|done]. apply line_shape_term. tauto.
        + destruct (IH (String c' s) ltac:(cbn [String.length] in *; lia)) as [Hs Ht].
          split; [|by rewrite total_length_cons, Ht].
          constructor; [|done]. apply line_shape_term. tauto. }
    destruct (IH s ltac:(lia)) as [Hrest Ht].
    destruct (readlines s) as [|l ls].
    + split; [|by cbn in *; rewrite <- Ht].
      repeat constructor. apply line_shape_cons; [done|done|].
      apply line_shape_term. tauto.
    + inversion Hrest; subst. split.
      * constructor; [|done]. by apply line_shape_cons.
      * rewrite total_length_cons in *. cbn [String.length]. by rewrite <- Ht.
Qed.

Lemma readlines_shape (s : string) : Forall line_shape (readlines s).
Proof. by apply (readlines_shape_bounded (String.length s)). Qed.

Lemma readlines_length (s : string) : total_length (readlines s) = String.length s.
Proof. by apply (readlines_shape_bounded (String.length s)). Qed.

(** A character fed to a parser that does not wait for a line end, with
    room in the field: the parser goes on, and the field grows by one
    character at most. *)
Lemma step_char (c : ascii) (r : Reader) :
  state r ≠ EAT_CRNL ∨ is_newline (Chr c) = true →
  Z.of_nat (String.length (field r)) < field_size_limit →
  ∃ r', parse_process_char (Chr c) r = Some r'
        ∧ (String.length (field r') ≤ S (String.length (field r)))%nat
        ∧ (is_newline (Chr c) = false → state r' ≠ EAT_CRNL)
        ∧ (is_newline (Chr c) = true →
           state r' = EAT_CRNL ∨ state r' = IN_QUOTED_FIELD).
Proof.
  intros Hst Hfit.
  assert (Hadd : parse_add_char c r = Some (add_text (String c EmptyString) r))
    by (by apply parse_add_char_fits).
  assert (Hadd' : ∀ st, parse_add_char c (set_state st r)
                        = Some (add_text (String c EmptyString) (set_state st r)))
    by (intros st; by apply parse_add_char_fits).
  assert (Hlen : String.length (field r +:+ String c EmptyString)
                 = S (String.length (field r))).
  { rewrite length_append. cbn. lia. }
  destruct r as [fs f st]. cbn [state field] in *.
  unfold parse_process_char, start_field. cbn [state].
  destruct (is_newline (Chr c)) eqn:Enl.
  - assert (Hc : c = LF ∨ c = CR).
    { cbn [is_newline] in Enl. apply orb_true_iff in Enl as [H|H];
        apply Ascii.eqb_eq in H; [by left|by right]. }
    clear Enl.
    destruct st; destruct Hc as [-> | ->];
      repeat match goal with
             | |- context [Ascii.eqb ?a ?b] =>
                 let v := eval vm_compute in (Ascii.eqb a b) in
                 change (Ascii.eqb a b) with v
             end;
      cbn [is_newline orb]; rewrite ?Hadd;
      (eexists; split; [reflexivity|]);
      cbn [state field add_text set_state parse_save_field String.length];
      rewrite ?Hlen; repeat split; (lia || tauto || done).
  - destruct Hst as [Hst|Hst]; [|done].
    destruct st; try done; cbn [is_newline] in Enl |- *; rewrite ?Enl;
      cbn [set_state state field fields]; rewrite ?Hadd, ?Hadd';
      destruct (Ascii.eqb c quotechar), (Ascii.eqb c delimiter);
      cbn [fmap option_fmap option_map];
      (eexists; split; [reflexivity|]);
      cbn [state field add_text set_state parse_save_field String.length];
      rewrite ?Hlen; repeat split; (lia || done).
Qed.

(** The end of a line. *)
Lemma step_EOL (r : Reader) :
  ∃ r', parse_process_char EOL r = Some r'
        ∧ (String.length (field r') ≤ String.length (field r))%nat
        ∧ (state r' = START_RECORD ∨ state r' = IN_QUOTED_FIELD).
Proof.
  destruct r as [fs f st].
  destruct st; (eexists; split; [reflexivity|]); cbn; split; (lia || tauto).
Qed.

(** Inside a line the parser never fails and never waits for a line end. *)
Lemma process_body (body rest : string) (r : Reader) :
  no_newline body = true → state r ≠ EAT_CRNL →
  Z.of_nat (String.length (field r) + String.length body) <= field_size_limit →
  ∃ r', process_line (body +:+ rest) r = process_line rest r'
        ∧ state r' ≠ EAT_CRNL
        ∧ (String.length (field r')
           ≤ String.length (field r) + String.length body)%nat.
Proof.
  revert r. induction body as [|c body IH]; intros r Hb Hst Hfit.
  - exists r. split; [done|]. split; [done|]. lia.
  - cbn [no_newline] in Hb. apply andb_true_iff in Hb as [Hc Hb].
    apply negb_true_iff in Hc. cbn [String.length] in Hfit.
    rewrite append_cons. cbn [process_line].
    destruct (step_char c r) as (r1 & -> & Hlen & Hst1 & _); [by left|lia|].
    destruct (IH r1 Hb (Hst1 Hc)) as (r' & -> & Hst' & Hlen'); [lia|].
    exists r'. split; [done|]. split; [done|]. cbn [String.length]. lia.
Qed.

(** A line ending: one or two characters that end a line, then the end of
    the line. *)
Lemma process_term (term : string) (r : Reader) :
  term = EmptyString ∨ term = String LF EmptyString
  ∨ term = String CR EmptyString ∨ term = lineterminator →
  Z.of_nat (String.length (field r) + String.length term) <= field_size_limit →
  ∃ r', process_line term r = Some r'
        ∧ (state r' = START_RECORD ∨ state r' = IN_QUOTED_FIELD)
        ∧ (String.length (field r')
           ≤ String.length (field r) + String.length term)%nat.
Proof.
  intros Ht Hfit.
  assert (Hone : ∀ c r0, is_newline (Chr c) = true →
            Z.of_nat (String.length (field r0)) < field_size_limit →
            ∃ r', process_line (String c EmptyString) r0 = Some r'
                  ∧ (state r' = START_RECORD ∨ state r' = IN_QUOTED_FIELD)
                  ∧ (String.length (field r') ≤ S (String.length (field r0)))%nat).
  { intros c r0 Hc Hlt. cbn [process_line].
    destruct (step_char c r0) as (r1 & -> & Hlen & _ & _); [by right|done|].
    destruct (step_EOL r1) as (r2 & -> & Hlen2 & Hst2).
    exists r2. split; [done|]. split; [done|]. lia. }
  destruct Ht as [-> | [-> | [-> | ->]]].
  - cbn [process_line]. destruct (step_EOL r) as (r' & -> & Hlen & Hst).
    exists r'. split; [done|]. split; [done|]. lia.
  - cbn [String.length] in Hfit.
    destruct (Hone LF r) as (r' & -> & Hst & Hlen); [done|lia|].
    exists r'. split; [done|]. split; [done|]. cbn [String.length]. lia.
  - cbn [String.length] in Hfit.
    destruct (Hone CR r) as (r' & -> & Hst & Hlen); [done|lia|].
    exists r'. split; [done|]. split; [done|]. cbn [String.length]. lia.
  - unfold lineterminator in *. cbn [String.length] in Hfit.
    cbn [process_line].
    destruct (step_char CR r) as (r1 & -> & Hlen1 & _ & _); [by right|lia|].
    destruct (Hone LF r1) as (r' & Hr' & Hst & Hlen); [done|lia|].
    cbn [process_line] in Hr'. rewrite Hr'.
    exists r'. split; [done|]. split; [done|]. cbn [String.length]. lia.
Qed.

(** At its end a line leaves the parser at the start of a record or
    inside quotes. *)
Lemma process_line_shape (line : string) (r : Reader) :
  line_shape line → state r ≠ EAT_CRNL →
  Z.of_nat (String.length (field r) + String.length line) <= field_size_limit →
  ∃ r', process_line line r = Some r'
        ∧ (state r' = START_RECORD ∨ state r' = IN_QUOTED_FIELD)
        ∧ (String.length (field r')
           ≤ String.length (field r) + String.length line)%nat.
Proof.
  intros (body & term & -> & Hb & Ht) Hst Hfit. rewrite length_append in Hfit.
  destruct (process_body body term r Hb Hst) as (r1 & -> & Hr1 & Hlen1); [lia|].
  destruct (process_term term r1 Ht) as (r' & -> & Hst' & Hlen'); [lia|].
  exists r'. split; [done|]. split; [done|]. rewrite length_append. lia.
Qed.

(** The reader does not fail on a text without a field beyond the limit,
    so not on a text that is itself within the limit. *)
Lemma reader_rows_never_fail (lines : list string) (r : Reader) :
  Forall line_shape lines →
  state r = START_RECORD ∨ state r = IN_QUOTED_FIELD →
  Z.of_nat (String.length (field r) + total_length lines) <= field_size_limit →
  (reader_rows_from r lines).2 = Exhausted.
Proof.
  intros Hall. revert r. induction Hall as [|line lines Hl _ IH]; intros r Hst Hfit.
  - cbn. by destruct (_ || _).
  - cbn [reader_rows_from]. cbn [total_length foldr] in Hfit.
    fold (total_length lines) in Hfit.
    destruct (process_line_shape line r Hl) as (r' & -> & Hr' & Hlen).
    { destruct Hst as [-> | ->]; done. }
    { lia. }
    destruct (bool_decide (state r' = START_RECORD)).
    + specialize (IH parse_reset (or_introl eq_refl)).
      destruct (reader_rows_from parse_reset lines). cbn in *. apply IH. lia.
    + apply IH; [done|lia].
Qed.

(** The reader fails with [csv.Error] only, and only on a text longer
    than the field limit. *)
Lemma DictReader_fails (text : string) (x : exn) :
  (DictReader (readlines text)).2 = Failed x →
  x = CsvError ∧ field_size_limit < Z.of_nat (String.length text).
Proof.
  intros Hx.
  assert (Hcsv : ∀ lines r y, (reader_rows_from r lines).2 = Failed y → y = CsvError).
  { induction lines as [|line lines IH]; intros r y; cbn [reader_rows_from].
    - by destruct (_ || _).
    - destruct (process_line line r) as [r'|]; [|by intros [= <-]].
      destruct (bool_decide _); [|apply IH].
      specialize (IH parse_reset y).
      by destruct (reader_rows_from parse_reset lines). }
  assert (He : (DictReader (readlines text)).2 = (reader_rows (readlines text)).2).
  { unfold DictReader. by destruct (reader_rows (readlines text)) as [[|names rows] e]. }
  rewrite He in Hx. split; [by eapply Hcsv|].
  destruct (Z.lt_ge_cases field_size_limit (Z.of_nat (String.length text)))
    as [Hlt|Hge]; [done|].
  unfold reader_rows in Hx.
  rewrite reader_rows_never_fail in Hx; [done|apply readlines_shape|by left|].
  rewrite readlines_length. cbn. lia.
Qed.

(* ===================================================================== *)
(** ** save_to_csv and load_from_csv *)

Lemma csv_text_rows (recs : list PlayerRecord) :
  csv_text recs = csv_rows fieldnames recs.
Proof. reflexivity. Qed.






Lemma record_of_row_inl (row : gmap string (option string)) (x : exn) :
  record_of_row row = inl x →
  x = ValueError ∨ x = TypeError ∨ ∃ key, key ∈ fieldnames ∧ x = KeyError key.
Proof.
  assert (Hk : ∀ key v, key ∈ fieldnames → getitem row key = inl v →
               ∃ k, k ∈ fieldnames ∧ v = KeyError k).
  { intros key v Hin. unfold getitem. destruct (row !! key); [done|].
    intros [= <-]. by exists key. }
  assert (Hi : ∀ v y, py_int v = inl y → y = ValueError ∨ y = TypeError).
  { intros [s|] y; cbn; [destruct (int_of_str s)|]; intros [= <-]; tauto. }
  unfold record_of_row.
  destruct (getitem row "Name") as [e|n] eqn:E1;
    [intros [= <-]; right; right; eapply Hk; [|done]; unfold fieldnames; set_solver|].
  destruct (getitem row "Team") as [e|t] eqn:E2;
    [intros [= <-]; right; right; eapply Hk; [|done]; unfold fieldnames; set_solver|].
  destruct (getitem row "Goals") as [e|vg] eqn:E3;
    [intros [= <-]; right; right; eapply Hk; [|done]; unfold fieldnames; set_solver|].
  destruct (py_int vg) as [e|g] eqn:E4;
    [intros [= <-]; destruct (Hi _ _ E4); tauto|].
  destruct (getitem row "Assists") as [e|va] eqn:E5;
    [intros [= <-]; right; right; eapply Hk; [|done]; unfold fieldnames; set_solver|].
  destruct (py_int va) as [e|a] eqn:E6;
    [intros [= <-]; destruct (Hi _ _ E6); tauto|].
  done.
Qed.

Lemma record_of_row_inr (row : gmap string (option string)) (r : PlayerRecord) :
  record_of_row row = inr r → ∀ key, key ∈ fieldnames → is_Some (row !! key).
Proof.
  unfold record_of_row, getitem. intros H key Hin.
  destruct (row !! "Name") eqn:E1; [|done].
  destruct (row !! "Team") eqn:E2; [|done].
  destruct (row !! "Goals") as [vg|] eqn:E3; [|done].
  destruct (py_int vg); [done|].
  destruct (row !! "Assists") as [va|] eqn:E4; [|done].
  unfold fieldnames in Hin.
  repeat (apply elem_of_cons in Hin as [->|Hin]; [by eexists|]).
  by apply elem_of_nil in Hin.
Qed.

(** C1, counterexample: the second data row has a Goals value that is no
    integer.  [load_from_csv] raises [ValueError]; the record the store
    held before is gone and the store holds the record of the first row. *)
Lemma load_malformed_file_changes_store :
  let text := "Name,Team,Goals,Assists" +:+ lineterminator
              +:+ "Alice,Reds,3,1" +:+ lineterminator
              +:+ "Bob,Blues,x,2" +:+ lineterminator in
  let st := mkState [new_record "Zed" "Greens" 9 9] [0%nat] []
                    {[ "players.csv" := text ]} in
  let after := load_from_csv (os := working_directory) "players.csv" st in
  after.1 = Raise ValueError
  ∧ contents st = [new_record "Zed" "Greens" 9 9]
  ∧ contents after.2 = [new_record "Alice" "Reds" 3 1]
  ∧ contents after.2 ≠ contents st.
Proof. vm_compute. repeat split; discriminate. Qed.

(** C1, as the code has it.  [load_from_csv] empties the list before it
    opens the file.  When the file cannot be opened the exception of
    [open] is raised ([FileNotFoundError] for a file that does not exist)
    and the store is left empty.  Otherwise the rows are converted in
    order, each appending a new record: when all convert and the reader
    reaches the end of the file, the call returns and the store holds
    exactly the parsed sequence, which replaces the prior contents; when
    a row does not convert, the exception of that conversion is raised
    ([KeyError] for a name the header lacks, [TypeError] for a missing
    field, [ValueError] for a text that is no integer) and the store
    holds exactly the records of the rows before it; when the reader
    fails, which it does only on a file longer than the field limit,
    [csv.Error] is raised and the store holds the records of the rows
    read before. *)
Theorem load_from_csv_replaces_from_first_row {os : OS} (st : State)
    (filename : string) :
  let st' := (load_from_csv filename st).2 in
  match open_read filename with
  | inl x => load_from_csv filename st = (Raise x, set_players [] st)
  | inr file =>
      match files st !! file with
      | None => load_from_csv filename st = (Raise FileNotFoundError, set_players [] st)
      | Some text =>
          let rows := (DictReader (readlines text)).1 in
          let e := (DictReader (readlines text)).2 in
          ∃ good : list PlayerRecord,
            contents st' = good
            ∧ heap st' = heap st ++ good
            ∧ files st' = files st
            ∧ Forall2 (λ row player, record_of_row row = inr player)
                      (take (length good) rows) good
            ∧ match (load_from_csv filename st).1 with
              | Return _ => length good = length rows ∧ e = Exhausted
              | Raise x =>
                  (∃ row, rows !! length good = Some row
                          ∧ record_of_row row = inl x
                          ∧ (x = ValueError ∨ x = TypeError
                             ∨ ∃ key, key ∈ fieldnames ∧ x = KeyError key))
                  ∨ (length good = length rows ∧ e = Failed x ∧ x = CsvError
                     ∧ field_size_limit < Z.of_nat (String.length text))
              end
      end
  end.
Proof.
  cbn zeta. unfold load_from_csv.
  destruct (open_read filename) as [x|file]; [done|]. cbn [files set_players].
  destruct (files st !! file) as [text|]; [|done].
  pose proof (DictReader_fails text) as Hfail.
  destruct (DictReader (readlines text)) as [rows e]. cbn [fst snd] in *.
  destruct (load_loop_prefix rows e (set_players [] st)) as (good & Hst & Hall & Hout).
  exists good. rewrite Hst. cbn [heap players files set_players app].
  split; [apply contents_fresh|]. split; [done|]. split; [done|]. split; [done|].
  destruct (load_loop rows e (set_players [] st)).1 as [u|x]; [done|].
  destruct Hout as [(row & Hrow & Hx)|[Hlen Hend]]; [left|right].
  - exists row. split; [done|]. split; [done|]. by apply (record_of_row_inl row).
  - destruct (Hfail x Hend) as [-> Hlong]. done.
Qed.

(** The text written starts with the line of the four names. *)
Lemma csv_text_header (recs : list PlayerRecord) :
  ∃ rest, csv_text recs = ("Name,Team,Goals,Assists" +:+ lineterminator) +:+ rest
          ∧ head (readlines (csv_text recs))
            = Some ("Name,Team,Goals,Assists" +:+ lineterminator).
Proof.
  exists (concat_text (DictWriter_writerow fieldnames ∘ row_dict <$> recs)).
  rewrite csv_text_rows. unfold csv_rows, DictWriter_writeheader.
  rewrite header_fields.
  change (writerow (FStr <$> fieldnames))
    with ("Name,Team,Goals,Assists" +:+ lineterminator).
  split; [done|].
  generalize (concat_text (DictWriter_writerow fieldnames ∘ row_dict <$> recs)).
  intros rest. unfold lineterminator.
  repeat first [rewrite append_assoc | rewrite append_cons | rewrite append_nil_l].
  vm_compute. reflexivity.
Qed.

(** A file of one line at most, within the field limit, has no data row:
    whatever the line holds, the call returns and the store is empty. *)
Lemma load_header_only {os : OS} (st : State) (filename file text : string) :
  open_read filename = inr file → files st !! file = Some text →
  (length (readlines text) ≤ 1)%nat → within_limit text →
  load_from_csv filename st = (Return tt, set_players [] st).
Proof.
  intros Hopen Hfile Hone Hfit. unfold load_from_csv. rewrite Hopen.
  cbn [files set_players]. rewrite Hfile.
  pose proof (readlines_shape text) as Hshape.
  pose proof (readlines_length text) as Hlen.
  unfold within_limit in Hfit. rewrite <- Hlen in Hfit.
  destruct (readlines text) as [|line [|line' lines]]; [done| |cbn in Hone; lia].
  apply Forall_cons in Hshape as [Hline _].
  rewrite total_length_cons in Hfit. cbn [total_length foldr] in Hfit.
  unfold DictReader, reader_rows. cbn [reader_rows_from].
  destruct (process_line_shape line parse_reset Hline) as (r' & -> & Hst & _);
    [done|cbn [parse_reset field String.length]; lia|].
  destruct Hst as [Hst|Hst]; rewrite Hst; cbn [bool_decide decide_rel];
    [done|].
  rewrite orb_true_r. done.
Qed.

(** A data row under a header that lacks one of the four names gives no
    record: the call raises at the first data row at the latest. *)
Lemma load_missing_column {os : OS} (st : State) (filename file text : string)
    (names : list string) (rows : list (list string)) (e : ending) (key : string) :
  open_read filename = inr file → files st !! file = Some text →
  reader_rows (readlines text) = (names :: rows, e) →
  key ∈ fieldnames → key ∉ names →
  (∃ row, row ∈ rows ∧ row ≠ []) →
  raises (load_from_csv filename st).1 ∧ contents (load_from_csv filename st).2 = [].
Proof.
  intros Hopen Hfile Hrows Hkey Hnot (row & Hrow & Hne).
  unfold load_from_csv. rewrite Hopen. cbn [files set_players]. rewrite Hfile.
  unfold DictReader. rewrite Hrows.
  destruct (List.filter nonempty_row rows) as [|row0 rest] eqn:Ef.
  { exfalso. assert (Hin : In row (List.filter nonempty_row rows)).
    { apply List.filter_In. split; [by apply list_elem_of_In|by destruct row]. }
    by rewrite Ef in Hin. }
  cbn [fmap list_fmap load_loop].
  destruct (record_of_row (row_to_dict names row0)) as [x|r] eqn:E.
  - split; [by exists x|done].
  - destruct (record_of_row_inr _ _ E key Hkey) as [v Hv].
    by rewrite row_to_dict_lookup_notin in Hv.
Qed.

(** C5, counterexample: a file whose header has the four names in another
    order is loaded, and so is a file of a foreign header and no data
    row; neither call fails. *)
Lemma load_accepts_other_headers :
  let permuted := "Team,Name,Assists,Goals" +:+ lineterminator
                  +:+ "Reds,Alice,1,3" +:+ lineterminator in
  let foreign := "Player,Club" +:+ lineterminator in
  let st := mkState [] [] [] {[ "a.csv" := permuted; "b.csv" := foreign ]} in
  let load := load_from_csv (os := working_directory) in
  (load "a.csv" st).1 = Return tt
  ∧ contents (load "a.csv" st).2 = [new_record "Alice" "Reds" 3 1]
  ∧ (load "b.csv" st).1 = Return tt
  ∧ ¬ raises (load "a.csv" st).1
  ∧ ¬ raises (load "b.csv" st).1.
Proof.
  vm_compute. repeat split; try reflexivity; intros [e He]; discriminate He.
Qed.

(** C5, as the code has it.  When the file can be opened for writing,
    [save_to_csv] returns and the destination file holds the header line
    Name,Team,Goals,Assists as its first line (when it cannot, the
    exception of [open] is raised and no file changes).  [load_from_csv]
    takes the column names from the first row of the file and finds the
    four values of a record by name: a file written under any header
    that lists the four names, in any order and among any other columns,
    is loaded and gives the records back; a file of one line, whatever
    the line holds, is loaded and gives the empty store; under a header
    that lacks one of the four names a data row gives no record, and the
    call raises with the store left empty. *)
Theorem header_written_first_and_columns_read_by_name {os : OS} :
  (∀ (st : State) (filename : string),
     match open_write filename with
     | inr file =>
         (save_to_csv filename st).1 = Return tt
         ∧ ∃ text rest,
             files (save_to_csv filename st).2 !! file = Some text
             ∧ text = ("Name,Team,Goals,Assists" +:+ lineterminator) +:+ rest
             ∧ head (readlines text) = Some ("Name,Team,Goals,Assists" +:+ lineterminator)
     | inl x => save_to_csv filename st = (Raise x, st)
     end)
  ∧ (∀ (names : list string) (recs : list PlayerRecord) (filename file : string)
       (st : State),
       (∀ key, key ∈ fieldnames → key ∈ names) →
       Forall within_limit names →
       Forall typed_record recs → Forall fits_fields recs →
       open_read filename = inr file →
       files st !! file = Some (csv_rows names recs) →
       (load_from_csv filename st).1 = Return tt
       ∧ contents (load_from_csv filename st).2 = recs)
  ∧ (∀ (st : State) (filename file text : string),
       open_read filename = inr file → files st !! file = Some text →
       (length (readlines text) ≤ 1)%nat → within_limit text →
       (load_from_csv filename st).1 = Return tt
       ∧ contents (load_from_csv filename st).2 = [])
  ∧ (∀ (st : State) (filename file text : string) (names : list string)
       (rows : list (list string)) (e : ending) (key : string),
       open_read filename = inr file → files st !! file = Some text →
       reader_rows (readlines text) = (names :: rows, e) →
       key ∈ fieldnames → key ∉ names →
       (∃ row, row ∈ rows ∧ row ≠ []) →
       raises (load_from_csv filename st).1
       ∧ contents (load_from_csv filename st).2 = []).
Proof.
  split; [|split; [|split]].
  - intros st filename. unfold save_to_csv.
    destruct (open_write filename) as [x|file]; [done|].
    split; [done|]. cbn [snd set_files files]. rewrite lookup_insert_eq.
    destruct (csv_text_header (contents st)) as (rest & Htext & Hhead).
    by exists (csv_text (contents st)), rest.
  - intros names recs filename file st Hall Hnames Htyped Hfit Hopen Hfile.
    rewrite (load_written_file names recs filename file) by done. split; [done|].
    unfold contents. cbn [heap players snd].
    rewrite <- (length_fmap as_read recs), contents_fresh.
    by apply as_read_all_typed.
  - intros st filename file text Hopen Hfile Hone Hfit.
    by rewrite (load_header_only st filename file text).
  - intros st filename file text names rows e key. apply load_missing_column.
Qed.

Lemma header_written_first_and_columns_read_by_name_witness :
  let names := ["Id"; "Team"; "Goals"; "Name"; "Assists"] in
  let recs := [new_record "Bob, Jr" "Blues" 5 2] in
  let st := mkState [] [] [] {[ "p.csv" := csv_rows names recs ]} in
  (load_from_csv (os := working_directory) "p.csv" st).1 = Return tt
  ∧ contents (load_from_csv (os := working_directory) "p.csv" st).2 = recs.
Proof.
  intros names recs st.
  destruct (header_written_first_and_columns_read_by_name (os := working_directory))
    as (_ & H & _).
  apply (H names recs "p.csv" "p.csv" st).
  - apply Forall_forall. subst names. unfold fieldnames.
    repeat constructor; apply (bool_decide_unpack _); vm_compute; exact I.
  - subst names. repeat constructor; by vm_compute.
  - subst recs. repeat constructor; by eexists.
  - subst recs. repeat constructor; by vm_compute.
  - reflexivity.
  - subst st. cbn [files]. apply lookup_singleton_eq.
Defined.

(* ===================================================================== *)
(** * Further properties of the record store *)

(** ** delete_player at a valid index *)

(** X1. At a valid index [delete_player] returns normally and removes
    exactly that position: the list is one shorter, the positions before
    the index keep their objects, every later object moves down by one,
    and no record object changes. *)
Theorem delete_player_shifts (st : State) (index : Z) :
  0 <= index < Z.of_nat (length (players st)) →
  let i := Z.to_nat index in
  let st' := (delete_player index st).2 in
  (delete_player index st).1 = Return tt
  ∧ S (length (players st')) = length (players st)
  ∧ (∀ j : nat, (j < i)%nat → players st' !! j = players st !! j)
  ∧ (∀ j : nat, (i ≤ j)%nat → players st' !! j = players st !! S j)
  ∧ heap st' = heap st
  ∧ stdout st' = stdout st ++ ["Player deleted successfully."].
Proof.
  intros Hi i st'. apply valid_index_spec in Hi as Hv.
  subst st'. unfold delete_player. rewrite Hv. cbn [fst snd print set_players players heap stdout].
  fold i. split; [done|].
  split. { rewrite length_delete; [lia|]. apply lookup_lt_is_Some. lia. }
  split. { intros j Hj. by apply list_lookup_delete_lt. }
  split. { intros j Hj. by apply list_lookup_delete_ge. }
  done.
Qed.

Lemma delete_player_shifts_witness :
  let st := mkState [new_record "Alice" "Reds" 3 1; new_record "Bob" "Blues" 5 2;
                     new_record "Cy" "Reds" 3 0]
                    [0%nat; 1%nat; 2%nat] [] ∅ in
  players (delete_player 1 st).2 !! 0%nat = Some 0%nat
  ∧ players (delete_player 1 st).2 !! 1%nat = Some 2%nat.
Proof.
  intros st.
  destruct (delete_player_shifts st 1) as (_ & _ & Hlt & Hge & _).
  - cbn. lia.
  - split; [apply (Hlt 0%nat); cbn; lia|apply (Hge 1%nat); cbn; lia].
Defined.

(** ** edit_player applied twice *)

Lemma edit_again (r : PlayerRecord) (n t : option string) (g a : Z) :
  edit (edit r n t (Some g) (Some a)) n t (Some g) (Some a)
  = edit r n t (Some g) (Some a).
Proof. unfold edit. by destruct (truthy n), (truthy t). Qed.

Lemma edit_with_own_fields (r : PlayerRecord) :
  edit r (name r) (team r) (Some (goals r)) (Some (assists r)) = r.
Proof. destruct r as [n t g a]. unfold edit. cbn. by destruct (truthy n), (truthy t). Qed.

Lemma edit_player_valid (st : State) (index : Z) (u : ref) :
  valid_index index st = true →
  edit_player index u st
  = (Return tt,
     print "Player updated successfully."
       (set_heap
          (alter (λ r, edit r (name (deref (heap st) u)) (team (deref (heap st) u))
                          (Some (goals (deref (heap st) u)))
                          (Some (assists (deref (heap st) u))))
                 (players st !!! Z.to_nat index) (heap st)) st)).
Proof. intros H. unfold edit_player. by rewrite H. Qed.

Lemma edit_player_invalid (st : State) (index : Z) (u : ref) :
  valid_index index st = false →
  edit_player index u st = (Return tt, print "Invalid index." st).
Proof. intros H. unfold edit_player. by rewrite H. Qed.

(** X2. [edit_player] is idempotent: a second call with the same index
    and the same patch object changes no record and no position, also
    when the patch object is the edited object itself. *)
Theorem edit_player_idempotent (st : State) (index : Z) (u : ref) :
  let st1 := (edit_player index u st).2 in
  let st2 := (edit_player index u st1).2 in
  heap st2 = heap st1 ∧ players st2 = players st1 ∧ contents st2 = contents st1.
Proof.
  intros st1 st2.
  assert (Hh : heap st2 = heap st1 ∧ players st2 = players st1).
  { subst st2 st1.
    destruct (valid_index index st) eqn:Hv.
    2:{ rewrite (edit_player_invalid st index u Hv). cbn [snd].
        rewrite edit_player_invalid; [done|exact Hv]. }
    rewrite (edit_player_valid st index u Hv). cbn [snd].
    rewrite edit_player_valid by exact Hv.
    cbn [snd print set_heap heap players]. split; [|done].
    set (target := players st !!! Z.to_nat index).
    set (h := heap st). set (pu := deref h u).
    set (f := λ r, edit r (name pu) (team pu) (Some (goals pu)) (Some (assists pu))).
    set (h1 := alter f target h).
    apply list_eq. intros j. rewrite list_lookup_alter.
    case_decide as Hj; [|done]. subst j.
    subst h1. rewrite list_lookup_alter_eq.
    destruct (h !! target) as [old|] eqn:Eold; [|done].
    cbn [fmap option_fmap option_map]. f_equal.
    destruct (decide (u = target)) as [->|Hne].
    - assert (Hpu : pu = old).
      { subst pu. unfold deref. by apply list_lookup_total_correct. }
      assert (Hf : f old = old).
      { subst f. cbn beta. rewrite Hpu. apply edit_with_own_fields. }
      rewrite Hf.
      assert (Hd : deref (alter f target h) target = old).
      { unfold deref. apply list_lookup_total_correct.
        rewrite list_lookup_alter_eq, Eold.
        cbn [fmap option_fmap option_map]. by rewrite Hf. }
      rewrite Hd. apply edit_with_own_fields.
    - assert (Hd : deref (alter f target h) u = pu).
      { subst pu. unfold deref. rewrite !list_lookup_total_alt.
        by rewrite list_lookup_alter_ne. }
      rewrite Hd. subst f. cbn beta. apply edit_again. }
  destruct Hh as [Hh Hp]. split; [done|]. split; [done|].
  unfold contents. by rewrite Hh, Hp.
Qed.

(** ** Stores without aliasing *)

(** X3. In a store whose positions hold distinct objects, [edit_player]
    at a valid index leaves the record at every other index unchanged. *)
Theorem edit_player_other_indices (st : State) (index : Z) (u : ref) (j : nat) :
  NoDup (players st) →
  0 <= index < Z.of_nat (length (players st)) →
  j ≠ Z.to_nat index →
  contents (edit_player index u st).2 !! j = contents st !! j.
Proof.
  intros Hnd Hi Hj. apply valid_index_spec in Hi as Hv.
  rewrite edit_player_valid by done. cbn [snd]. unfold contents.
  cbn [heap players print set_heap]. rewrite !list_lookup_fmap.
  destruct (players st !! j) as [b|] eqn:Eb; [|done].
  cbn [fmap option_fmap option_map]. f_equal.
  assert (Ht : players st !! Z.to_nat index = Some (players st !!! Z.to_nat index))
    by (apply list_lookup_lookup_total_lt; lia).
  set (target := players st !!! Z.to_nat index) in *.
  assert (Hne : target ≠ b).
  { intros ->. apply Hj. by eapply NoDup_lookup. }
  unfold deref. rewrite !list_lookup_total_alt, list_lookup_alter_ne; done.
Qed.

Lemma edit_player_other_indices_witness :
  let st := mkState [new_record "Alice" "Reds" 3 1; new_record "Bob" "Blues" 5 2;
                     new_record "Zed" EmptyString 0 7]
                    [0%nat; 1%nat] [] ∅ in
  contents (edit_player 0 2%nat st).2 !! 1%nat = Some (new_record "Bob" "Blues" 5 2).
Proof.
  intros st.
  rewrite (edit_player_other_indices st 0 2%nat 1%nat); [reflexivity| |cbn; lia|discriminate].
  subst st. cbn. apply (bool_decide_unpack _). vm_compute. exact I.
Defined.

Lemma load_fresh_objects {os : OS} (st : State) (filename : string) :
  let st' := (load_from_csv filename st).2 in
  NoDup (players st')
  ∧ Forall (λ a : ref, (length (heap st) ≤ a < length (heap st'))%nat) (players st')
  ∧ wf st'
  ∧ (∀ a : ref, (a < length (heap st))%nat → heap st' !! a = heap st !! a).
Proof.
  cbn zeta. unfold load_from_csv.
  assert (Hempty : let st0 := set_players [] st in
            NoDup (players st0)
            ∧ Forall (λ a : ref, (length (heap st) ≤ a < length (heap st0))%nat)
                     (players st0)
            ∧ wf st0
            ∧ (∀ a : ref, (a < length (heap st))%nat → heap st0 !! a = heap st !! a)).
  { unfold wf. cbn. repeat split; constructor. }
  destruct (open_read filename) as [x|file]; [exact Hempty|].
  cbn [files set_players].
  destruct (files st !! file) as [text|]; cbn [snd]; [|exact Hempty].
  destruct (DictReader (readlines text)) as [rows e].
  destruct (load_loop_prefix rows e (set_players [] st)) as (good & Hst & _).
  rewrite Hst. unfold wf. cbn [heap players set_players app].
  split; [apply NoDup_seq|].
  assert (Hall : Forall (λ a : ref, (length (heap st) ≤ a < length (heap st ++ good))%nat)
                   (seq (length (heap st)) (length good))).
  { apply Forall_forall. intros a Ha. apply elem_of_seq in Ha.
    rewrite length_app. lia. }
  split; [exact Hall|]. split.
  - eapply Forall_impl; [exact Hall|]. cbn. intros; lia.
  - intros a Ha. by apply lookup_app_l.
Qed.

(** X4. Whatever the file and whatever the outcome, after [load_from_csv]
    the store holds newly created objects only, each at one position: the
    addresses are distinct and allocated, none is an object that existed
    before the call, and the objects that existed before are unchanged. *)
Theorem load_from_csv_fresh_objects {os : OS} (st : State) (filename : string) :
  let st' := (load_from_csv filename st).2 in
  NoDup (players st')
  ∧ Forall (λ a : ref, (length (heap st) ≤ a < length (heap st'))%nat) (players st')
  ∧ wf st'
  ∧ (∀ a : ref, (a < length (heap st))%nat → heap st' !! a = heap st !! a).
Proof. apply load_fresh_objects. Qed.

Lemma load_from_csv_fresh_objects_witness :
  let text := "Name,Team,Goals,Assists" +:+ lineterminator
              +:+ "Ann,Reds,1,2" +:+ lineterminator in
  let st := mkState [new_record "Old" "Blues" 0 0] [0%nat] [] {[ "p.csv" := text ]} in
  let after := (load_from_csv (os := working_directory) "p.csv" st).2 in
  players after = [1%nat]
  ∧ heap after !! 0%nat = Some (new_record "Old" "Blues" 0 0).
Proof.
  intros text st after. split; [vm_compute; reflexivity|].
  destruct (load_from_csv_fresh_objects (os := working_directory) st "p.csv")
    as (_ & _ & _ & H).
  etrans; [apply (H 0%nat); cbn; lia | reflexivity].
Defined.

(** ** The allocation invariant *)

Lemma Forall_sublist_of {A : Type} (P : A → Prop) (l k : list A) :
  l `sublist_of` k → Forall P k → Forall P l.
Proof.
  intros Hs Hk. apply Forall_forall. intros x Hx.
  rewrite Forall_forall in Hk. apply Hk. by eapply elem_of_sublist.
Qed.

(** X5. Every operation of the manager keeps the store well formed (each
    position holds an allocated object), [add_player] provided it is
    given an allocated object; the objects the two filters return are
    allocated too. *)
Theorem wf_preserved {os : OS} (st : State) :
  wf st →
  (∀ player : ref, (player < length (heap st))%nat → wf (add_player player st).2)
  ∧ (∀ index u, wf (edit_player index u st).2)
  ∧ (∀ index, wf (delete_player index st).2)
  ∧ (∀ filename, wf (save_to_csv filename st).2)
  ∧ (∀ filename, wf (load_from_csv filename st).2)
  ∧ (∀ lo hi asc r, (filter_by_goal_range lo hi asc st).1 = Return r →
       Forall (λ a : ref, (a < length (heap st))%nat) r)
  ∧ (∀ t r, (filter_by_team t st).1 = Return r →
       Forall (λ a : ref, (a < length (heap st))%nat) r).
Proof.
  intros Hwf. unfold wf in *.
  split. { intros p Hp. cbn. apply Forall_app. split; [done|by constructor]. }
  split.
  { intros index u. unfold edit_player. destruct (valid_index index st); cbn; [|done].
    by rewrite length_alter. }
  split.
  { intros index. unfold delete_player. destruct (valid_index index st); cbn; [|done].
    by apply Forall_delete. }
  split. { intros filename. unfold save_to_csv. by destruct (open_write filename). }
  split. { intros filename. apply load_fresh_objects. }
  split.
  { intros lo hi asc r [= <-]. rewrite list_sort_Permutation.
    eapply Forall_sublist_of; [apply sublist_filter|done]. }
  intros t r [= <-]. eapply Forall_sublist_of; [apply sublist_filter|done].
Qed.

Lemma wf_preserved_witness :
  let st := mkState [new_record "Alice" "Reds" 3 1; new_record "Bob" "Blues" 5 2]
                    [0%nat] [] ∅ in
  wf (add_player 1%nat st).2 ∧ wf (delete_player 0 st).2.
Proof.
  intros st.
  destruct (wf_preserved (os := working_directory) st) as (Ha & _ & Hd & _).
  - unfold wf. cbn. repeat constructor.
  - split; [apply Ha; cbn; lia|apply Hd].
Defined.

(** ** save_to_csv and the other files *)

Lemma contents_same (a b : State) :
  heap a = heap b → players a = players b → contents a = contents b.
Proof. unfold contents. by intros -> ->. Qed.

(** X6. A save does not disturb the other files: when the name saved to
    and the name loaded from denote different files, or when the save
    fails, a load after the save has the outcome it would have had
    without the save and leaves the same records. *)
Theorem save_to_csv_leaves_other_files {os : OS} (st st' : State)
    (saved loaded : string) :
  (∀ file, open_write saved = inr file → open_read loaded ≠ inr file) →
  files st' = files st →
  let st1 := (save_to_csv saved st).2 in
  (load_from_csv loaded (set_files (files st1) st')).1 = (load_from_csv loaded st').1
  ∧ contents (load_from_csv loaded (set_files (files st1) st')).2
    = contents (load_from_csv loaded st').2.
Proof.
  intros Hother Hfiles. cbn zeta. unfold save_to_csv.
  destruct (open_write saved) as [x|file] eqn:Ew; cbn [snd].
  { rewrite <- Hfiles. by destruct st'. }
  specialize (Hother file eq_refl).
  unfold load_from_csv. destruct (open_read loaded) as [y|file'] eqn:Er; [done|].
  cbn [files set_files set_players].
  rewrite lookup_insert_ne by congruence. rewrite Hfiles.
  destruct (files st !! file') as [text|]; [|done].
  destruct (DictReader (readlines text)) as [rows e].
  assert (Hsame : ∀ rows e (s1 s2 : State),
            heap s1 = heap s2 → players s1 = players s2 →
            (load_loop rows e s1).1 = (load_loop rows e s2).1
            ∧ heap (load_loop rows e s1).2 = heap (load_loop rows e s2).2
            ∧ players (load_loop rows e s1).2 = players (load_loop rows e s2).2).
  { clear. induction rows as [|row rows IH]; intros e s1 s2 Hh Hp.
    - by destruct e.
    - cbn [load_loop]. destruct (record_of_row row); [done|].
      apply IH; cbn; by rewrite ?Hh, ?Hp. }
  match goal with
  | |- (load_loop _ _ ?s1).1 = (load_loop _ _ ?s2).1 ∧ _ =>
      destruct (Hsame rows e s1 s2) as (H1 & H2 & H3); [done|done|]
  end.
  split; [exact H1|]. by apply contents_same.
Qed.

Lemma save_to_csv_leaves_other_files_witness :
  let text := "Name,Team,Goals,Assists" +:+ lineterminator
              +:+ "Ann,Reds,1,2" +:+ lineterminator in
  let st := mkState [new_record "Bob" "Blues" 5 2] [0%nat] [] {[ "q.csv" := text ]} in
  let st1 := (save_to_csv (os := working_directory) "p.csv" st).2 in
  contents (load_from_csv (os := working_directory) "./q.csv" st1).2
  = [new_record "Ann" "Reds" 1 2].
Proof.
  intros text st st1.
  destruct (save_to_csv_leaves_other_files (os := working_directory) st st
              "p.csv" "./q.csv") as [_ H].
  - intros file [= <-]. discriminate.
  - reflexivity.
  - etrans; [|etrans; [exact H|]]; vm_compute; reflexivity.
Defined.

(** ** Saving and loading without the typing assumption *)

(** X7. Let a name denote a file that can be opened for writing and for
    reading.  For every store whose texts fit into a field of the
    reader, saving and then loading the file returns normally and gives
    the records back with every [None] name or team replaced by the empty
    string ([as_read]); a record comes back unchanged exactly when its
    name and team are strings. *)
Theorem csv_round_trip_untyped {os : OS} (st : State) (filename file : string) :
  open_write filename = inr file →
  open_read filename = inr file →
  Forall fits_fields (contents st) →
  let st1 := (save_to_csv filename st).2 in
  (save_to_csv filename st).1 = Return tt
  ∧ (load_from_csv filename st1).1 = Return tt
  ∧ contents (load_from_csv filename st1).2 = as_read <$> contents st
  ∧ (∀ r : PlayerRecord,
       as_read r = mkPlayerRecord (Some (default EmptyString (name r)))
                                  (Some (default EmptyString (team r)))
                                  (goals r) (assists r))
  ∧ (∀ r : PlayerRecord, as_read r = r ↔ typed_record r).
Proof.
  intros Hw Hr Hfit st1. subst st1. unfold save_to_csv. rewrite Hw. cbn [fst snd].
  split; [done|].
  set (st1 := set_files _ st).
  assert (Hload : load_from_csv filename st1
    = (Return tt, mkState (heap st1 ++ (as_read <$> contents st))
                          (seq (length (heap st1)) (length (contents st)))
                          (stdout st1) (files st1))).
  { apply (load_written_file fieldnames _ _ file); try done.
    - unfold fieldnames. repeat constructor; by vm_compute.
    - subst st1. cbn [set_files files]. by rewrite lookup_insert_eq. }
  rewrite Hload. split; [done|]. split.
  { unfold contents at 1. cbn [heap players snd].
    by rewrite <- (length_fmap as_read (contents st)), contents_fresh. }
  assert (Has : ∀ r : PlayerRecord,
       as_read r = mkPlayerRecord (Some (default EmptyString (name r)))
                                  (Some (default EmptyString (team r)))
                                  (goals r) (assists r)).
  { intros r. unfold as_read. destruct (cell_values r) as (-> & -> & _ & _).
    by destruct (name r), (team r). }
  split; [exact Has|].
  intros r. split.
  - intros H. rewrite Has in H. destruct r as [n t g a]. cbn in H.
    injection H as <- <-. split; by eexists.
  - apply as_read_typed.
Qed.

(** A record loaded from a short row has no team; saved and loaded
    again, its team is the empty string. *)
Lemma csv_round_trip_untyped_witness :
  let st := mkState [mkPlayerRecord (Some "Ann") None 1 2] [0%nat] [] ∅ in
  let st1 := (save_to_csv (os := working_directory) "p.csv" st).2 in
  contents (load_from_csv (os := working_directory) "p.csv" st1).2
  = [mkPlayerRecord (Some "Ann") (Some EmptyString) 1 2].
Proof.
  intros st st1.
  destruct (csv_round_trip_untyped (os := working_directory) st "p.csv" "p.csv")
    as (_ & _ & H & _).
  - reflexivity.
  - reflexivity.
  - subst st. unfold contents. cbn. repeat constructor; by vm_compute.
  - etrans; [exact H|]. vm_compute. reflexivity.
Defined.

(** ** Statistics and the order of the records *)

Lemma sum_Z_Permutation (l k : list Z) : l ≡ₚ k → sum_Z l = sum_Z k.
Proof.
  induction 1 as [|x l k _ IH|x y l|l k m _ IH1 _ IH2]; cbn; try lia.
  unfold sum_Z in *. cbn. lia.
Qed.

Lemma mean_Permutation (l k : list Z) : l ≡ₚ k → mean l = mean k.
Proof.
  intros Hp. unfold mean.
  rewrite (sum_Z_Permutation l k Hp), (Permutation_length Hp).
  destruct l as [|x l], k as [|y k]; try done.
  - by apply Permutation_nil_cons in Hp.
  - by apply Permutation_sym, Permutation_nil_cons in Hp.
Qed.

Lemma sorted_Permutation (l k : list Z) : l ≡ₚ k → sorted l = sorted k.
Proof.
  intros Hp. unfold sorted. apply sorted_unique.
  - by rewrite !list_sort_Permutation.
  - apply (list_sort_sorted id false).
  - apply (list_sort_sorted id false).
Qed.

(** X8. The two statistics do not depend on the order of the records:
    two stores whose records are permutations of each other give the same
    average of goals and the same median of assists. *)
Theorem statistics_order_independent (st1 st2 : State) :
  contents st1 ≡ₚ contents st2 →
  (calculate_average_goals st1).1 = (calculate_average_goals st2).1
  ∧ (calculate_median_assists st1).1 = (calculate_median_assists st2).1.
Proof.
  intros Hp. unfold calculate_average_goals, calculate_median_assists.
  assert (Hl := Permutation_length Hp). unfold contents in Hl.
  rewrite !length_fmap in Hl.
  destruct (players st1) as [|a1 l1] eqn:E1, (players st2) as [|a2 l2] eqn:E2;
    try done; cbn [fst].
  split.
  - by rewrite (mean_Permutation _ _ (fmap_Permutation goals _ _ Hp)).
  - unfold median.
    by rewrite (sorted_Permutation _ _ (fmap_Permutation assists _ _ Hp)).
Qed.

Lemma statistics_order_independent_witness :
  let h := [new_record "Alice" "Reds" 3 1; new_record "Bob" "Blues" 5 2;
            new_record "Cy" "Reds" 4 9] in
  (calculate_median_assists (mkState h [0%nat; 1%nat; 2%nat] [] ∅)).1
  = (calculate_median_assists (mkState h [2%nat; 0%nat; 1%nat] [] ∅)).1.
Proof.
  intros h.
  apply (statistics_order_independent (mkState h [0%nat; 1%nat; 2%nat] [] ∅)
           (mkState h [2%nat; 0%nat; 1%nat] [] ∅)).
  unfold contents. cbn.
  symmetry. apply (Permutation_cons_append [_; _]).
Defined.

(** ** Statistics lie between the extremes *)

Lemma sum_Z_bounds (lo hi : Z) (l : list Z) :
  Forall (λ x, lo <= x <= hi) l →
  lo * Z.of_nat (length l) <= sum_Z l <= hi * Z.of_nat (length l).
Proof.
  induction 1 as [|x l Hx _ IH]; cbn [length sum_Z foldr]; [lia|].
  unfold sum_Z in IH. lia.
Qed.

(** A quotient between two integers of at most 53 bits is below the
    size at which division overflows. *)
Lemma bounded_below_overflow (q : Q) (lo hi : Z) :
  - 2 ^ 53 <= lo → hi <= 2 ^ 53 →
  (inject_Z lo <= q <= inject_Z hi)%Q → (Qabs q < inject_Z float_overflow)%Q.
Proof.
  intros Hlo Hhi [H1 H2].
  apply (Qle_lt_trans _ (inject_Z (2 ^ 53))); [|by rewrite <- Zlt_Qlt].
  apply Qabs_Qle_condition. split.
  - eapply Qle_trans; [|exact H1]. rewrite <- inject_Z_opp, <- Zle_Qle. lia.
  - eapply Qle_trans; [exact H2|]. by rewrite <- Zle_Qle.
Qed.

(** What is returned for a quotient between two such integers lies
    between them. *)
Lemma rounded_within_bounds (q : Q) (lo hi : Z) (o : outcome pynum) :
  - 2 ^ 53 <= lo → hi <= 2 ^ 53 →
  (inject_Z lo <= q <= inject_Z hi)%Q →
  match o with
  | Return (PyInt z) => (inject_Z z == q)%Q
  | Return (PyFloat y) => nearest_float q y
  | Raise e => e = OverflowError ∧ (inject_Z float_overflow <= Qabs q)%Q
  end →
  ∃ x, o = Return x ∧ (inject_Z lo <= num_value x <= inject_Z hi)%Q.
Proof.
  intros Hlo Hhi Hq Hcase.
  assert (Hle : lo <= hi).
  { rewrite Zle_Qle. destruct Hq as [H1 H2]. by eapply Qle_trans. }
  destruct o as [[z|y]|e].
  - eexists. split; [done|]. cbn [num_value]. by rewrite Hcase.
  - eexists. split; [done|]. cbn [num_value]. destruct Hq as [H1 H2]. split.
    + eapply nearest_float_ge; [done| |done]. apply binary64_int. lia.
    + eapply nearest_float_le; [done| |done]. apply binary64_int. lia.
  - destruct Hcase as [_ Hbig].
    pose proof (bounded_below_overflow q lo hi Hlo Hhi Hq) as Hsmall.
    by apply Qlt_not_le in Hsmall.
Qed.

(** X9. For a store with records whose goals all lie between [lo] and
    [hi], two integers of at most 53 bits, the average of goals is
    returned and lies between [lo] and [hi]: rounding to the nearest
    float does not leave the interval. *)
Theorem average_goals_within_bounds (st : State) (lo hi : Z) :
  players st ≠ [] →
  - 2 ^ 53 <= lo → hi <= 2 ^ 53 →
  Forall (λ r, lo <= goals r <= hi) (contents st) →
  ∃ x, (calculate_average_goals st).1 = Return x
       ∧ (inject_Z lo <= num_value x <= inject_Z hi)%Q.
Proof.
  intros Hne Hlo Hhi Hall. unfold calculate_average_goals, contents in *.
  destruct (players st) as [|a l]; [done|]. cbn [fst fmap list_fmap] in *.
  destruct (mean_spec (goals (deref (heap st) a))
              (goals <$> (deref (heap st) <$> l))) as (Hcase & _ & _).
  cbn zeta in Hcase.
  set (data := goals (deref (heap st) a) :: (goals <$> (deref (heap st) <$> l))) in *.
  apply (rounded_within_bounds
           (inject_Z (sum_Z data) / inject_Z (Z.of_nat (length data)))
           lo hi _ Hlo Hhi); [|exact Hcase].
  assert (Hb : lo * Z.of_nat (length data) <= sum_Z data <= hi * Z.of_nat (length data)).
  { apply sum_Z_bounds. subst data. apply Forall_cons.
    inversion Hall as [|? ? H1 H2]; subst.
    split; [done|]. by apply Forall_fmap. }
  assert (Hn : (0 < inject_Z (Z.of_nat (length data)))%Q).
  { rewrite <- (Zlt_Qlt 0). subst data. cbn [length]. lia. }
  split.
  - apply Qle_shift_div_l; [done|]. rewrite <- inject_Z_mult, <- Zle_Qle. lia.
  - apply Qle_shift_div_r; [done|]. rewrite <- inject_Z_mult, <- Zle_Qle. lia.
Qed.

Lemma average_goals_within_bounds_witness :
  let st := mkState [new_record "Alice" "Reds" 3 1; new_record "Bob" "Blues" 5 2;
                     new_record "Cy" "Reds" 3 0]
                    [0%nat; 1%nat; 2%nat] [] ∅ in
  ∃ x, (calculate_average_goals st).1 = Return x ∧ (3 <= num_value x <= 5)%Q.
Proof.
  intros st. apply (average_goals_within_bounds st 3 5).
  - discriminate.
  - done.
  - done.
  - unfold contents. cbn. repeat constructor; cbn; lia.
Defined.

(** X10. For a store with records whose assists all lie between [lo] and
    [hi], two integers of at most 53 bits, the median of assists is
    returned and lies between [lo] and [hi]. *)
Theorem median_assists_within_bounds (st : State) (lo hi : Z) :
  players st ≠ [] →
  - 2 ^ 53 <= lo → hi <= 2 ^ 53 →
  Forall (λ r, lo <= assists r <= hi) (contents st) →
  ∃ x, (calculate_median_assists st).1 = Return x
       ∧ (inject_Z lo <= num_value x <= inject_Z hi)%Q.
Proof.
  intros Hne Hlo Hhi Hall. unfold calculate_median_assists.
  destruct (players st) as [|a l] eqn:E; [done|]. cbn [fst].
  set (data := assists <$> contents st).
  assert (Hdata : data ≠ []).
  { subst data. unfold contents. by rewrite E. }
  assert (Hs : Forall (λ x, lo <= x <= hi) (sorted data)).
  { unfold sorted. rewrite list_sort_Permutation. subst data. by apply Forall_fmap. }
  assert (Hperm : sorted data ≡ₚ data).
  { unfold sorted. apply list_sort_Permutation. }
  assert (Hlen : length (sorted data) ≠ 0%nat).
  { intros H0. apply length_zero_iff_nil in H0. rewrite H0 in Hperm.
    by apply Permutation_nil in Hperm. }
  assert (Hin : ∀ i, (i < length (sorted data))%nat →
                 lo <= sorted data !!! i <= hi).
  { intros i Hi. rewrite Forall_lookup in Hs. apply (Hs i).
    by apply list_lookup_lookup_total_lt. }
  pose proof (median_spec (sorted data) data Hdata Hperm
                (list_sort_sorted id false data)) as Hm.
  set (s := sorted data) in *.
  assert (Hk : (length s / 2 < length s)%nat) by (apply Nat.div_lt; lia).
  destruct (Nat.even (length s)) eqn:Ev.
  - destruct Hm as [Hcase _].
    apply (rounded_within_bounds (median_of_sorted s) lo hi _ Hlo Hhi).
    + unfold median_of_sorted. rewrite Ev.
      pose proof (Hin (length s / 2)%nat Hk) as H1.
      pose proof (Hin (length s / 2 - 1)%nat ltac:(lia)) as H2.
      set (x1 := s !!! (length s / 2 - 1)%nat) in *.
      set (x2 := s !!! (length s / 2)%nat) in *.
      unfold Qle, Qdiv, Qmult, Qplus, Qinv, inject_Z. cbn [Qnum Qden]. lia.
    + by destruct (median data) as [[z|y]|e].
  - destruct Hm as [-> _]. eexists. split; [done|]. cbn [num_value].
    rewrite <- !Zle_Qle. by apply Hin.
Qed.

Lemma median_assists_within_bounds_witness :
  let st := mkState [new_record "Alice" "Reds" 3 1; new_record "Bob" "Blues" 5 2]
                    [0%nat; 1%nat] [] ∅ in
  ∃ x, (calculate_median_assists st).1 = Return x ∧ (1 <= num_value x <= 2)%Q.
Proof.
  intros st. apply (median_assists_within_bounds st 1 2).
  - discriminate.
  - done.
  - done.
  - unfold contents. cbn. repeat constructor; cbn; lia.
Defined.

(** ** Filters *)

Lemma filter_all {A : Type} (P : A → Prop) `{∀ x, Decision (P x)} (l : list A) :
  Forall P l → filter P l = l.
Proof.
  induction 1 as [|x l Hx _ IH]; [done|]. by rewrite filter_cons_True, IH.
Qed.

Lemma filter_iff {A : Type} (P Q : A → Prop) `{∀ x, Decision (P x)}
    `{∀ x, Decision (Q x)} (l : list A) :
  (∀ x, P x ↔ Q x) → filter P l = filter Q l.
Proof.
  intros HPQ. induction l as [|x l IH]; [done|].
  rewrite !filter_cons, IH. specialize (HPQ x).
  repeat case_decide; tauto.
Qed.

(** X11. A range of one value returns the records with exactly that many
    goals in the order they have in the store, whichever direction of
    sorting is asked for. *)
Theorem filter_by_goal_range_single_value (st : State) (g : Z) (ascending : bool) :
  (filter_by_goal_range g g ascending st).1
  = Return (filter (λ a, goals (deref (heap st) a) = g) (players st)).
Proof.
  unfold filter_by_goal_range. cbn [fst]. f_equal.
  set (key := λ a : ref, goals (deref (heap st) a)).
  set (subset := filter (in_goal_range (heap st) g g) (players st)).
  assert (Hsub : subset = filter (λ a, key a = g) (players st)).
  { subst subset. apply filter_iff. intros a. unfold in_goal_range. subst key. cbn. lia. }
  assert (Hall : Forall (λ a, key a = g) (list_sort key (negb ascending) subset)).
  { rewrite list_sort_Permutation, Hsub. apply Forall_forall. intros a Ha.
    by apply list_elem_of_filter in Ha as [Ha _]. }
  rewrite <- (filter_all _ _ Hall), list_sort_stable, Hsub.
  apply filter_all. apply Forall_forall. intros a Ha.
  by apply list_elem_of_filter in Ha as [Ha _].
Qed.

(** X12. [filter_by_team] returns normally and leaves the state as it
    was; the result holds exactly the objects of the store whose team is
    the given string, in the order of the store; after [add_player] the
    result is the former one, followed by the added object when its team
    matches. *)
Theorem filter_by_team_spec (st : State) (t : string) :
  ∃ result : list ref,
    filter_by_team t st = (Return result, st)
    ∧ (∀ a : ref, a ∈ result ↔ a ∈ players st ∧ team (deref (heap st) a) = Some t)
    ∧ result `sublist_of` players st
    ∧ (∀ player : ref,
         (filter_by_team t (add_player player st).2).1
         = Return (result ++ if decide (team (deref (heap st) player) = Some t)
                             then [player] else [])).
Proof.
  eexists. split; [reflexivity|].
  split. { intros a. rewrite list_elem_of_filter. tauto. }
  split; [apply sublist_filter|].
  intros player. unfold filter_by_team, add_player.
  cbn [fst snd print set_players heap players]. f_equal.
  rewrite filter_app. f_equal.
Qed.

(** ** The exceptions of load_from_csv *)

(** X13. What [load_from_csv] raises: the exception of [open] when the
    file cannot be opened; [FileNotFoundError] when the file the name
    denotes does not exist; [KeyError] for one of the four column names,
    [TypeError] or [ValueError] from the conversion of a row; and
    [csv.Error] from the reader, which happens only when the file is
    longer than the field limit. *)
Theorem load_from_csv_exceptions {os : OS} (st : State) (filename : string)
    (x : exn) :
  (load_from_csv filename st).1 = Raise x →
  match open_read filename with
  | inl y => x = y
  | inr file =>
      match files st !! file with
      | None => x = FileNotFoundError
      | Some text =>
          x = ValueError ∨ x = TypeError
          ∨ (∃ key, key ∈ fieldnames ∧ x = KeyError key)
          ∨ (x = CsvError ∧ field_size_limit < Z.of_nat (String.length text))
      end
  end.
Proof.
  unfold load_from_csv.
  destruct (open_read filename) as [y|file]; [by intros [= <-]|].
  cbn [files set_players].
  destruct (files st !! file) as [text|] eqn:Ef; [|by intros [= <-]].
  intros Hx.
  pose proof (DictReader_fails text) as Hfail.
  destruct (DictReader (readlines text)) as [rows e]. cbn [snd] in Hfail.
  destruct (load_loop_prefix rows e (set_players [] st)) as (good & _ & _ & Hout).
  rewrite Hx in Hout. destruct Hout as [(row & _ & Hrow)|[_ He]].
  - destruct (record_of_row_inl row x Hrow) as [H|[H|H]]; tauto.
  - right. right. right. by apply Hfail.
Qed.

Lemma load_from_csv_exceptions_witness :
  let text := "Player,Club" +:+ lineterminator +:+ "Alice,Reds" +:+ lineterminator in
  let st := mkState [] [] [] {[ "p.csv" := text ]} in
  ∃ key, key ∈ fieldnames
         ∧ (load_from_csv (os := working_directory) "p.csv" st).1 = Raise (KeyError key).
Proof.
  intros text st.
  pose proof (load_from_csv_exceptions (os := working_directory) st "p.csv"
                (KeyError "Name")) as H.
  destruct H as [H|[H|[H|[H _]]]]; try discriminate H.
  - vm_compute. reflexivity.
  - destruct H as (key & Hin & [= <-]). exists "Name". split; [exact Hin|].
    vm_compute. reflexivity.
Defined.

(** ** Blank lines in a file *)

Lemma reader_rows_blank_line (s : string) :
  reader_rows (readlines (lineterminator +:+ s))
  = yield [] (reader_rows (readlines s)).
Proof.
  unfold lineterminator. rewrite !append_cons, append_nil_l.
  cbn [readlines]. change (Ascii.eqb CR LF) with false.
  rewrite !Ascii.eqb_refl. unfold reader_rows at 1.
  cbn [reader_rows_from process_line].
  change (parse_process_char (Chr CR) parse_reset)
    with (Some (set_state EAT_CRNL parse_reset)).
  change (parse_process_char (Chr LF) (set_state EAT_CRNL parse_reset))
    with (Some (set_state EAT_CRNL parse_reset)).
  change (parse_process_char EOL (set_state EAT_CRNL parse_reset))
    with (Some parse_reset).
  cbn. unfold yield, reader_rows.
  by destruct (reader_rows_from parse_reset (readlines s)).
Qed.

(** X14. A blank line between the rows of a file is skipped: the file
    written for a sequence of records, with an empty line put between
    two of its rows (or after the last), loads as the same sequence.
    The file is one that can be opened for reading, and the texts of the
    header and of the records fit into a field of the reader. *)
Theorem load_from_csv_skips_blank_line {os : OS} (names : list string)
    (recs1 recs2 : list PlayerRecord) (filename file : string) (st : State) :
  (∀ key, key ∈ fieldnames → key ∈ names) →
  Forall typed_record (recs1 ++ recs2) →
  Forall within_limit names →
  Forall fits_fields (recs1 ++ recs2) →
  open_read filename = inr file →
  files st !! file
  = Some (csv_rows names recs1
          +:+ (lineterminator
               +:+ concat_text (DictWriter_writerow names ∘ row_dict <$> recs2))) →
  (load_from_csv filename st).1 = Return tt
  ∧ contents (load_from_csv filename st).2 = recs1 ++ recs2.
Proof.
  intros Hall Htyped Hnames Hfit Hopen Hfile. unfold load_from_csv.
  rewrite Hopen. cbn [files set_players].
  rewrite Hfile. pose proof (fieldnames_in_length names Hall) as Hlen.
  apply Forall_app in Hfit as [Hfit1 Hfit2].
  assert (Hrows : reader_rows (readlines
      (csv_rows names recs1
       +:+ (lineterminator
            +:+ concat_text (DictWriter_writerow names ∘ row_dict <$> recs2))))
    = (names :: ((λ player, cell player <$> names) <$> recs1)
             ++ [] :: ((λ player, cell player <$> names) <$> recs2), Exhausted)).
  { unfold csv_rows, DictWriter_writeheader. rewrite header_fields, !append_assoc.
    rewrite reader_rows_writerow.
    2:{ by rewrite length_fmap. }
    2:{ by rewrite fieldnames_text. }
    rewrite reader_rows_written_rows, reader_rows_blank_line by done.
    rewrite <- (append_nil_r (concat_text _)).
    rewrite reader_rows_written_rows by done.
    unfold yield. cbn [fst snd readlines]. by rewrite app_nil_r, fieldnames_text. }
  unfold DictReader. rewrite Hrows.
  assert (Hfilter : List.filter nonempty_row
      (((λ player, cell player <$> names) <$> recs1)
       ++ [] :: ((λ player, cell player <$> names) <$> recs2))
    = (λ player, cell player <$> names) <$> (recs1 ++ recs2)).
  { rewrite List.filter_app. cbn [List.filter nonempty_row].
    rewrite !filter_nonempty_rows, fmap_app; [done| |];
      intros player; destruct names; cbn in Hlen; (lia || done). }
  rewrite Hfilter, <- list_fmap_compose.
  rewrite (load_loop_all _ (as_read <$> (recs1 ++ recs2))).
  - split; [done|]. unfold contents. cbn [snd heap players set_players app].
    rewrite contents_fresh.
    by apply as_read_all_typed.
  - apply Forall2_fmap. apply Forall2_same_length_lookup. split; [done|].
    intros i x y Hx Hy. rewrite Hx in Hy. injection Hy as <-.
    exact (record_of_written_row names x Hall).
Qed.

Lemma load_from_csv_skips_blank_line_witness :
  let recs1 := [new_record "Alice" "Reds" 3 1] in
  let recs2 := [new_record "Bob, Jr" "Blues" 5 2] in
  let text := csv_rows fieldnames recs1
              +:+ (lineterminator
                   +:+ concat_text (DictWriter_writerow fieldnames ∘ row_dict <$> recs2)) in
  let st := mkState [] [] [] {[ "p.csv" := text ]} in
  contents (load_from_csv (os := working_directory) "p.csv" st).2 = recs1 ++ recs2.
Proof.
  intros recs1 recs2 text st.
  apply (load_from_csv_skips_blank_line (os := working_directory)
           fieldnames recs1 recs2 "p.csv" "p.csv" st).
  - done.
  - subst recs1 recs2. repeat constructor; by eexists.
  - unfold fieldnames. repeat constructor; by vm_compute.
  - subst recs1 recs2. repeat constructor; by vm_compute.
  - reflexivity.
  - subst st. cbn [files]. apply lookup_singleton_eq.
Defined.

(** ** The registry of instances *)

(** X15. Constructions never create a second manager: after the first
    [PlayerManager()] any number of further constructions changes
    nothing, so the process holds at most one manager object more than
    before the first; and a registry whose instances are allocated stays
    so through constructions and method calls. *)
Theorem one_manager_object (P : Process) (k : nat) :
  let P1 := (PlayerManager_new P).2 in
  Nat.iter k (λ Q, (PlayerManager_new Q).2) P1 = P1
  ∧ (length (managers P1) ≤ S (length (managers P)))%nat
  ∧ (registry_ok P → registry_ok P1)
  ∧ (∀ (m : nat) (player : ref),
       registry_ok P → registry_ok (invoke m (add_player player) P).2).
Proof.
  intros P1.
  assert (Hreg : _instances P1 !! "PlayerManager" = Some (PlayerManager_new P).1).
  { subst P1. unfold PlayerManager_new, SingletonMeta_call.
    destruct (_instances P !! "PlayerManager") as [m|] eqn:E; cbn; [done|].
    apply lookup_insert_eq. }
  split.
  { induction k as [|k IH]; [done|]. rewrite Nat.iter_succ, IH.
    by rewrite (PlayerManager_new_registered P1 _ Hreg). }
  split.
  { subst P1. unfold PlayerManager_new, SingletonMeta_call.
    destruct (_instances P !! "PlayerManager"); cbn; [lia|].
    rewrite length_app. cbn. lia. }
  split.
  { intros Hok. subst P1. unfold PlayerManager_new, SingletonMeta_call.
    destruct (_instances P !! "PlayerManager") as [m|] eqn:E; cbn; [done|].
    intros cls m. cbn. rewrite length_app. cbn.
    destruct (decide (cls = "PlayerManager")) as [->|Hne].
    - rewrite lookup_insert_eq. intros [= <-]. lia.
    - rewrite lookup_insert_ne by done. intros Hm. apply Hok in Hm. lia. }
  intros m player Hok cls m'. cbn. rewrite length_insert. apply Hok.
Qed.

Lemma one_manager_object_witness :
  registry_ok (PlayerManager_new fresh_process).2
  ∧ length (managers (Nat.iter 3 (λ Q, (PlayerManager_new Q).2)
                        (PlayerManager_new fresh_process).2)) = 1%nat.
Proof.
  destruct (one_manager_object fresh_process 3) as (Hiter & _ & Hok & _).
  split.
  - apply Hok. intros cls m Hm. unfold fresh_process in Hm. cbn in Hm.
    rewrite lookup_empty in Hm. discriminate Hm.
  - rewrite Hiter. reflexivity.
Defined.

(* ===================================================================== *)
(** * Properties of the console *)

(** ** Properties kept by every method *)

Lemma keeps_ret {A : Type} (I : Console → Prop) (a : A) : keeps I (ret a).
Proof. by intros c H. Qed.

Lemma keeps_raise {A : Type} (I : Console → Prop) (e : console_exn) :
  keeps I (@raise A e).
Proof. by intros c H. Qed.

Lemma keeps_get {A : Type} (I : Console → Prop) (f : State → A) : keeps I (get f).
Proof. by intros c H. Qed.

Lemma keeps_int (I : Console → Prop) (text : string) : keeps I (int text).
Proof. unfold int. destruct (int_of_str text); [apply keeps_ret|apply keeps_raise]. Qed.

Lemma keeps_bind {A B : Type} (I : Console → Prop) (m : M A) (k : A → M B) :
  keeps I m → (∀ a, keeps I (k a)) → keeps I (bind m k).
Proof.
  intros Hm Hk c Hc. unfold bind. specialize (Hm c Hc).
  destruct (m c) as [[a|e] c']; cbn in *; [by apply Hk|done].
Qed.

Section Kept.
Context {os : OS}.
Variable I : Console → Prop.
Hypothesis I_print : ∀ line, keeps I (console_print line).
Hypothesis I_input : ∀ prompt, keeps I (input prompt).
Hypothesis I_new : ∀ r, keeps I (PlayerRecord_new r).
Hypothesis I_add :
  ∀ r, keeps I (bind (PlayerRecord_new r) (λ player, on_manager (add_player player))).
Hypothesis I_edit : ∀ index u, keeps I (on_manager (edit_player index u)).
Hypothesis I_delete : ∀ index, keeps I (on_manager (delete_player index)).
Hypothesis I_save : ∀ filename, keeps I (on_manager (save_to_csv filename)).
Hypothesis I_load : ∀ filename, keeps I (on_manager (load_from_csv filename)).

Lemma keeps_unchanged {A : Type} (method : State → outcome A * State) :
  (∀ st, (method st).2 = st) → keeps I (on_manager method).
Proof.
  intros Hm c Hc. unfold on_manager. specialize (Hm (manager c)).
  destruct (method (manager c)) as [o st]. cbn in *. subst st. by destruct c.
Qed.

Lemma keeps_display (player : ref) : keeps I (on_manager (display player)).
Proof. intros c Hc. apply (I_print (display_text (deref (heap (manager c)) player)) c Hc). Qed.

Lemma keeps_print_lines (lines : list string) : keeps I (print_lines lines).
Proof.
  induction lines as [|line lines IH]; [apply keeps_ret|].
  apply keeps_bind; [apply I_print|done].
Qed.

Lemma keeps_display_each (ps : list ref) : keeps I (display_each ps).
Proof.
  induction ps as [|p ps IH]; [apply keeps_ret|].
  apply keeps_bind; [apply keeps_display|done].
Qed.

Lemma keeps_display_rows (ps : list ref) (index : nat) : keeps I (display_rows index ps).
Proof.
  revert index. induction ps as [|p ps IH]; intros index; [apply keeps_ret|].
  cbn [display_rows]. apply keeps_bind; [apply keeps_get|]. intros r.
  destruct (name r), (team r); try apply keeps_raise.
  apply keeps_bind; [apply I_print|done].
Qed.

Lemma keeps_display_all_players : keeps I display_all_players.
Proof.
  apply keeps_bind; [apply keeps_get|]. intros [|p ps]; [apply I_print|].
  repeat (apply keeps_bind; [apply I_print|intros _]).
  apply keeps_display_rows.
Qed.

Lemma keeps_calculate (rt : Builtins) :
  keeps I (calculate_average_goals_and_median_assists rt).
Proof.
  apply keeps_bind.
  { apply keeps_unchanged. intros st. unfold calculate_average_goals.
    by destruct (players st). }
  intros x. apply keeps_bind.
  { apply keeps_unchanged. intros st. unfold calculate_median_assists.
    by destruct (players st). }
  intros y. apply keeps_bind; [apply I_print|intros _; apply I_print].
Qed.

Lemma keeps_filter_by_team : keeps I ConsoleApp_filter_by_team.
Proof.
  apply keeps_bind; [apply I_input|]. intros t.
  apply keeps_bind; [by apply keeps_unchanged|]. intros [|p ps]; [apply I_print|].
  apply keeps_bind; [apply I_print|intros _; apply keeps_display_each].
Qed.

Lemma keeps_filter_by_goal_range : keeps I ConsoleApp_filter_by_goal_range.
Proof.
  apply keeps_bind; [apply I_input|]. intros lo_text.
  apply keeps_bind; [apply keeps_int|]. intros lo.
  apply keeps_bind; [apply I_input|]. intros hi_text.
  apply keeps_bind; [apply keeps_int|]. intros hi.
  apply keeps_bind; [by apply keeps_unchanged|]. intros [|p ps]; [apply I_print|].
  apply keeps_bind; [apply I_print|intros _; apply keeps_display_each].
Qed.

Lemma keeps_save : keeps I ConsoleApp_save_to_csv.
Proof.
  apply keeps_bind; [apply I_input|]. intros f.
  apply keeps_bind; [apply I_save|intros _; apply I_print].
Qed.

Lemma keeps_load : keeps I ConsoleApp_load_from_csv.
Proof.
  apply keeps_bind; [apply I_input|]. intros f.
  apply keeps_bind; [apply I_load|intros _; apply I_print].
Qed.

Lemma keeps_delete : keeps I ConsoleApp_delete_player.
Proof.
  apply keeps_bind; [apply I_input|]. intros text.
  apply keeps_bind; [apply keeps_int|]. intros index.
  apply keeps_bind; [apply keeps_get|]. intros [|]; [|apply I_print].
  apply keeps_bind; [apply I_delete|intros _; apply I_print].
Qed.

Lemma keeps_edit : keeps I ConsoleApp_edit_player.
Proof.
  apply keeps_bind; [apply I_input|]. intros text.
  apply keeps_bind; [apply keeps_int|]. intros index.
  apply keeps_bind; [apply keeps_get|]. intros [|]; [|apply I_print].
  apply keeps_bind; [apply keeps_get|]. intros player.
  apply keeps_bind; [apply I_print|]. intros _.
  apply keeps_bind; [apply keeps_display|]. intros _.
  apply keeps_bind; [apply I_print|]. intros _.
  apply keeps_bind; [apply keeps_get|]. intros r.
  do 4 (apply keeps_bind; [apply I_input|intros ?]).
  apply keeps_bind.
  { match goal with |- keeps _ (match ?x with _ => _ end) => destruct x end;
      [apply keeps_ret|apply keeps_int]. }
  intros ug. apply keeps_bind.
  { match goal with |- keeps _ (match ?x with _ => _ end) => destruct x end;
      [apply keeps_ret|apply keeps_int]. }
  intros ua. apply keeps_bind; [apply I_new|]. intros u.
  apply keeps_bind; [apply I_edit|intros _; apply I_print].
Qed.

Lemma keeps_add (rt : Builtins) : keeps I (ConsoleApp_add_player rt).
Proof.
  intros c Hc. unfold ConsoleApp_add_player.
  match goal with |- context [match ?body c with _ => _ end] =>
    assert (Hb : keeps I body) end.
  { do 3 (apply keeps_bind; [apply I_input|intros ?]).
    apply keeps_bind; [apply keeps_int|intros ?].
    apply keeps_bind; [apply I_input|intros ?].
    apply keeps_bind; [apply keeps_int|intros ?].
    apply I_add. }
  specialize (Hb c Hc).
  match goal with |- context [match ?body c with _ => _ end] =>
    destruct (body c) as [[u|[|text|e]] c'] end; cbn in Hb |- *; try done.
  by apply (I_print _ c').
Qed.

Lemma keeps_dispatch (rt : Builtins) (choice : string) : keeps I (dispatch rt choice).
Proof.
  unfold dispatch. repeat case_decide;
    eauto using keeps_add, keeps_edit, keeps_delete, keeps_display_all_players,
      keeps_calculate, keeps_filter_by_team, keeps_filter_by_goal_range,
      keeps_save, keeps_load.
Qed.

Lemma keeps_run (rt : Builtins) (fuel : nat) (c : Console) (r : result unit)
    (c' : Console) :
  I c → run rt fuel c = Some (r, c') → I c'.
Proof.
  revert c. induction fuel as [|fuel IH]; intros c Hc; [done|]. cbn [run].
  assert (Hm : keeps I (bind display_menu (λ _, input "Enter your choice: "))).
  { apply keeps_bind; [apply keeps_print_lines|intros _; apply I_input]. }
  specialize (Hm c Hc).
  destruct (bind display_menu _ c) as [[choice|e] c1]; cbn in Hm.
  2:{ by intros [= <- <-]. }
  case_decide.
  { intros [= <- <-]. by apply (I_print _ c1). }
  pose proof (keeps_dispatch rt choice c1 Hm) as Hd.
  destruct (dispatch rt choice c1) as [[u|e] c2]; cbn in Hd.
  - by apply IH.
  - by intros [= <- <-].
Qed.
End Kept.

(** ** The store stays sound *)

Lemma sound_print (line : string) : keeps (λ c, sound (manager c)) (console_print line).
Proof. by intros c H. Qed.

Lemma sound_input (prompt : string) : keeps (λ c, sound (manager c)) (input prompt).
Proof. intros c H. unfold input. by destruct (stdin c). Qed.

Lemma sound_new (r : PlayerRecord) : keeps (λ c, sound (manager c)) (PlayerRecord_new r).
Proof.
  intros c [Hwf Hnd]. split; [|done]. unfold wf in *. cbn.
  eapply Forall_impl; [exact Hwf|]. cbn. intros a Ha. rewrite length_app. lia.
Qed.

Lemma sound_add (r : PlayerRecord) :
  keeps (λ c, sound (manager c))
        (bind (PlayerRecord_new r) (λ player, on_manager (add_player player))).
Proof.
  intros c [Hwf Hnd]. unfold wf in *. cbn. split.
  - unfold wf. cbn. rewrite length_app. cbn. apply Forall_app. split.
    + eapply Forall_impl; [exact Hwf|]. cbn. intros; lia.
    + repeat constructor. lia.
  - cbn. apply NoDup_app. split; [done|]. split; [|apply NoDup_singleton].
    intros a Ha Ha'. apply list_elem_of_singleton in Ha' as ->.
    rewrite Forall_forall in Hwf. specialize (Hwf _ Ha). lia.
Qed.

Lemma sound_edit (index : Z) (u : ref) :
  keeps (λ c, sound (manager c)) (on_manager (edit_player index u)).
Proof.
  intros c [Hwf Hnd]. unfold on_manager, edit_player.
  destruct (valid_index index (manager c)); cbn; [|done].
  split; [|done]. unfold wf in *. cbn. by rewrite length_alter.
Qed.

Lemma sound_delete (index : Z) :
  keeps (λ c, sound (manager c)) (on_manager (delete_player index)).
Proof.
  intros c [Hwf Hnd]. unfold on_manager, delete_player.
  destruct (valid_index index (manager c)); cbn; [|done].
  split.
  - unfold wf in *. cbn. by apply Forall_delete.
  - cbn. eapply sublist_NoDup; [done|apply sublist_delete].
Qed.

Lemma sound_save {os : OS} (filename : string) :
  keeps (λ c, sound (manager c)) (on_manager (save_to_csv filename)).
Proof.
  intros c H. unfold on_manager, save_to_csv. by destruct (open_write filename).
Qed.

Lemma sound_load {os : OS} (filename : string) :
  keeps (λ c, sound (manager c)) (on_manager (load_from_csv filename)).
Proof.
  intros c _. unfold on_manager.
  destruct (load_fresh_objects (manager c) filename) as (Hnd & _ & Hwf & _).
  destruct (load_from_csv filename (manager c)) as [o st]. by split.
Qed.

(** X16. From a sound store (every position holds an allocated object
    and no object sits at two positions, as in the empty store) the
    console never leaves it: whatever the operator types and however
    [run] ends, the store is sound afterwards. *)
Theorem run_keeps_store_sound {os : OS} (rt : Builtins) (fuel : nat) (c : Console)
    (r : result unit) (c' : Console) :
  sound (manager c) → run rt fuel c = Some (r, c') → sound (manager c').
Proof.
  apply (keeps_run (λ c, sound (manager c)) sound_print sound_input sound_new
           sound_add sound_edit sound_delete sound_save sound_load).
Qed.

Lemma run_keeps_store_sound_witness :
  let rt := mkBuiltins id (λ _, EmptyString) in
  let c := mkConsole (mkState [] [] [] ∅)
                     ["1"; "Alice"; "Reds"; "3"; "1"; "3"; "0"; "10"] [] in
  match run (os := working_directory) rt 3 c with
  | Some (_, c') => sound (manager c')
  | None => False
  end.
Proof.
  intros rt c. destruct (run (os := working_directory) rt 3 c) as [[r c']|] eqn:E.
  - apply (run_keeps_store_sound (os := working_directory) rt 3 c r c'); [|exact E].
    split; [constructor|]. cbn. constructor.
  - vm_compute in E. discriminate E.
Defined.

(** ** The input is only consumed *)

Lemma suffix_print (k : list string) (line : string) :
  keeps (λ c, stdin c `suffix_of` k) (console_print line).
Proof. by intros c H. Qed.

Lemma suffix_input (k : list string) (prompt : string) :
  keeps (λ c, stdin c `suffix_of` k) (input prompt).
Proof.
  intros c H. unfold input. destruct (stdin c) as [|line rest] eqn:E; cbn.
  - apply suffix_nil.
  - etrans; [|exact H]. by apply suffix_cons_r.
Qed.

Lemma suffix_on_manager {A : Type} (k : list string)
    (method : State → outcome A * State) :
  keeps (λ c, stdin c `suffix_of` k) (on_manager method).
Proof. intros c H. unfold on_manager. by destruct (method (manager c)). Qed.

Lemma suffix_new (k : list string) (r : PlayerRecord) :
  keeps (λ c, stdin c `suffix_of` k) (PlayerRecord_new r).
Proof. by intros c H. Qed.

Lemma suffix_add (k : list string) (r : PlayerRecord) :
  keeps (λ c, stdin c `suffix_of` k)
        (bind (PlayerRecord_new r) (λ player, on_manager (add_player player))).
Proof. by intros c H. Qed.

Lemma suffix_dispatch {os : OS} (rt : Builtins) (choice : string) (c : Console) :
  stdin (dispatch rt choice c).2 `suffix_of` stdin c.
Proof.
  apply (keeps_dispatch (λ c', stdin c' `suffix_of` stdin c)
           (suffix_print _) (suffix_input _) (suffix_new _) (suffix_add _)
           (λ i u, suffix_on_manager _ _) (λ i, suffix_on_manager _ _)
           (λ f, suffix_on_manager _ _) (λ f, suffix_on_manager _ _)).
  done.
Qed.

Lemma suffix_menu_input (c : Console) :
  bind display_menu (λ _, input "Enter your choice: ") c
  = input "Enter your choice: " (display_menu c).2
  ∧ stdin (display_menu c).2 = stdin c
  ∧ heap (manager (display_menu c).2) = heap (manager c)
  ∧ players (manager (display_menu c).2) = players (manager c)
  ∧ files (manager (display_menu c).2) = files (manager c).
Proof. done. Qed.

(** X17. For every input, [run] ends: with one unit of fuel more than
    there are lines to read it returns or raises, since every turn of the
    loop reads a line and no method puts lines back. *)
Theorem run_ends {os : OS} (rt : Builtins) (c : Console) :
  ∃ r c', run rt (S (length (stdin c))) c = Some (r, c').
Proof.
  assert (H : ∀ fuel c, (length (stdin c) < fuel)%nat →
                ∃ r c', run rt fuel c = Some (r, c')).
  { clear c. induction fuel as [|fuel IH]; intros c Hlen; [lia|].
    cbn [run]. destruct (suffix_menu_input c) as (-> & Hin & _).
    unfold input. rewrite Hin.
    destruct (stdin c) as [|choice rest] eqn:E; [by eexists _, _|].
    case_decide; [by eexists _, _|].
    match goal with |- context [dispatch rt choice ?c1] =>
      pose proof (suffix_dispatch rt choice c1) as Hs;
      destruct (dispatch rt choice c1) as [[u|e] c2] end; [|by eexists _, _].
    apply IH. apply suffix_length in Hs. cbn in Hs, Hlen. lia. }
  apply H. lia.
Qed.

(** X18. [run] returns normally only through the choice 10: if it
    returns, the line 10 was among the lines to read and the last line
    printed is the farewell. *)
Theorem run_returns_only_on_exit {os : OS} (rt : Builtins) (fuel : nat)
    (c c' : Console) :
  run rt fuel c = Some (Normal tt, c') →
  "10" ∈ stdin c ∧ last (stdout (manager c')) = Some "Exiting...".
Proof.
  revert c. induction fuel as [|fuel IH]; intros c; [done|].
  cbn [run]. destruct (suffix_menu_input c) as (-> & Hin & _).
  unfold input. rewrite Hin.
  destruct (stdin c) as [|choice rest] eqn:E; [done|].
  case_decide as Hc.
  { subst choice. intros Heq. split; [left|].
    apply (f_equal (λ o, match o with
                         | Some p => last (stdout (manager p.2))
                         | None => None
                         end)) in Heq.
    cbn [snd console_print manager print stdout] in Heq.
    rewrite <- Heq. apply last_snoc. }
  match goal with |- context [dispatch rt choice ?c1] =>
    pose proof (suffix_dispatch rt choice c1) as Hs;
    destruct (dispatch rt choice c1) as [[u|e] c2] end; [|done].
  intros Hrun. destruct (IH c2 Hrun) as [H10 Hlast]. split; [|done].
  right. cbn in Hs. by eapply elem_of_suffix.
Qed.

Lemma run_returns_only_on_exit_witness :
  let rt := mkBuiltins id (λ _, EmptyString) in
  let c := mkConsole (mkState [] [] [] ∅) ["4"; "10"; "1"] [] in
  match run (os := working_directory) rt 2 c with
  | Some (Normal _, c') => last (stdout (manager c')) = Some "Exiting..."
  | _ => False
  end.
Proof.
  intros rt c.
  destruct (run (os := working_directory) rt 2 c) as [[[[]|e] c']|] eqn:E.
  - apply (run_returns_only_on_exit (os := working_directory) rt 2 c c' E).
  - vm_compute in E. discriminate E.
  - vm_compute in E. discriminate E.
Defined.

(** ** Choices that only read *)

Lemma store_print (h : list PlayerRecord) (p : list ref) (line : string) :
  keeps (λ c, heap (manager c) = h ∧ players (manager c) = p) (console_print line).
Proof. by intros c H. Qed.

Lemma store_input (h : list PlayerRecord) (p : list ref) (prompt : string) :
  keeps (λ c, heap (manager c) = h ∧ players (manager c) = p) (input prompt).
Proof. intros c H. unfold input. by destruct (stdin c). Qed.

Lemma store_save {os : OS} (h : list PlayerRecord) (p : list ref)
    (filename : string) :
  keeps (λ c, heap (manager c) = h ∧ players (manager c) = p)
        (on_manager (save_to_csv filename)).
Proof.
  intros c H. unfold on_manager, save_to_csv. by destruct (open_write filename).
Qed.

(** X19. Only the choices 1, 2, 3 and 9 can change the records: under
    any other choice (listing, statistics, the two filters, saving, an
    unknown choice) the objects and the positions of the store are the
    same afterwards, whatever is typed and whether or not the method
    ends with an exception. *)
Theorem dispatch_read_only {os : OS} (rt : Builtins) (choice : string)
    (c : Console) :
  choice ∉ ["1"; "2"; "3"; "9"] →
  heap (manager (dispatch rt choice c).2) = heap (manager c)
  ∧ players (manager (dispatch rt choice c).2) = players (manager c).
Proof.
  intros Hnot.
  assert (H1 : choice ≠ "1") by (intros ->; apply Hnot; set_solver).
  assert (H2 : choice ≠ "2") by (intros ->; apply Hnot; set_solver).
  assert (H3 : choice ≠ "3") by (intros ->; apply Hnot; set_solver).
  assert (H9 : choice ≠ "9") by (intros ->; apply Hnot; set_solver).
  set (I := λ c', heap (manager c') = heap (manager c)
                  ∧ players (manager c') = players (manager c)).
  assert (Hk : keeps I (dispatch rt choice)).
  { unfold dispatch. repeat case_decide; try done.
    - apply keeps_display_all_players. apply store_print.
    - apply keeps_calculate. apply store_print.
    - apply keeps_filter_by_team; [apply store_print|apply store_input].
    - apply keeps_filter_by_goal_range; [apply store_print|apply store_input].
    - apply keeps_save; [apply store_print|apply store_input|apply store_save].
    - apply store_print. }
  by apply (Hk c).
Qed.

Lemma dispatch_read_only_witness :
  let rt := mkBuiltins id (λ _, EmptyString) in
  let st := mkState [new_record "Alice" "Reds" 3 1] [0%nat] [] ∅ in
  let c := mkConsole st ["x"; "7"] [] in
  players (manager (dispatch (os := working_directory) rt "7" c).2) = [0%nat].
Proof.
  intros rt st c.
  destruct (dispatch_read_only (os := working_directory) rt "7" c) as [_ Hp];
    [|exact Hp].
  apply (bool_decide_unpack _). vm_compute. exact I.
Defined.

(** ** Adding and deleting through the console *)

Lemma contents_after_new (st : State) (r : PlayerRecord) :
  wf st →
  deref (heap st ++ [r]) <$> (players st ++ [length (heap st)])
  = contents st ++ [r].
Proof.
  intros Hwf. rewrite fmap_app. cbn [fmap list_fmap]. f_equal.
  - unfold contents. apply Forall_fmap_ext. eapply Forall_impl; [exact Hwf|].
    cbn. intros a Ha. unfold deref. rewrite !list_lookup_total_alt.
    by rewrite lookup_app_l.
  - f_equal. unfold deref. apply list_lookup_total_correct.
    by rewrite list_lookup_middle.
Qed.

Lemma add_player_cases (rt : Builtins) (c : Console)
    (n t g a : string) (rest : list string) :
  stdin c = n :: t :: g :: a :: rest →
  wf (manager c) →
  ∃ c', ConsoleApp_add_player rt c = (Normal tt, c')
    ∧ match int_of_str g, int_of_str a with
      | Some gz, Some az =>
          stdin c' = rest
          ∧ players (manager c') = players (manager c) ++ [length (heap (manager c))]
          ∧ contents (manager c') = contents (manager c) ++ [new_record n t gz az]
          ∧ wf (manager c')
      | None, _ =>
          stdin c' = a :: rest
          ∧ heap (manager c') = heap (manager c)
          ∧ players (manager c') = players (manager c)
          ∧ last (stdout (manager c'))
            = Some ("Error: " +:+ str_ValueError rt g +:+ ". Please enter valid input.")
      | Some _, None =>
          stdin c' = rest
          ∧ heap (manager c') = heap (manager c)
          ∧ players (manager c') = players (manager c)
          ∧ last (stdout (manager c'))
            = Some ("Error: " +:+ str_ValueError rt a +:+ ". Please enter valid input.")
      end.
Proof.
  intros Hin Hwf. destruct c as [st inp ps]. cbn in Hin, Hwf. subst inp.
  unfold ConsoleApp_add_player, bind, input, int. cbn [stdin manager prompts].
  destruct (int_of_str g) as [gz|] eqn:Eg; cbn [ret raise stdin manager prompts].
  - destruct (int_of_str a) as [az|] eqn:Ea; cbn [ret raise stdin manager prompts].
    + eexists. split; [reflexivity|]. cbn.
      split; [done|]. split; [done|]. split.
      * unfold contents at 1. cbn. by apply contents_after_new.
      * unfold wf in *. cbn. rewrite length_app. cbn. apply Forall_app. split.
        -- eapply Forall_impl; [exact Hwf|]. cbn. intros; lia.
        -- repeat constructor. lia.
    + eexists. split; [reflexivity|]. cbn. repeat split. apply last_snoc.
  - eexists. split; [reflexivity|]. cbn. repeat split. apply last_snoc.
Qed.

(** X20. [ConsoleApp.add_player] reads the name, the team and the
    goals, and the assists only when the goals are an integer.  When both
    numbers are integers a new record with the four values is appended to
    the store and the method returns.  When the goals are no integer the
    error line is printed, the store is unchanged, the line meant for the
    assists has not been read and the method returns; when only the
    assists are no integer the error line is printed, the store is
    unchanged and the method returns.  When the input ends before a line
    that is asked for, the [EOFError] of [input] is not caught and the
    store is unchanged. *)
Theorem ConsoleApp_add_player_spec (rt : Builtins) (c : Console) :
  wf (manager c) →
  let after := (ConsoleApp_add_player rt c).2 in
  let unchanged := heap (manager after) = heap (manager c)
                   ∧ players (manager after) = players (manager c) in
  let reported text :=
    last (stdout (manager after))
    = Some ("Error: " +:+ str_ValueError rt text +:+ ". Please enter valid input.") in
  match stdin c with
  | n :: t :: g :: rest =>
      match int_of_str g, rest with
      | None, _ =>
          (ConsoleApp_add_player rt c).1 = Normal tt
          ∧ stdin after = rest ∧ unchanged ∧ reported g
      | Some gz, [] =>
          (ConsoleApp_add_player rt c).1 = Escapes EOFError ∧ unchanged
      | Some gz, a :: rest' =>
          (ConsoleApp_add_player rt c).1 = Normal tt
          ∧ stdin after = rest'
          ∧ match int_of_str a with
            | None => unchanged ∧ reported a
            | Some az =>
                players (manager after)
                = players (manager c) ++ [length (heap (manager c))]
                ∧ contents (manager after)
                  = contents (manager c) ++ [new_record n t gz az]
                ∧ wf (manager after)
            end
      end
  | _ => (ConsoleApp_add_player rt c).1 = Escapes EOFError ∧ unchanged
  end.
Proof.
  intros Hwf. cbn zeta. destruct c as [st inp ps]. cbn [stdin manager] in *.
  destruct inp as [|n [|t [|g rest]]]; [done|done|done|].
  unfold ConsoleApp_add_player, bind, input, int. cbn [stdin manager prompts].
  destruct (int_of_str g) as [gz|] eqn:Eg; cbn [ret raise stdin manager prompts].
  2:{ cbn. repeat split. apply last_snoc. }
  destruct rest as [|a rest']; [done|].
  destruct (int_of_str a) as [az|] eqn:Ea; cbn [ret raise stdin manager prompts].
  2:{ cbn. repeat split. apply last_snoc. }
  cbn. split; [done|]. split; [done|]. split; [done|]. split.
  - unfold contents at 1. cbn. by apply contents_after_new.
  - unfold wf in *. cbn. rewrite length_app. cbn. apply Forall_app. split.
    + eapply Forall_impl; [exact Hwf|]. cbn. intros; lia.
    + repeat constructor. lia.
Qed.

(** The goals typed are no integer: the next line stays unread. *)
Lemma ConsoleApp_add_player_spec_witness :
  let rt := mkBuiltins id (λ _, EmptyString) in
  let c := mkConsole (mkState [] [] [] ∅) ["Alice"; "Reds"; "three"; "1"; "10"] [] in
  (ConsoleApp_add_player rt c).1 = Normal tt
  ∧ stdin (ConsoleApp_add_player rt c).2 = ["1"; "10"]
  ∧ players (manager (ConsoleApp_add_player rt c).2) = [].
Proof.
  intros rt c.
  pose proof (ConsoleApp_add_player_spec rt c) as H.
  assert (Hwf : wf (manager c)) by constructor.
  specialize (H Hwf). cbn zeta in H.
  change (stdin c) with ["Alice"; "Reds"; "three"; "1"; "10"] in H.
  change (int_of_str "three") with (@None Z) in H. cbn iota in H.
  destruct H as (Hr & Hs & [_ Hp] & _).
  split; [exact Hr|]. split; [exact Hs|exact Hp].
Defined.

(** X21. [ConsoleApp.delete_player] reads one line.  A line that is no
    integer makes [int] raise, nothing is caught and the store is
    unchanged.  For a valid index the record at that position is removed
    and the success line is printed twice, by the manager and by the
    console; for any other integer the store is unchanged and the line
    Invalid index. is printed once. *)
Theorem ConsoleApp_delete_player_spec (c : Console) (text : string)
    (rest : list string) :
  stdin c = text :: rest →
  let st := manager c in
  let c' := (ConsoleApp_delete_player c).2 in
  stdin c' = rest ∧ heap (manager c') = heap st
  ∧ match int_of_str text with
    | None =>
        (ConsoleApp_delete_player c).1 = Escapes (IntError text)
        ∧ manager c' = st
    | Some index =>
        (ConsoleApp_delete_player c).1 = Normal tt
        ∧ if valid_index index st then
            players (manager c') = delete (Z.to_nat index) (players st)
            ∧ stdout (manager c')
              = stdout st ++ ["Player deleted successfully.";
                              "Player deleted successfully."]
          else
            players (manager c') = players st
            ∧ stdout (manager c') = stdout st ++ ["Invalid index."]
    end.
Proof.
  intros Hin st c'. subst st c'. destruct c as [st inp ps]. cbn in Hin. subst inp.
  unfold ConsoleApp_delete_player, bind, input, int, get.
  cbn [stdin manager prompts].
  destruct (int_of_str text) as [index|]; cbn [ret raise fst snd stdin manager].
  2:{ done. }
  unfold on_manager, delete_player. cbn [manager stdin prompts].
  destruct (valid_index index st) eqn:Hv; cbn; rewrite ?Hv; cbn;
    rewrite <- ?app_assoc; done.
Qed.

Lemma ConsoleApp_delete_player_spec_witness :
  let st := mkState [new_record "Alice" "Reds" 3 1; new_record "Bob" "Blues" 5 2]
                    [0%nat; 1%nat] [] ∅ in
  let c := mkConsole st ["0"; "10"] [] in
  players (manager (ConsoleApp_delete_player c).2) = [1%nat]
  ∧ stdout (manager (ConsoleApp_delete_player c).2)
    = ["Player deleted successfully."; "Player deleted successfully."].
Proof.
  intros st c.
  destruct (ConsoleApp_delete_player_spec c "0" ["10"]) as (_ & _ & H); [reflexivity|].
  change (int_of_str "0") with (Some 0) in H. destruct H as [_ H].
  change (valid_index 0 (manager c)) with true in H. exact H.
Defined.

(** ** Editing through the console *)

Lemma or_else_truthy (text : string) (old : option string) :
  (if truthy (or_else text old) then or_else text old else old) = or_else text old.
Proof. destruct text; cbn; [by destruct (truthy old)|done]. Qed.

Lemma parse_or_keep_int (text : string) (old z : Z) (c : Console) :
  parse_or_keep text old = Some z →
  match text with
  | EmptyString => ret old
  | String _ _ => int text
  end c = (Normal z, c).
Proof.
  destruct text as [|x text]; cbn [parse_or_keep]; [by intros [= ->]|].
  intros H. unfold int. by rewrite H.
Qed.

(** X22. [ConsoleApp.edit_player] at a valid index reads four lines; a
    blank line keeps the value the record has, any other line replaces
    it (the numbers being read as integers, zero included).  The record
    object at the index then holds exactly these four values, the list
    holds the same objects in the same order, every other object is
    unchanged, and the success line is printed twice. *)
Theorem ConsoleApp_edit_player_spec (c : Console) (idx n t g a : string)
    (rest : list string) (index gz az : Z) :
  stdin c = idx :: n :: t :: g :: a :: rest →
  int_of_str idx = Some index →
  0 <= index < Z.of_nat (length (players (manager c))) →
  wf (manager c) →
  let st := manager c in
  let target := players st !!! Z.to_nat index in
  let old := deref (heap st) target in
  parse_or_keep g (goals old) = Some gz →
  parse_or_keep a (assists old) = Some az →
  ∃ c', ConsoleApp_edit_player c = (Normal tt, c')
    ∧ stdin c' = rest
    ∧ players (manager c') = players st
    ∧ deref (heap (manager c')) target
      = mkPlayerRecord (or_else n (name old)) (or_else t (team old)) gz az
    ∧ (∀ b : ref, b ≠ target → (b < length (heap st))%nat →
         heap (manager c') !! b = heap st !! b)
    ∧ (∃ out, stdout (manager c')
              = out ++ ["Player updated successfully."; "Player updated successfully."]).
Proof.
  intros Hin Hidx Hi Hwf. cbn zeta.
  destruct c as [st0 inp ps]. cbn [manager stdin] in *. subst inp.
  set (target := players st0 !!! Z.to_nat index).
  set (old := deref (heap st0) target). intros Hg Ha.
  apply valid_index_spec in Hi as Hv.
  assert (Ht : (target < length (heap st0))%nat).
  { unfold wf in Hwf. rewrite Forall_lookup in Hwf.
    apply (Hwf (Z.to_nat index)). subst target.
    apply list_lookup_lookup_total_lt. lia. }
  unfold ConsoleApp_edit_player.
  unfold bind at 1. unfold input at 1. cbn [stdin manager prompts].
  unfold bind at 1. unfold int at 1. rewrite Hidx. cbn [ret].
  unfold bind at 1. unfold get at 1. cbn [manager]. rewrite Hv.
  unfold bind at 1. unfold get at 1. cbn [manager]. fold target.
  unfold bind at 1. unfold console_print at 1. cbn [manager stdin prompts].
  unfold bind at 1. unfold on_manager at 1, display. cbn [manager stdin prompts heap print].
  unfold bind at 1. unfold console_print at 1. cbn [manager stdin prompts].
  unfold bind at 1. unfold get at 1. cbn [manager heap print]. fold old.
  do 4 (unfold bind at 1; unfold input at 1; cbn [stdin manager prompts]).
  unfold bind at 1. rewrite (parse_or_keep_int g (goals old) gz _ Hg).
  unfold bind at 1. rewrite (parse_or_keep_int a (assists old) az _ Ha).
  unfold bind at 1. unfold PlayerRecord_new at 1. cbn [manager stdin prompts heap print set_heap].
  unfold bind at 1. unfold on_manager at 1. cbn [manager stdin prompts].
  rewrite edit_player_valid by exact Hv.
  unfold console_print. cbn [manager stdin prompts].
  eexists. split; [reflexivity|].
  cbn [stdin manager players heap stdout print set_heap].
  split; [done|]. split; [done|].
  set (patch := mkPlayerRecord (or_else n (name old)) (or_else t (team old)) gz az).
  assert (Hpatch : deref (heap st0 ++ [patch]) (length (heap st0)) = patch).
  { unfold deref. apply list_lookup_total_correct. by rewrite list_lookup_middle. }
  rewrite Hpatch.
  split.
  { unfold deref. apply list_lookup_total_correct.
    rewrite list_lookup_alter_eq, lookup_app_l by done.
    assert (Hold : heap st0 !! (players st0 !!! Z.to_nat index) = Some old)
      by (by apply list_lookup_lookup_total_lt).
    rewrite Hold. cbn [fmap option_fmap option_map].
    f_equal. subst patch. cbn [name team goals assists].
    pose proof (edit_fields old (or_else n (name old)) (or_else t (team old))
                  (Some gz) (Some az)) as (H1 & H2 & H3 & H4).
    rewrite !or_else_truthy in *.
    destruct (edit old _ _ _ _) as [n' t' g' a']. cbn in *. by subst. }
  split.
  { intros b Hb Hlt. rewrite list_lookup_alter_ne by done. by apply lookup_app_l. }
  eexists. rewrite <- app_assoc. reflexivity.
Qed.

Lemma ConsoleApp_edit_player_spec_witness :
  let st := mkState [new_record "Bob" "Blues" 5 2] [0%nat] [] ∅ in
  let c := mkConsole st ["0"; EmptyString; "Greens"; "0"; EmptyString; "10"] [] in
  ∃ c', ConsoleApp_edit_player c = (Normal tt, c')
        ∧ stdin c' = ["10"]
        ∧ deref (heap (manager c')) 0%nat = new_record "Bob" "Greens" 0 2.
Proof.
  intros st c.
  destruct (ConsoleApp_edit_player_spec c "0" EmptyString "Greens" "0" EmptyString
              ["10"] 0 0 2) as (c' & Hc & Hs & _ & Hr & _).
  - reflexivity.
  - reflexivity.
  - cbn. lia.
  - unfold wf. cbn. repeat constructor.
  - reflexivity.
  - reflexivity.
  - exists c'. split; [exact Hc|]. split; [exact Hs|exact Hr].
Defined.

(** ** Listing the players *)

Lemma display_rows_typed (ps : list ref) (index : nat) (c : Console) :
  Forall typed_record (deref (heap (manager c)) <$> ps) →
  ∃ c', display_rows index ps c = (Normal tt, c')
        ∧ heap (manager c') = heap (manager c)
        ∧ players (manager c') = players (manager c)
        ∧ stdin c' = stdin c
        ∧ length (stdout (manager c')) = (length (stdout (manager c)) + length ps)%nat.
Proof.
  revert index c. induction ps as [|p ps IH]; intros index c Hall.
  - exists c. cbn. repeat split. lia.
  - cbn [fmap list_fmap] in Hall. apply Forall_cons in Hall as [[[n Hn] [t Ht]] Hall].
    cbn [display_rows]. unfold bind at 1, get at 1. rewrite Hn, Ht.
    unfold bind at 1, console_print at 1.
    match goal with |- context [display_rows (S index) ps ?c1] =>
      destruct (IH (S index) c1) as (c' & -> & Hh & Hp & Hs & Hl) end; [done|].
    exists c'. split; [done|]. cbn in Hh, Hp, Hs, Hl.
    rewrite length_app in Hl. cbn in Hl |- *. repeat split; try done. lia.
Qed.

Lemma display_rows_untyped (ps : list ref) (index : nat) (c : Console) :
  ¬ Forall typed_record (deref (heap (manager c)) <$> ps) →
  ∃ c', display_rows index ps c = (Escapes (Uncaught TypeError), c')
        ∧ heap (manager c') = heap (manager c)
        ∧ players (manager c') = players (manager c).
Proof.
  revert index c. induction ps as [|p ps IH]; intros index c Hall.
  - exfalso. apply Hall. constructor.
  - cbn [display_rows]. unfold bind at 1, get at 1.
    destruct (name (deref (heap (manager c)) p)) as [n|] eqn:Hn;
      [|by exists c].
    destruct (team (deref (heap (manager c)) p)) as [t|] eqn:Ht;
      [|by exists c].
    unfold bind at 1, console_print at 1.
    match goal with |- context [display_rows (S index) ps ?c1] =>
      destruct (IH (S index) c1) as (c' & -> & Hh & Hp) end.
    { intros Hrest. apply Hall. cbn [fmap list_fmap]. constructor; [|done].
      split; by eexists. }
    by exists c'.
Qed.

Lemma display_all_players_cases (c : Console) :
  match players (manager c) with
  | [] => display_all_players c = console_print "No players to display." c
  | p :: ps =>
      display_all_players c
      = display_rows 0 (p :: ps)
          (mkConsole
             (print dashes
                (print (format_row "Index" "Name" "Team" "Goals" "Assists")
                   (print (String LF "All Players:") (manager c))))
             (stdin c) (prompts c))
  end.
Proof.
  unfold display_all_players, bind, get, console_print. cbn beta iota.
  destruct (players (manager c)); reflexivity.
Qed.

(** X23. [display_all_players] never changes the store.  When every
    record has a string as name and as team it returns: one line for the
    empty store, else three heading lines and one line per record.  When
    some record has [None] there (as [load_from_csv] can leave it), the
    formatting raises [TypeError], which nothing catches. *)
Theorem display_all_players_spec (c : Console) :
  let st := manager c in
  let c' := (display_all_players c).2 in
  heap (manager c') = heap st ∧ players (manager c') = players st
  ∧ (Forall typed_record (contents st) →
       (display_all_players c).1 = Normal tt
       ∧ length (stdout (manager c'))
         = (length (stdout st)
            + match players st with [] => 1 | _ :: _ => 3 + length (players st) end)%nat)
  ∧ (¬ Forall typed_record (contents st) →
       (display_all_players c).1 = Escapes (Uncaught TypeError)).
Proof.
  cbn zeta. unfold contents. pose proof (display_all_players_cases c) as Hc.
  destruct (players (manager c)) as [|p ps] eqn:Ep.
  { rewrite Hc. unfold console_print.
    cbn [fst snd manager heap players print stdout fmap list_fmap].
    repeat split; try done.
    - rewrite length_app. reflexivity.
    - intros H. exfalso. apply H. constructor. }
  rewrite Hc. clear Hc.
  match goal with |- context [display_rows 0 (p :: ps) ?x] => set (c1 := x) end.
  assert (Hh1 : heap (manager c1) = heap (manager c)) by done.
  assert (Hp1 : players (manager c1) = players (manager c)) by done.
  assert (Hl1 : length (stdout (manager c1)) = (length (stdout (manager c)) + 3)%nat).
  { subst c1. cbn [manager stdout print]. rewrite !length_app. cbn [length]. lia. }
  destruct (decide (Forall typed_record (deref (heap (manager c)) <$> p :: ps)))
    as [Hall|Hnot].
  - destruct (display_rows_typed (p :: ps) 0 c1) as (c' & -> & Hh & Hp & _ & Hl).
    { by rewrite Hh1. }
    cbn [fst snd]. rewrite Hh, Hp, Hl, Hl1, Hh1, Hp1, Ep.
    repeat split; try done. cbn [length]. lia.
  - destruct (display_rows_untyped (p :: ps) 0 c1) as (c' & -> & Hh & Hp).
    { by rewrite Hh1. }
    cbn [fst snd]. rewrite Hh, Hp, Hh1, Hp1, Ep. repeat split; done.
Qed.

Lemma display_all_players_spec_witness :
  let text := "Goals,Assists,Name,Team" +:+ lineterminator
              +:+ "3,1" +:+ lineterminator in
  let st := (load_from_csv (os := working_directory) "p.csv"
               (mkState [] [] [] {[ "p.csv" := text ]})).2 in
  contents st = [mkPlayerRecord None None 3 1]
  ∧ (display_all_players (mkConsole st [] [])).1 = Escapes (Uncaught TypeError).
Proof.
  intros text st. split; [vm_compute; reflexivity|].
  destruct (display_all_players_spec (mkConsole st [] [])) as (_ & _ & _ & H).
  apply H. intros Hall. vm_compute in Hall.
  apply Forall_cons in Hall as [[[n Hn] _] _]. discriminate Hn.
Defined.

(** ** A session of additions *)

Lemma run_add_step {os : OS} (rt : Builtins) (fuel : nat) (c : Console)
    (n t : string) (g a : Z) (more : list string) :
  stdin c = "1" :: n :: t :: str_int g :: str_int a :: more →
  wf (manager c) →
  ∃ c1, run rt (S fuel) c = run rt fuel c1
        ∧ stdin c1 = more ∧ wf (manager c1)
        ∧ contents (manager c1) = contents (manager c) ++ [new_record n t g a].
Proof.
  intros Hin Hwf. cbn [run].
  destruct (suffix_menu_input c) as (-> & Hs & Hh & Hp & _).
  unfold input. rewrite Hs, Hin. case_decide as H10; [discriminate H10|].
  change (dispatch rt "1") with (ConsoleApp_add_player rt).
  match goal with |- context [ConsoleApp_add_player rt ?x] => set (c2 := x) end.
  destruct (add_player_cases rt c2 n t (str_int g) (str_int a) more)
    as (c1 & -> & Hcase); [done| |].
  { subst c2. unfold wf. cbn [manager]. rewrite Hh, Hp. exact Hwf. }
  rewrite !int_of_str_str_int in Hcase. destruct Hcase as (Hs1 & _ & Hc1 & Hwf1).
  exists c1. split; [done|]. split; [done|]. split; [done|].
  rewrite Hc1. subst c2. unfold contents. cbn [manager]. by rewrite Hh, Hp.
Qed.

(** X24. What the operator types is what the store holds: when the input
    is, for each of a list of players, the choice 1 followed by the name,
    the team and the decimal texts of the goals and assists, and then the
    choice 10, [run] returns normally, has read exactly these lines, and
    the store holds its former records followed by one record per player
    with the four values typed, in order. *)
Theorem run_add_session {os : OS} (rt : Builtins)
    (data : list (string * string * Z * Z))
    (c : Console) (rest : list string) :
  stdin c = add_script data ++ "10" :: rest →
  wf (manager c) →
  ∃ c', run rt (S (length data)) c = Some (Normal tt, c')
        ∧ stdin c' = rest
        ∧ contents (manager c') = contents (manager c) ++ (record_of_tuple <$> data).
Proof.
  revert c. induction data as [|[[[n t] g] a] data IH]; intros c Hin Hwf.
  - cbn [add_script flat_map app] in Hin. cbn [length run].
    destruct (suffix_menu_input c) as (-> & Hs & Hh & Hp & _).
    unfold input. rewrite Hs, Hin. case_decide as H10; [|done].
    eexists. split; [reflexivity|]. cbn [console_print stdin manager snd].
    split; [done|]. unfold contents. cbn [heap players print].
    by rewrite Hh, Hp, app_nil_r.
  - cbn [add_script flat_map app fst snd] in Hin. cbn [length].
    destruct (run_add_step rt (S (length data)) c n t g a
                (add_script data ++ "10" :: rest) Hin Hwf)
      as (c1 & -> & Hs1 & Hwf1 & Hc1).
    destruct (IH c1 Hs1 Hwf1) as (c' & Hrun & Hs' & Hc').
    exists c'. split; [done|]. split; [done|].
    rewrite Hc', Hc1. cbn [fmap list_fmap]. by rewrite <- app_assoc.
Qed.

Lemma run_add_session_witness :
  let rt := mkBuiltins id (λ _, EmptyString) in
  let c := mkConsole (mkState [] [] [] ∅)
                     ["1"; "Alice"; "Reds"; "3"; "1";
                      "1"; "Bob, Jr"; "Blues"; "5"; "-2"; "10"] [] in
  ∃ c', run (os := working_directory) rt 3 c = Some (Normal tt, c')
        ∧ contents (manager c')
          = [new_record "Alice" "Reds" 3 1; new_record "Bob, Jr" "Blues" 5 (-2)].
Proof.
  intros rt c.
  destruct (run_add_session (os := working_directory) rt
              [("Alice", "Reds", 3, 1); ("Bob, Jr", "Blues", 5, -2)]
              c []) as (c' & Hrun & _ & Hc).
  - reflexivity.
  - constructor.
  - exists c'. split; [exact Hrun|exact Hc].
Defined.
